(** * ScriptToScene Studio: timeline state, validator and canvas preview

  A shallow embedding of the timeline editor's front-end core
  (utils.js, validation.js, state.js, editor.js and canvas-preview.js)
  together with the properties its specification states about it.

  Number model.  Durations, playback times and the project duration are
  JavaScript numbers.  In the store, the validator and the timestamp
  calculator they are embedded as exact rationals ([Q]), with [===] on
  numbers read as [Qeq_bool].  The canvas preview is embedded once over an
  arithmetic interface and read at the rationals and at binary64
  ([PrimFloat], the numbers the JavaScript engine computes with); its
  easing code is embedded over binary64 directly.  History cursors and
  scene ids are integers ([Z]). *)

From Stdlib Require Import ZArith QArith Qround Qabs String Ascii DecimalString PrimFloat Floats Uint63 Lia Lqa Sorted.
From stdpp Require Import base list.

Local Open Scope Z_scope.
#[local] Set Warnings "-inexact-float".

(** ** JavaScript built-ins used by the sources *)

Module JS.

(** [arr[i]]: [undefined] (here [None]) outside [0 .. length-1]. *)
Definition index {A} (arr : list A) (i : Z) : option A :=
  if i <? 0 then None else arr !! Z.to_nat i.

(** [arr.slice(0, end)]: a negative [end] counts from the back, and the
    result is clamped to the array. *)
Definition slice0 {A} (arr : list A) (e : Z) : list A :=
  let len := Z.of_nat (length arr) in
  let k := if e <? 0 then Z.max (len + e) 0 else Z.min e len in
  take (Z.to_nat k) arr.

(** [arr.shift()], keeping the remaining array. *)
Definition shift {A} (arr : list A) : list A := tail arr.

(** [arr.push(x)]. *)
Definition push {A} (arr : list A) (x : A) : list A := arr ++ [x].

(** [n.toString()] for an integral number. *)
Definition Z_toString (n : Z) : string := NilZero.string_of_int (Z.to_int n).

(** Digits of the fraction [n/d] ([0 <= n < d]), until it terminates. *)
Fixpoint frac_digits (fuel : nat) (n d : Z) : string :=
  match fuel with
  | O => EmptyString
  | S fuel' =>
      let digit := Z_toString (n * 10 / d) in
      let rest := frac_digits fuel' (n * 10 mod d) d in
      if n =? 0 then EmptyString else (digit ++ rest)%string
  end.

(** [String(x)] / template interpolation of a number.  Integral values
    print as their decimal digits; a fraction prints its (terminating)
    decimal expansion. *)
Definition Number_toString (x : Q) : string :=
  let r := Qred x in
  let n := Qnum r in
  let d := Zpos (Qden r) in
  let sign := if n <? 0 then "-"%string else EmptyString in
  let whole := Z_toString (Z.abs n / d) in
  let frac := frac_digits 20 (Z.abs n mod d) d in
  if d =? 1 then Z_toString n
  else (sign ++ whole ++ "." ++ frac)%string.

(** [s.padStart(n, c)] for a one-character pad string [c]. *)
Definition padStart (n : nat) (c : ascii) (s : string) : string :=
  (string_of_list_ascii (replicate (n - String.length s) c) ++ s)%string.

(** A string is embedded as the bytes of its UTF-8 encoding, which is
    what a string literal of this file holds.  [trim] strips white space
    and line terminators: U+0009 to U+000D and U+0020 (one byte each),
    U+00A0 (two bytes), and U+1680, U+2000 to U+200A, U+2028, U+2029,
    U+202F, U+205F, U+3000 and U+FEFF (three bytes each). *)
Definition is_white (c : ascii) : bool :=
  let n := nat_of_ascii c in
  ((9 <=? n) && (n <=? 13) || (n =? 32))%nat.

Definition is_white2 (c1 c2 : ascii) : bool :=
  ((nat_of_ascii c1 =? 194) && (nat_of_ascii c2 =? 160))%nat.

Definition is_white3 (c1 c2 c3 : ascii) : bool :=
  let a := nat_of_ascii c1 in
  let b := nat_of_ascii c2 in
  let c := nat_of_ascii c3 in
  ((a =? 225) && (b =? 154) && (c =? 128)
   || (a =? 226) && (b =? 128)
      && ((128 <=? c) && (c <=? 138) || (c =? 168) || (c =? 169) || (c =? 175))
   || (a =? 226) && (b =? 129) && (c =? 159)
   || (a =? 227) && (b =? 128) && (c =? 128)
   || (a =? 239) && (b =? 187) && (c =? 191))%nat.

(** [s.trimStart()]. *)
Fixpoint trimStart (s : string) : string :=
  match s with
  | EmptyString => EmptyString
  | String c1 s1 =>
      if is_white c1 then trimStart s1
      else match s1 with
           | EmptyString => s
           | String c2 s2 =>
               if is_white2 c1 c2 then trimStart s2
               else match s2 with
                    | EmptyString => s
                    | String c3 s3 => if is_white3 c1 c2 c3 then trimStart s3 else s
                    end
           end
  end.

(** [s.trimEnd()]: cut where only white space follows. *)
Fixpoint trimEnd (s : string) : string :=
  match s with
  | EmptyString => EmptyString
  | String c s' =>
      match trimStart s with
      | EmptyString => EmptyString
      | _ => String c (trimEnd s')
      end
  end.

(** [s.trim()]. *)
Definition trim (s : string) : string := trimEnd (trimStart s).

(** Truthiness of a string: only the empty string is falsy. *)
Definition truthy (s : string) : bool :=
  match s with EmptyString => false | _ => true end.

(** [arr.includes(x)] on an array of strings. *)
Definition includes (arr : list string) (x : string) : bool :=
  existsb (String.eqb x) arr.

(** [hay.includes(needle)] on strings. *)
Fixpoint str_includes (hay needle : string) : bool :=
  if String.prefix needle hay then true
  else match hay with
       | String _ hay' => str_includes hay' needle
       | EmptyString => false
       end.

(** [arr.join(sep)]. *)
Definition join (sep : string) (arr : list string) : string :=
  String.concat sep arr.

(** [a < b], [a > b], [a >= b] on numbers. *)
Definition ltb (a b : Q) : bool := negb (Qle_bool b a).
Definition gtb (a b : Q) : bool := ltb b a.
Definition geb (a b : Q) : bool := Qle_bool b a.

(** [Math.max(a, b)], [Math.abs(a)]. *)
Definition Math_max (a b : Q) : Q := if Qle_bool a b then b else a.
Definition Math_abs (a : Q) : Q := Qabs a.

End JS.

(** ** utils.js *)

Module Utils.

(** Numbers are exact rationals in this module and in the store, the
    validator and the editor built on it.  On whole numbers below 2^53
    the sums, differences and comparisons of the code, which are binary64,
    give the same results; on fractional durations the code rounds each
    sum, and [Binary64] below embeds the calculator as the code computes
    it. *)

(** A scene record of the timeline editor.  [prompt], [visual_fx] and
    [text_content] may be absent on a record ([None]). *)
Record Scene := mkScene {
  scene_id : Z;
  scene_type : string;
  duration : Q;
  timestamp : string;
  prompt : option string;
  visual_fx : option string;
  text_content : option string
}.

(** Keys of [VFX_ICONS], in declaration order. *)
Definition VFX_ICONS_keys : list string :=
  ["zoom_in"; "zoom_out"; "pan_left"; "pan_right";
   "fade"; "static"; "shake"; "slow_motion"]%string.

(** [ALLOWED_VFX = Object.keys(VFX_ICONS)]. *)
Definition ALLOWED_VFX : list string := VFX_ICONS_keys.

(** [formatTimestamp(seconds)]: [Math.floor], floor division by 60,
    JavaScript remainder (sign of the dividend), [padStart(2, '0')]. *)
Definition formatTimestamp (seconds : Q) : string :=
  let totalSeconds := Qfloor seconds in
  let m := totalSeconds / 60 in
  let s := Z.rem totalSeconds 60 in
  (JS.Z_toString m ++ ":" ++ JS.padStart 2 "0" (JS.Z_toString s))%string.

(** [{ ...scene, timestamp }]. *)
Definition with_timestamp (scene : Scene) (ts : string) : Scene :=
  {| scene_id := scene_id scene; scene_type := scene_type scene;
     duration := duration scene; timestamp := ts;
     prompt := prompt scene; visual_fx := visual_fx scene;
     text_content := text_content scene |}.

(** The [map] callback of [calculateTimestamps] with its captured
    variable [cumulative] made explicit. *)
Fixpoint calculateTimestamps_from (cumulative : Q) (scenes : list Scene) : list Scene :=
  match scenes with
  | [] => []
  | scene :: rest =>
      let timestamp := formatTimestamp cumulative in
      with_timestamp scene timestamp
        :: calculateTimestamps_from (cumulative + duration scene)%Q rest
  end.

Definition calculateTimestamps (scenes : list Scene) : list Scene :=
  calculateTimestamps_from 0%Q scenes.

(** [scenes.reduce((sum, scene) => sum + (scene.duration || 0), 0)];
    on numbers [d || 0] is [d]. *)
Definition getTotalDuration (scenes : list Scene) : Q :=
  fold_left (fun sum scene => (sum + duration scene)%Q) scenes 0%Q.

(** [JSON.parse(JSON.stringify(obj))]: a structural copy.  Values are
    immutable here, so the copy is the value. *)
Definition deepClone {A} (obj : A) : A := obj.

End Utils.

(** ** validation.js *)

Module Validation.
Import Utils.

Inductive ErrorType := ERROR | WARNING.

(** A diagnostic object.  [fixable] is [false] where the source leaves
    the property out. *)
Record Diagnostic := mkDiagnostic {
  type : ErrorType;
  sceneId : option Z;
  field : string;
  message : string;
  suggestion : string;
  fixable : bool
}.

Definition dquote : string := String "034"%char EmptyString.

(** [!s?.trim()] on an optional string. *)
Definition blank (s : option string) : bool :=
  match s with
  | None => true
  | Some s => negb (JS.truthy (JS.trim s))
  end.

Definition scene_label (scene : Scene) : string :=
  ("Scene " ++ JS.Z_toString (scene_id scene))%string.

Definition rule1 (scene : Scene) : list Diagnostic :=
  if Qeq_bool (duration scene) 0 || Qle_bool (duration scene) 0 then
    [ {| type := ERROR; sceneId := Some (scene_id scene); field := "duration";
         message := (scene_label scene ++ ": Duration must be a positive number")%string;
         suggestion := "Set a duration value greater than 0 seconds";
         fixable := false |} ]
  else [].

Definition rule6 (scene : Scene) : list Diagnostic :=
  if (String.eqb (scene_type scene) "text" || String.eqb (scene_type scene) "cta")
       && blank (text_content scene) then
    [ {| type := ERROR; sceneId := Some (scene_id scene); field := "text_content";
         message := (scene_label scene ++ ": Text/CTA scenes require text content")%string;
         suggestion := ("Add text in the " ++ dquote ++ "Text Content" ++ dquote
                          ++ " field or change scene type")%string;
         fixable := false |} ]
  else [].

Definition noPromptNeeded : list string := ["text"; "cta"; "transition"]%string.

Definition rule7 (scene : Scene) : list Diagnostic :=
  if negb (JS.includes noPromptNeeded (scene_type scene)) && blank (prompt scene) then
    [ {| type := WARNING; sceneId := Some (scene_id scene); field := "prompt";
         message := (scene_label scene ++ ": Missing prompt for visual scene")%string;
         suggestion := "Add an image generation prompt describing the visual";
         fixable := false |} ]
  else [].

(** Rule 8: [scene.visual_fx && !ALLOWED_VFX.includes(scene.visual_fx)]. *)
Definition rule8 (scene : Scene) : list Diagnostic :=
  match visual_fx scene with
  | Some fx =>
      if JS.truthy fx && negb (JS.includes ALLOWED_VFX fx) then
        [ {| type := ERROR; sceneId := Some (scene_id scene); field := "visual_fx";
             message := (scene_label scene ++ ": Invalid visual effect "
                           ++ dquote ++ fx ++ dquote)%string;
             suggestion := ("Use one of: " ++ JS.join ", " ALLOWED_VFX)%string;
             fixable := true |} ]
      else []
  | None => []
  end.

Definition validateScene (scene : Scene) : list Diagnostic :=
  rule1 scene ++ rule6 scene ++ rule7 scene ++ rule8 scene.

(** [sceneIds.sort((a, b) => a - b)]. *)
Fixpoint insert_sorted (x : Z) (l : list Z) : list Z :=
  match l with
  | [] => [x]
  | y :: l' => if x <=? y then x :: l else y :: insert_sorted x l'
  end.

Definition sort_numeric (l : list Z) : list Z := foldr insert_sorted [] l.

(** [new Set(ids).size]. *)
Definition Set_size (ids : list Z) : nat := length (remove_dups ids).

(** Rule 4, with the loop variable [cumulative] made explicit. *)
Fixpoint rule4_from (cumulative : Q) (scenes : list Scene) : list Diagnostic :=
  match scenes with
  | [] => []
  | scene :: rest =>
      let expectedTimestamp := formatTimestamp cumulative in
      (if String.eqb (timestamp scene) expectedTimestamp then []
       else
         [ {| type := WARNING; sceneId := Some (scene_id scene); field := "timestamp";
              message := (scene_label scene ++ ": Timestamp mismatch (expected "
                            ++ expectedTimestamp ++ ", got " ++ timestamp scene ++ ")")%string;
              suggestion := "Timestamps auto-recalculate on save";
              fixable := false |} ])
        ++ rule4_from (cumulative + duration scene)%Q rest
  end.

(** Rule 5: total duration against the project duration. *)
Definition rule5 (scenes : list Scene) (projectDuration : option Q) : list Diagnostic :=
  match projectDuration with
  | Some projectDuration =>
      if JS.gtb projectDuration 0 then
        let totalDuration := getTotalDuration scenes in
        if negb (Qeq_bool totalDuration projectDuration) then
          let diff := (projectDuration - totalDuration)%Q in
          let action :=
            if JS.gtb diff 0 then ("add " ++ JS.Number_toString diff ++ "s")%string
            else ("remove " ++ JS.Number_toString (JS.Math_abs diff) ++ "s")%string in
          [ {| type := WARNING; sceneId := None; field := "duration";
               message := ("Total duration (" ++ JS.Number_toString totalDuration
                             ++ "s) doesn't match project duration ("
                             ++ JS.Number_toString projectDuration ++ "s)")%string;
               suggestion := ("Adjust scene durations to " ++ action ++ " total")%string;
               fixable := true |} ]
        else []
      else []
  | None => []
  end.

Definition rule2_3 (scenes : list Scene) : list Diagnostic :=
  let sceneIds := map scene_id scenes in
  let expectedIds := imap (fun i _ => Z.of_nat i + 1) scenes in
  let hasDuplicates := negb (length sceneIds =? Set_size sceneIds)%nat in
  let isSequential := bool_decide (sort_numeric sceneIds = expectedIds) in
  (if hasDuplicates then
     [ {| type := ERROR; sceneId := None; field := "scene_id";
          message := "Duplicate scene IDs detected";
          suggestion := "Delete duplicate scenes or renumber them manually";
          fixable := false |} ]
   else [])
  ++
  (if negb isSequential then
     [ {| type := ERROR; sceneId := None; field := "scene_id";
          message := "Scene IDs are not sequential (expected 1, 2, 3...)";
          suggestion := "Reorder or renumber scenes to be sequential starting from 1";
          fixable := false |} ]
   else []).

Definition validateProject (scenes : list Scene) (projectDuration : option Q)
  : list Diagnostic :=
  match scenes with
  | [] => []
  | _ =>
      concat (map validateScene scenes)
        ++ rule2_3 scenes
        ++ rule4_from 0%Q scenes
        ++ rule5 scenes projectDuration
  end.

Definition hasBlockingErrors (errors : list Diagnostic) : bool :=
  existsb (fun e => match type e with ERROR => true | WARNING => false end) errors.

End Validation.

(** ** state.js *)

Module State.
Import Utils.

Definition MAX_HISTORY : Z := 20.

(** A project record, as far as the store and the editor read it. *)
Record Project := mkProject {
  project_id : string;
  project_duration : Q
}.

(** [this.store].  The slices [projects], [syncStatus], [lastSyncedAt]
    and [validationErrors] are written by their own setters only and
    never read by the code below; they are left out, as are the listener
    table and the persisted copies, which the store never reads back. *)
Record Store := mkStore {
  currentProject : option Project;
  scenes : list Scene;
  selectedScene : option Scene;
  history : list (list Scene);
  historyIndex : Z
}.

(** The store built by [constructor()]. *)
Definition constructor : Store :=
  {| currentProject := None; scenes := []; selectedScene := None;
     history := []; historyIndex := -1 |}.

(** The [updates] argument of [set]: each key may be present or not. *)
Record Updates := mkUpdates {
  upd_currentProject : option (option Project);
  upd_scenes : option (list Scene);
  upd_selectedScene : option (option Scene);
  upd_history : option (list (list Scene));
  upd_historyIndex : option Z;
  upd_skipTimestampCalc : bool
}.

(** [{ scenes }] and [{ scenes, _skipTimestampCalc }]. *)
Definition scenes_update (scenes : list Scene) (skipTimestampCalc : bool) : Updates :=
  {| upd_currentProject := None; upd_scenes := Some scenes; upd_selectedScene := None;
     upd_history := None; upd_historyIndex := None;
     upd_skipTimestampCalc := skipTimestampCalc |}.

(** [Object.assign(this.store, updates)]. *)
Definition assign (st : Store) (updates : Updates) : Store :=
  {| currentProject := default (currentProject st) (upd_currentProject updates);
     scenes := default (scenes st) (upd_scenes updates);
     selectedScene := default (selectedScene st) (upd_selectedScene updates);
     history := default (history st) (upd_history updates);
     historyIndex := default (historyIndex st) (upd_historyIndex updates) |}.

Definition with_scenes (st : Store) (scenes' : list Scene) : Store :=
  {| currentProject := currentProject st; scenes := scenes';
     selectedScene := selectedScene st;
     history := history st; historyIndex := historyIndex st |}.

Definition with_history (st : Store) (history' : list (list Scene)) (historyIndex' : Z)
  : Store :=
  {| currentProject := currentProject st; scenes := scenes st;
     selectedScene := selectedScene st;
     history := history'; historyIndex := historyIndex' |}.

(** [_pushHistory(scenes)]. *)
Definition _pushHistory (snapshot : list Scene) (st : Store) : Store :=
  let truncated :=
    if historyIndex st <? Z.of_nat (length (history st)) - 1
    then JS.slice0 (history st) (historyIndex st + 1)
    else history st in
  let pushed := JS.push truncated (deepClone snapshot) in
  if Z.of_nat (length pushed) >? MAX_HISTORY
  then with_history st (JS.shift pushed) (historyIndex st)
  else with_history st pushed (historyIndex st + 1).

(** [set(updates, skipHistory)].  An array is truthy, so
    [updates.scenes] holds exactly when the key is present. *)
Definition set (updates : Updates) (skipHistory : bool) (st : Store) : Store :=
  let prevState := deepClone st in
  let st1 := assign st updates in
  let st2 :=
    if bool_decide (is_Some (upd_scenes updates)) && negb (upd_skipTimestampCalc updates)
    then with_scenes st1 (calculateTimestamps (scenes st1))
    else st1 in
  if negb skipHistory && bool_decide (is_Some (upd_scenes updates))
  then _pushHistory (scenes prevState) st2
  else st2.

(** What a method call leaves behind: the value it returns with the
    store, or an exception with the store as it was when it was thrown. *)
Inductive JsValue := undefined | boolean (b : bool).

Inductive Completion :=
| Normal (value : JsValue) (st : Store)
| Throw (st : Store).

Definition store_of (c : Completion) : Store :=
  match c with Normal _ st => st | Throw st => st end.

(** The tail shared by [undo], [redo], [jumpToHistory] and
    [deleteHistoryAt]: load the snapshot under the cursor.
    [deepClone(undefined)] throws ([JSON.parse] of ["undefined"]). *)
Definition load_current (st : Store) : Completion :=
  match JS.index (history st) (historyIndex st) with
  | Some snapshot =>
      let scenes := deepClone snapshot in
      Normal (boolean true) (set (scenes_update scenes false) true st)
  | None => Throw st
  end.

Definition undo (st : Store) : Completion :=
  if historyIndex st >? 0
  then load_current (with_history st (history st) (historyIndex st - 1))
  else Normal (boolean false) st.

Definition redo (st : Store) : Completion :=
  if historyIndex st <? Z.of_nat (length (history st)) - 1
  then load_current (with_history st (history st) (historyIndex st + 1))
  else Normal (boolean false) st.

Definition canUndo (st : Store) : bool := historyIndex st >? 0.

Definition canRedo (st : Store) : bool :=
  historyIndex st <? Z.of_nat (length (history st)) - 1.

Definition jumpToHistory (index : Z) (st : Store) : Completion :=
  if (index >=? 0) && (index <? Z.of_nat (length (history st)))
  then load_current (with_history st (history st) index)
  else Normal (boolean false) st.

Definition deleteHistoryAt (index : Z) (st : Store) : Completion :=
  if (index <=? 0) || (index >=? Z.of_nat (length (history st)))
  then Normal (boolean false) st
  else
    let history' := delete (Z.to_nat index) (history st) in
    let historyIndex' :=
      if historyIndex st >=? index then Z.max 0 (historyIndex st - 1)
      else historyIndex st in
    load_current (with_history st history' historyIndex').

Definition clearHistory (st : Store) : Completion :=
  let currentScenes := deepClone (scenes st) in
  Normal undefined (with_history st [currentScenes] 0).

Definition selectProject (project : option Project) (st : Store) : Completion :=
  Normal undefined
    (set {| upd_currentProject := Some project; upd_scenes := Some [];
            upd_selectedScene := Some None; upd_history := Some [];
            upd_historyIndex := Some (-1); upd_skipTimestampCalc := false |}
         true st).

(** [setScenes(scenes, skipLocalStorage)]; [savedScenes] is what
    [Storage.load] hands back when it is consulted ([None] otherwise). *)
Definition setScenes (scenes : list Scene) (savedScenes : option (list Scene))
    (st : Store) : Completion :=
  let scenesToUse :=
    match savedScenes with
    | Some (s :: saved) => s :: saved
    | _ => scenes
    end in
  let calculated := calculateTimestamps scenesToUse in
  let st1 := with_history st [deepClone calculated] 0 in
  Normal undefined (set (scenes_update calculated true) true st1).

(** The [updates] argument of [updateScene]: the fields to overwrite. *)
Record ScenePatch := mkPatch {
  patch_scene_id : option Z;
  patch_scene_type : option string;
  patch_duration : option Q;
  patch_timestamp : option string;
  patch_prompt : option string;
  patch_visual_fx : option string;
  patch_text_content : option string
}.

Definition empty_patch : ScenePatch :=
  {| patch_scene_id := None; patch_scene_type := None; patch_duration := None;
     patch_timestamp := None; patch_prompt := None; patch_visual_fx := None;
     patch_text_content := None |}.

Definition over {A} (old : option A) (new : option A) : option A :=
  match new with Some v => Some v | None => old end.

(** [{ ...s, ...updates }]. *)
Definition spread (s : Scene) (updates : ScenePatch) : Scene :=
  {| scene_id := default (scene_id s) (patch_scene_id updates);
     scene_type := default (scene_type s) (patch_scene_type updates);
     duration := default (duration s) (patch_duration updates);
     timestamp := default (timestamp s) (patch_timestamp updates);
     prompt := over (prompt s) (patch_prompt updates);
     visual_fx := over (visual_fx s) (patch_visual_fx updates);
     text_content := over (text_content s) (patch_text_content updates) |}.

Definition updateScene (sceneId : Z) (updates : ScenePatch) (st : Store) : Completion :=
  let scenes' :=
    map (fun s => if scene_id s =? sceneId then spread s updates else s) (scenes st) in
  Normal undefined (set (scenes_update scenes' false) false st).

Definition addScene (scene : Scene) (st : Store) : Completion :=
  let scenes' := scenes st ++ [scene] in
  Normal undefined (set (scenes_update scenes' false) false st).

(** [{ ...s, scene_id: i + 1 }]. *)
Definition resequence (i : nat) (s : Scene) : Scene :=
  {| scene_id := Z.of_nat i + 1; scene_type := scene_type s;
     duration := duration s; timestamp := timestamp s;
     prompt := prompt s; visual_fx := visual_fx s;
     text_content := text_content s |}.

Definition removeScene (sceneId : Z) (st : Store) : Completion :=
  let scenes' :=
    imap resequence (filter (fun s => scene_id s ≠ sceneId) (scenes st)) in
  let st1 := set (scenes_update scenes' false) false st in
  let deselect :=
    match selectedScene st1 with
    | Some sel => scene_id sel =? sceneId
    | None => false
    end in
  if deselect
  then Normal undefined
         (set {| upd_currentProject := None; upd_scenes := None;
                 upd_selectedScene := Some None; upd_history := None;
                 upd_historyIndex := None; upd_skipTimestampCalc := false |}
              true st1)
  else Normal undefined st1.

Definition selectScene (scene : option Scene) (st : Store) : Completion :=
  Normal undefined
    (set {| upd_currentProject := None; upd_scenes := None;
            upd_selectedScene := Some scene; upd_history := None;
            upd_historyIndex := None; upd_skipTimestampCalc := false |}
         true st).

(** Method calls on the store, and the trace a sequence of calls leaves:
    each call with its completion, the store threaded through. *)
Inductive Call :=
| CallUpdateScene (sceneId : Z) (updates : ScenePatch)
| CallAddScene (scene : Scene)
| CallRemoveScene (sceneId : Z)
| CallUndo
| CallRedo.

Definition invoke (c : Call) (st : Store) : Completion :=
  match c with
  | CallUpdateScene sceneId updates => updateScene sceneId updates st
  | CallAddScene scene => addScene scene st
  | CallRemoveScene sceneId => removeScene sceneId st
  | CallUndo => undo st
  | CallRedo => redo st
  end.

Fixpoint run (calls : list Call) (st : Store) : list (Call * Completion) :=
  match calls with
  | [] => []
  | c :: calls' =>
      let r := invoke c st in
      (c, r) :: run calls' (store_of r)
  end.

(** The calls the specification names as edits. *)
Definition is_edit (c : Call) : bool :=
  match c with
  | CallUpdateScene _ _ | CallAddScene _ | CallRemoveScene _ => true
  | CallUndo | CallRedo => false
  end.

(** The methods through which the application drives the store, and the
    store they lead to from the constructor's.  ([reorderScenes] commits
    through the same [set] call as the other edits and is not listed.) *)
Inductive Method :=
| DoSelectProject (project : option Project)
| DoSetScenes (scenes : list Scene) (savedScenes : option (list Scene))
| DoSelectScene (scene : option Scene)
| DoJumpToHistory (index : Z)
| DoDeleteHistoryAt (index : Z)
| DoClearHistory
| DoCall (c : Call).

Definition perform (m : Method) (st : Store) : Completion :=
  match m with
  | DoSelectProject project => selectProject project st
  | DoSetScenes scenes savedScenes => setScenes scenes savedScenes st
  | DoSelectScene scene => selectScene scene st
  | DoJumpToHistory index => jumpToHistory index st
  | DoDeleteHistoryAt index => deleteHistoryAt index st
  | DoClearHistory => clearHistory st
  | DoCall c => invoke c st
  end.

(** The store after the methods [ms], performed in order on a new store. *)
Definition reach (ms : list Method) : Store :=
  fold_left (fun st m => store_of (perform m st)) ms constructor.

End State.

(** ** editor.js: the auto-fix handler *)

Module Editor.
Import Utils State.

Definition duration_patch (d : Q) : ScenePatch :=
  {| patch_scene_id := None; patch_scene_type := None; patch_duration := Some d;
     patch_timestamp := None; patch_prompt := None; patch_visual_fx := None;
     patch_text_content := None |}.

Definition visual_fx_patch (fx : string) : ScenePatch :=
  {| patch_scene_id := None; patch_scene_type := None; patch_duration := None;
     patch_timestamp := None; patch_prompt := None; patch_visual_fx := Some fx;
     patch_text_content := None |}.

(** [handleFix(fixType, sceneId)], acting on the store singleton. *)
Definition handleFix (fixType : string) (sceneId : option Z) (st : Store) : Store :=
  match sceneId with
  | None =>
      if String.eqb fixType "duration" then
        match last (scenes st), currentProject st with
        | Some lastScene, Some project =>
            let totalDuration := getTotalDuration (scenes st) in
            let projectDuration := project_duration project in
            let diff := (projectDuration - totalDuration)%Q in
            if Qeq_bool diff 0 then st
            else
              let newDuration := JS.Math_max 1 (duration lastScene + diff)%Q in
              store_of (updateScene (scene_id lastScene) (duration_patch newDuration) st)
        | _, _ => st
        end
      else st
  | Some sceneId =>
      if String.eqb fixType "visual_fx"
      then store_of (updateScene sceneId (visual_fx_patch "static") st)
      else st
  end.

End Editor.

(** ** canvas-preview.js: playback clock and scene lookup *)

Module Preview.

(** The arithmetic the engine does on times and durations.  The code is
    embedded once, over this interface, and read at two instances: exact
    rationals, and binary64, the numbers the JavaScript engine has. *)
Class Arith (N : Type) := {
  zero : N;
  thousand : N;
  add : N -> N -> N;
  sub : N -> N -> N;
  div : N -> N -> N;
  geb : N -> N -> bool;
  ltb : N -> N -> bool;
  Math_max : N -> N -> N;
  truthy : N -> bool
}.

#[export] Instance exact : Arith Q := {|
  zero := 0%Q;
  thousand := 1000%Q;
  add := Qplus;
  sub := Qminus;
  div := Qdiv;
  geb := JS.geb;
  ltb := JS.ltb;
  Math_max := JS.Math_max;
  truthy := fun x => negb (Qeq_bool x 0)
|}.

(** In binary64 every comparison with NaN is false, [Math.max] is NaN as
    soon as one argument is, and 0 and NaN are the falsy numbers. *)
#[export] Instance binary64 : Arith float := {|
  zero := 0%float;
  thousand := 1000%float;
  add := PrimFloat.add;
  sub := PrimFloat.sub;
  div := PrimFloat.div;
  geb := fun a b => PrimFloat.leb b a;
  ltb := PrimFloat.ltb;
  Math_max := fun a b =>
    if (PrimFloat.ltb a b || negb (PrimFloat.eqb b b))%bool then b else a;
  truthy := fun x => (negb (PrimFloat.eqb x 0) && PrimFloat.eqb x x)%bool
|}.

(** A scene as the preview engine reads it. *)
Record Scene (N : Type) := mkScene {
  id : Z;
  type : string;
  duration : N;
  visual_fx : option string
}.
Arguments mkScene {N}.
Arguments id {N}.
Arguments type {N}.
Arguments duration {N}.
Arguments visual_fx {N}.

(** The engine's playback fields.  [externalTimeSource] records whether
    a time source is installed; the time it reports is supplied with
    each tick.  Animation-frame handles are positive integers, so a stored
    handle is always truthy. *)
Record CanvasPreview (N : Type) := mkPreview {
  scenes : list (Scene N);
  currentTime : N;
  isPlaying : bool;
  lastFrameTime : N;
  animationId : option positive;
  overrideDuration : option N;
  externalTimeSource : bool
}.
Arguments mkPreview {N}.
Arguments scenes {N}.
Arguments currentTime {N}.
Arguments isPlaying {N}.
Arguments lastFrameTime {N}.
Arguments animationId {N}.
Arguments overrideDuration {N}.
Arguments externalTimeSource {N}.

(** What the engine does to the outside, in order. *)
Inductive Effect (N : Type) :=
| CancelAnimationFrame (handle : positive)
| RequestAnimationFrame (handle : positive)
| OnTimeUpdate (time : N)
| OnPlaybackEnd
| Render (time : N).
Arguments CancelAnimationFrame {N}.
Arguments RequestAnimationFrame {N}.
Arguments OnTimeUpdate {N}.
Arguments OnPlaybackEnd {N}.
Arguments Render {N}.

(** The result object of [getCurrentScene]. *)
Record Current (N : Type) := mkCurrent {
  scene : Scene N;
  localTime : N;
  progress : N
}.
Arguments mkCurrent {N}.
Arguments scene {N}.
Arguments localTime {N}.
Arguments progress {N}.

(** What the browser supplies to one tick: [performance.now()], the
    value the external time source reports, and the handle
    [requestAnimationFrame] returns. *)
Record Frame (N : Type) := mkFrame {
  now : N;
  sourceTime : N;
  handle : positive
}.
Arguments mkFrame {N}.
Arguments now {N}.
Arguments sourceTime {N}.
Arguments handle {N}.

Section Engine.
Context {N : Type} `{Arith N}.

(** The loop of [getCurrentScene], with [accumulated] made explicit. *)
Fixpoint getCurrentScene_from (accumulated currentTime : N) (scenes : list (Scene N))
  : option (Current N) :=
  match scenes with
  | [] => None
  | scene :: rest =>
      if geb currentTime accumulated
         && ltb currentTime (add accumulated (duration scene))
      then Some {| scene := scene;
                   localTime := sub currentTime accumulated;
                   progress := div (sub currentTime accumulated) (duration scene) |}
      else getCurrentScene_from (add accumulated (duration scene)) currentTime rest
  end.

Definition getCurrentScene (p : CanvasPreview N) : option (Current N) :=
  getCurrentScene_from zero (currentTime p) (scenes p).

(** [x || 0] on an optional number. *)
Definition or_zero (x : option N) : N :=
  match x with
  | Some x => if truthy x then x else zero
  | None => zero
  end.

(** [Math.max(scenesDuration, this.overrideDuration || 0)]. *)
Definition getTotalDuration (p : CanvasPreview N) : N :=
  let scenesDuration :=
    fold_left (fun sum scene => add sum (duration scene)) (scenes p) zero in
  Math_max scenesDuration (or_zero (overrideDuration p)).

Definition with_clock (p : CanvasPreview N) (currentTime' lastFrameTime' : N)
  : CanvasPreview N :=
  {| scenes := scenes p; currentTime := currentTime'; isPlaying := isPlaying p;
     lastFrameTime := lastFrameTime'; animationId := animationId p;
     overrideDuration := overrideDuration p;
     externalTimeSource := externalTimeSource p |}.

Definition with_playback (p : CanvasPreview N) (isPlaying' : bool)
    (animationId' : option positive) : CanvasPreview N :=
  {| scenes := scenes p; currentTime := currentTime p; isPlaying := isPlaying';
     lastFrameTime := lastFrameTime p; animationId := animationId';
     overrideDuration := overrideDuration p;
     externalTimeSource := externalTimeSource p |}.

(** [pause()]. *)
Definition pause (p : CanvasPreview N) : CanvasPreview N * list (Effect N) :=
  match animationId p with
  | Some handle => (with_playback p false None, [CancelAnimationFrame handle])
  | None => (with_playback p false None, [])
  end.

(** [tick()]. *)
Definition tick (f : Frame N) (p : CanvasPreview N) : CanvasPreview N * list (Effect N) :=
  if negb (isPlaying p) then (p, [])
  else
    let p1 :=
      if externalTimeSource p then with_clock p (sourceTime f) (lastFrameTime p)
      else
        let delta := div (sub (now f) (lastFrameTime p)) thousand in
        with_clock p (add (currentTime p) delta) (now f) in
    let totalDuration := getTotalDuration p1 in
    if geb (currentTime p1) totalDuration then
      let p2 := with_clock p1 zero (lastFrameTime p1) in
      let '(p3, cancelled) := pause p2 in
      (p3, cancelled ++ [OnPlaybackEnd; Render (currentTime p3)])
    else
      (with_playback p1 (isPlaying p1) (Some (handle f)),
       [Render (currentTime p1); OnTimeUpdate (currentTime p1);
        RequestAnimationFrame (handle f)]).


End Engine.

End Preview.

(** ** canvas-preview.js: effect transforms, in binary64 *)

Module Effects.
Local Open Scope float_scope.

(** [easeInOut(t)]. *)
Definition easeInOut (t : float) : float :=
  if t <? 0.5 then 2 * t * t else -1 + (4 - 2 * t) * t.

(** Calls made on the 2D context. *)
Inductive CanvasOp :=
| translate (x y : float)
| scale (x y : float).

(** The [scale] local of [applyZoomIn]. *)
Definition zoomInScale (progress : float) : float :=
  let startScale := 1.0 in
  let endScale := 1.2 in
  startScale + (endScale - startScale) * easeInOut progress.

(** [applyZoomIn(progress, ...)] on a canvas of the given size. *)
Definition applyZoomIn (width height progress : float) : list CanvasOp :=
  let scale' := zoomInScale progress in
  let centerX := width / 2 in
  let centerY := height / 2 in
  [translate centerX centerY; scale scale' scale'; translate (- centerX) (- centerY)].

(** The [scale] local of [applyZoomOut]. *)
Definition zoomOutScale (progress : float) : float :=
  let startScale := 1.2 in
  let endScale := 1.0 in
  startScale + (endScale - startScale) * easeInOut progress.

End Effects.

(** * Properties *)

(** ** utils.js on binary64 numbers *)

Module Binary64.


(** The largest integer not above [n * 2 ^ e]. *)
Definition floor_dyadic (n e : Z) : Z :=
  if e <? 0 then n / 2 ^ (- e) else n * 2 ^ e.

(** The number that is the integer [n], for a magnitude up to 2^53. *)
Definition of_Z (n : Z) : float :=
  if n <? 0 then (- of_uint63 (Uint63.of_Z (- n)))%float
  else of_uint63 (Uint63.of_Z n).

(** [Math.floor(x)].  A finite number with a negative exponent is below
    2^52 in magnitude; any other finite number is an integer already. *)
Definition Math_floor (x : float) : float :=
  match Prim2SF x with
  | S754_finite s m e =>
      if e <? 0 then of_Z (floor_dyadic (if s then Z.neg m else Z.pos m) e) else x
  | _ => x
  end.

(** [m * 2 ^ e] with the trailing zero bits of [m] moved into [e]. *)
Fixpoint odd_part (m : positive) (e : Z) : positive * Z :=
  match m with
  | xO m' => odd_part m' (e + 1)
  | _ => (m, e)
  end.

(** [a % b]: the remainder of the division truncated towards zero.  It
    has the sign of the dividend and is exact. *)
Definition rem (a b : float) : float :=
  match Prim2SF a, Prim2SF b with
  | S754_nan, _ | _, S754_nan | S754_infinity _, _ | _, S754_zero _ => nan
  | S754_zero _, _ | _, S754_infinity _ => a
  | S754_finite sa ma ea, S754_finite _ mb eb =>
      let e := Z.min ea eb in
      let A := Z.pos ma * 2 ^ (ea - e) in
      let B := Z.pos mb * 2 ^ (eb - e) in
      match A mod B with
      | Z.pos r => let '(r', e') := odd_part r e in SF2Prim (S754_finite sa r' e')
      | _ => if sa then neg_zero else zero
      end
  end.

Definition pow10 (n : Z) : Q :=
  if n <? 0 then (1 / inject_Z (10 ^ (- n)))%Q else inject_Z (10 ^ n).

Definition pow2 (n : Z) : Q :=
  if n <? 0 then (1 / inject_Z (2 ^ (- n)))%Q else inject_Z (2 ^ n).

(** The least [n], from [n] on, with [v < 10 ^ n]. *)
Fixpoint decimal_exponent (fuel : nat) (v : Q) (n : Z) : Z :=
  match fuel with
  | O => n
  | S fuel' => if JS.ltb v (pow10 n) then n else decimal_exponent fuel' v (n + 1)
  end.

(** The shortest decimal that reads back as the number [v]: the least
    number of digits [k] for which some [s * 10 ^ (n - k)] lies in the
    interval [lo .. hi] of the reals that round to [v], and for that [k]
    the [s] closest to [v], the even one on a tie. *)
Fixpoint shortest (fuel : nat) (k : Z) (v lo hi : Q) (closed : bool) (n : Z) : Z * Z :=
  let scale := pow10 (n - k) in
  let s_lo := Qfloor (v / scale)%Q in
  let c_lo := (inject_Z s_lo * scale)%Q in
  let c_hi := (inject_Z (s_lo + 1) * scale)%Q in
  let inside q := if closed then Qle_bool lo q && Qle_bool q hi
                  else JS.ltb lo q && JS.ltb q hi in
  let below := inside c_lo in
  let above := inside c_hi in
  match fuel with
  | O => (s_lo, n - k)
  | S fuel' =>
      if below && above then
        if JS.ltb (v - c_lo)%Q (c_hi - v)%Q then (s_lo, n - k)
        else if JS.ltb (c_hi - v)%Q (v - c_lo)%Q then (s_lo + 1, n - k)
        else if Z.even s_lo then (s_lo, n - k) else (s_lo + 1, n - k)
      else if below then (s_lo, n - k)
      else if above then (s_lo + 1, n - k)
      else shortest fuel' (k + 1) v lo hi closed n
  end.

Fixpoint strip_zeros (fuel : nat) (s p : Z) : Z * Z :=
  match fuel with
  | O => (s, p)
  | S fuel' =>
      if (s mod 10 =? 0) && negb (s =? 0) then strip_zeros fuel' (s / 10) (p + 1)
      else (s, p)
  end.

Definition zeros (n : Z) : string := string_of_list_ascii (replicate (Z.to_nat n) "0"%char).

Definition substring_from (n : nat) (s : string) : string :=
  String.substring n (String.length s - n) s.

(** [Number.prototype.toString()] on the positive finite number
    [m * 2 ^ e]: the digits of the shortest decimal, laid out as the
    language prescribes (plain digits up to 21 places, a leading [0.] down
    to seven, exponent notation otherwise). *)
Definition positive_toString (m : positive) (e : Z) : string :=
  let v := (inject_Z (Z.pos m) * pow2 e)%Q in
  let up := pow2 (e - 1) in
  let down :=
    if (Z.pos m =? 2 ^ 52) && (-1074 <? e) then pow2 (e - 2) else pow2 (e - 1) in
  let estimate := (Z.log2 (Z.pos m) + 1 + e) * 30103 / 100000 in
  let n0 := decimal_exponent 6 v (estimate - 2) in
  let '(s0, p0) := shortest 17 1 v (v - down)%Q (v + up)%Q (Z.even (Z.pos m)) n0 in
  let '(s, p) := strip_zeros 20 s0 p0 in
  let digits := JS.Z_toString s in
  let k := Z.of_nat (String.length digits) in
  let n := k + p in
  if (k <=? n) && (n <=? 21) then (digits ++ zeros (n - k))%string
  else if (0 <? n) && (n <=? 21) then
    (String.substring 0 (Z.to_nat n) digits ++ "."
       ++ substring_from (Z.to_nat n) digits)%string
  else if (-6 <? n) && (n <=? 0) then ("0." ++ zeros (- n) ++ digits)%string
  else
    let mark := if n - 1 <? 0 then "-"%string else "+"%string in
    let exponent := (mark ++ JS.Z_toString (Z.abs (n - 1)))%string in
    if k =? 1 then (digits ++ "e" ++ exponent)%string
    else (String.substring 0 1 digits ++ "." ++ substring_from 1 digits
            ++ "e" ++ exponent)%string.

(** [x.toString()] and the interpolation of [x] in a template. *)
Definition Number_toString (x : float) : string :=
  match Prim2SF x with
  | S754_nan => "NaN"
  | S754_zero _ => "0"
  | S754_infinity s => if s then "-Infinity" else "Infinity"
  | S754_finite s m e =>
      ((if s then "-"%string else EmptyString) ++ positive_toString m e)%string
  end.

(** A scene record, its duration a binary64 number. *)
Record Scene := mkScene {
  scene_id : Z;
  scene_type : string;
  duration : float;
  timestamp : string;
  prompt : option string;
  visual_fx : option string;
  text_content : option string
}.

(** [formatTimestamp(seconds)]. *)
Definition formatTimestamp (seconds : float) : string :=
  let totalSeconds := Math_floor seconds in
  let m := Math_floor (totalSeconds / 60)%float in
  let s := rem totalSeconds 60%float in
  (Number_toString m ++ ":" ++ JS.padStart 2 "0" (Number_toString s))%string.

(** [{ ...scene, timestamp }]. *)
Definition with_timestamp (scene : Scene) (ts : string) : Scene :=
  {| scene_id := scene_id scene; scene_type := scene_type scene;
     duration := duration scene; timestamp := ts;
     prompt := prompt scene; visual_fx := visual_fx scene;
     text_content := text_content scene |}.

(** The [map] callback of [calculateTimestamps] with its captured
    variable [cumulative] made explicit. *)
Fixpoint calculateTimestamps_from (cumulative : float) (scenes : list Scene)
  : list Scene :=
  match scenes with
  | [] => []
  | scene :: rest =>
      let timestamp := formatTimestamp cumulative in
      with_timestamp scene timestamp
        :: calculateTimestamps_from (cumulative + duration scene)%float rest
  end.

Definition calculateTimestamps (scenes : list Scene) : list Scene :=
  calculateTimestamps_from 0%float scenes.

End Binary64.

(** ** The timestamp calculator *)

Module TimestampProofs.
Import Utils.

(** Sum of a list of numbers the way the sources accumulate it: from 0,
    left to right. *)
Definition sum_from (start : Q) (ds : list Q) : Q := fold_left Qplus ds start.

(** Cumulative duration of the scenes before position [i]. *)
Definition prior_duration (i : nat) (scenes : list Scene) : Q :=
  sum_from 0%Q (map duration (take i scenes)).

(** The format the specification describes, written from its words:
    minutes, a colon, and the seconds as exactly two decimal digits,
    both taken from the floor of the number of seconds. *)
Definition digit (n : Z) : ascii := ascii_of_nat (48 + Z.to_nat n).

Definition two_digits (s : Z) : string :=
  String (digit (s / 10)) (String (digit (s mod 10)) EmptyString).

Definition spec_timestamp (seconds : Q) : string :=
  (JS.Z_toString (Qfloor seconds / 60) ++ ":" ++ two_digits (Qfloor seconds mod 60))%string.

Definition nonneg_duration (s : Scene) : Prop := (0 <= duration s)%Q.

Lemma calculateTimestamps_from_length c scenes :
  length (calculateTimestamps_from c scenes) = length scenes.
Proof.
  revert c. induction scenes as [|s rest IH]; intros c; simpl; [reflexivity|].
  now rewrite IH.
Qed.

Lemma calculateTimestamps_from_lookup scenes : forall c i s,
  scenes !! i = Some s ->
  calculateTimestamps_from c scenes !! i
  = Some (with_timestamp s (formatTimestamp (sum_from c (map duration (take i scenes))))).
Proof.
  induction scenes as [|s0 rest IH]; intros c i s Hi.
  - destruct i; discriminate.
  - destruct i as [|i]; simpl in *.
    + now inversion Hi.
    + apply (IH (c + duration s0)%Q i s Hi).
Qed.

Lemma with_timestamp_duration s ts : duration (with_timestamp s ts) = duration s.
Proof. reflexivity. Qed.

Lemma with_timestamp_twice s ts ts' :
  with_timestamp (with_timestamp s ts) ts' = with_timestamp s ts'.
Proof. reflexivity. Qed.

Lemma calculateTimestamps_from_idem scenes : forall c,
  calculateTimestamps_from c (calculateTimestamps_from c scenes)
  = calculateTimestamps_from c scenes.
Proof.
  induction scenes as [|s rest IH]; intros c; simpl; [reflexivity|].
  rewrite with_timestamp_twice. f_equal. apply IH.
Qed.

Lemma calculateTimestamps_idem scenes :
  calculateTimestamps (calculateTimestamps scenes) = calculateTimestamps scenes.
Proof. apply calculateTimestamps_from_idem. Qed.

Lemma sum_from_nonneg ds : forall c,
  (0 <= c)%Q -> Forall (fun d => (0 <= d)%Q) ds -> (0 <= sum_from c ds)%Q.
Proof.
  induction ds as [|d ds IH]; intros c Hc Hds; simpl; [exact Hc|].
  inversion Hds; subst. apply IH; [lra | assumption].
Qed.

Lemma prior_duration_nonneg i scenes :
  Forall nonneg_duration scenes -> (0 <= prior_duration i scenes)%Q.
Proof.
  intros H. apply sum_from_nonneg; [lra|].
  apply Forall_fmap. apply Forall_take. exact H.
Qed.

Lemma pad_two_digits (n : nat) :
  (n < 60)%nat ->
  JS.padStart 2 "0" (JS.Z_toString (Z.of_nat n)) = two_digits (Z.of_nat n).
Proof.
  intros H.
  do 60 (destruct n as [|n]; [vm_compute; reflexivity|]).
  lia.
Qed.

Lemma formatTimestamp_nonneg x :
  (0 <= x)%Q -> formatTimestamp x = spec_timestamp x.
Proof.
  intros Hx. unfold formatTimestamp, spec_timestamp.
  assert (Hf : 0 <= Qfloor x).
  { change 0 with (Qfloor 0). apply Qfloor_resp_le. exact Hx. }
  rewrite Z.rem_mod_nonneg by lia.
  assert (Hm : 0 <= Qfloor x mod 60 < 60) by (apply Z.mod_pos_bound; lia).
  rewrite <- (Z2Nat.id (Qfloor x mod 60)) by lia.
  rewrite pad_two_digits by lia.
  reflexivity.
Qed.

(** The calculator in exact arithmetic.  For every scene sequence it
    returns a sequence of the same scenes in which the timestamp at
    position [i] is the formatted cumulative duration of the scenes before
    [i]; for durations that are not negative that format is minutes,
    colon, two-digit seconds of the floor of the sum; and applying the
    calculator twice is the same as applying it once. *)
Lemma calculateTimestamps_exact (scenes : list Scene) :
  length (calculateTimestamps scenes) = length scenes
  /\ (forall i s, scenes !! i = Some s ->
        calculateTimestamps scenes !! i
        = Some (with_timestamp s (formatTimestamp (prior_duration i scenes))))
  /\ (Forall nonneg_duration scenes ->
      forall i s, scenes !! i = Some s ->
        timestamp <$> calculateTimestamps scenes !! i
        = Some (spec_timestamp (prior_duration i scenes))
        /\ (inject_Z (Qfloor (prior_duration i scenes)) <= prior_duration i scenes
            < inject_Z (Qfloor (prior_duration i scenes) + 1))%Q)
  /\ calculateTimestamps (calculateTimestamps scenes) = calculateTimestamps scenes.
Proof.
  split; [apply calculateTimestamps_from_length|].
  split; [intros i s Hi; now apply calculateTimestamps_from_lookup|].
  split; [|apply calculateTimestamps_idem].
  intros Hpos i s Hi. split.
  - unfold calculateTimestamps.
    rewrite (calculateTimestamps_from_lookup _ _ _ _ Hi). simpl.
    f_equal. apply formatTimestamp_nonneg. now apply prior_duration_nonneg.
  - split; [apply Qfloor_le | apply Qlt_floor].
Qed.

Definition sample (i : Z) (d : Q) (ts : string) : Scene :=
  {| scene_id := i; scene_type := "hook"; duration := d; timestamp := ts;
     prompt := Some "a street at night"%string; visual_fx := Some "zoom_in"%string;
     text_content := None |}.

(** Durations 58.5s, 4s and 3s, with stale timestamps. *)
Definition sample_scenes : list Scene :=
  [sample 1 (117 # 2) "9:99"; sample 2 4 "0:00"; sample 3 3 "0:01"].

Lemma sample_scenes_nonneg : Forall nonneg_duration sample_scenes.
Proof. repeat constructor; unfold nonneg_duration; simpl; lra. Qed.

Example calculateTimestamps_exact_sample :
  timestamp <$> calculateTimestamps sample_scenes !! 2%nat
  = Some (spec_timestamp (prior_duration 2 sample_scenes)).
Proof.
  exact (proj1 (proj1 (proj2 (proj2 (calculateTimestamps_exact sample_scenes)))
                  sample_scenes_nonneg 2%nat (sample 3 3 "0:01") eq_refl)).
Qed.

(** The floor, not the nearest second: 62.5s of prior duration reads 1:02. *)
Example sample_timestamps :
  map timestamp (calculateTimestamps sample_scenes) = ["0:00"; "0:58"; "1:02"]%string.
Proof. vm_compute. reflexivity. Qed.

End TimestampProofs.

(** ** Timestamps in binary64 *)

Module Binary64Proofs.
Import Binary64.

(** The running total the calculator holds on reaching position [i]: the
    durations before [i], added in order, each sum rounded. *)
Definition cumulative_from (start : float) (i : nat) (scenes : list Scene) : float :=
  fold_left PrimFloat.add (map duration (take i scenes)) start.

Definition cumulative (i : nat) (scenes : list Scene) : float :=
  cumulative_from 0%float i scenes.


















Definition sample (i : Z) (d : float) (ts : string) : Scene :=
  {| scene_id := i; scene_type := "hook"; duration := d; timestamp := ts;
     prompt := Some "a street at night"%string; visual_fx := Some "zoom_in"%string;
     text_content := None |}.

(** Durations 58.5s, 4s and 3s, with stale timestamps. *)
Definition sample_scenes : list Scene :=
  [sample 1 58.5 "9:99"; sample 2 4 "0:00"; sample 3 3 "0:01"].


(** The floor, not the nearest second: 62.5s of prior duration reads 1:02. *)
Example binary64_sample_timestamps :
  map timestamp (calculateTimestamps sample_scenes) = ["0:00"; "0:58"; "1:02"]%string.
Proof. vm_compute. reflexivity. Qed.



(** How numbers print. *)
Example Number_toString_samples :
  map Number_toString
    [(0.1 + 0.2)%float; 1e21%float; 123456789012345680000%float; 1e-7%float;
     (-2.5)%float; (0 / 0)%float; 5e-324%float]
  = ["0.30000000000000004"; "1e+21"; "123456789012345680000"; "1e-7";
     "-2.5"; "NaN"; "5e-324"]%string.
Proof. vm_compute. reflexivity. Qed.

(** Beyond the format's usual range: negative totals, totals that are
    not numbers. *)
Example formatTimestamp_samples :
  map formatTimestamp [(-61)%float; (-0.5)%float; (0 / 0)%float; infinity; 3599.999%float]
  = ["-2:-1"; "-1:-1"; "NaN:NaN"; "Infinity:NaN"; "59:59"]%string.
Proof. vm_compute. reflexivity. Qed.

End Binary64Proofs.

(** ** The validator *)

Module ValidationProofs.
Import Utils Validation.

(** The diagnostics about a scene's effect. *)
Definition visual_fx_diagnostics (ds : list Diagnostic) : list Diagnostic :=
  List.filter (fun d => String.eqb (field d) "visual_fx") ds.

(** The project-level duration diagnostics: field [duration] with no
    scene id, which is how the editor recognises them. *)
Definition duration_mismatches (ds : list Diagnostic) : list Diagnostic :=
  List.filter
    (fun d => String.eqb (field d) "duration"
              && match sceneId d with None => true | Some _ => false end) ds.

Lemma includes_In arr x : JS.includes arr x = true <-> In x arr.
Proof.
  unfold JS.includes. rewrite existsb_exists. split.
  - intros [y [Hy Heq]]. apply String.eqb_eq in Heq. now subst.
  - intros H. exists x. split; [exact H | apply String.eqb_refl].
Qed.

Lemma truthy_nonempty s : JS.truthy s = true <-> s <> EmptyString.
Proof. destruct s; simpl; split; congruence. Qed.

Lemma rule1_no_visual_fx s : visual_fx_diagnostics (rule1 s) = [].
Proof. unfold rule1. now destruct (_ || _). Qed.

Lemma rule6_no_visual_fx s : visual_fx_diagnostics (rule6 s) = [].
Proof. unfold rule6. now destruct (_ && _). Qed.

Lemma rule7_no_visual_fx s : visual_fx_diagnostics (rule7 s) = [].
Proof. unfold rule7. now destruct (_ && _). Qed.

Lemma visual_fx_diagnostics_validateScene s :
  visual_fx_diagnostics (validateScene s) = rule8 s.
Proof.
  unfold validateScene, visual_fx_diagnostics.
  rewrite !List.filter_app.
  fold (visual_fx_diagnostics (rule1 s)) (visual_fx_diagnostics (rule6 s))
       (visual_fx_diagnostics (rule7 s)).
  rewrite rule1_no_visual_fx, rule6_no_visual_fx, rule7_no_visual_fx. simpl.
  unfold rule8. destruct (visual_fx s) as [fx|]; [|reflexivity].
  now destruct (_ && _).
Qed.

(** C3, as the code has it.  The allowed list is the key list of the icon
    table: a scene whose effect is in that list gets no effect diagnostic,
    and a scene whose effect is a non-empty string outside it gets exactly
    one, of error severity, on field [visual_fx], flagged fixable. *)
Theorem validateScene_visual_fx (scene : Scene) (fx : string) :
  visual_fx scene = Some fx ->
  (In fx ALLOWED_VFX -> visual_fx_diagnostics (validateScene scene) = [])
  /\ (fx <> EmptyString -> ~ In fx ALLOWED_VFX ->
      visual_fx_diagnostics (validateScene scene)
      = [ {| type := ERROR; sceneId := Some (scene_id scene); field := "visual_fx";
             message := (scene_label scene ++ ": Invalid visual effect "
                           ++ dquote ++ fx ++ dquote)%string;
             suggestion := "Use one of: zoom_in, zoom_out, pan_left, pan_right, fade, static, shake, slow_motion";
             fixable := true |} ]).
Proof.
  intros Hfx. rewrite visual_fx_diagnostics_validateScene. unfold rule8. rewrite Hfx.
  split.
  - intros Hin. apply includes_In in Hin. rewrite Hin.
    now rewrite andb_false_r.
  - intros Hne Hout. apply truthy_nonempty in Hne. rewrite Hne.
    destruct (JS.includes ALLOWED_VFX fx) eqn:E.
    + apply includes_In in E. contradiction.
    + reflexivity.
Qed.

Definition fx_scene (fx : string) : Scene :=
  {| scene_id := 1; scene_type := "hook"; duration := 3; timestamp := "0:00";
     prompt := Some "a street at night"%string; visual_fx := Some fx;
     text_content := None |}.

Lemma validateScene_visual_fx_witness :
  visual_fx_diagnostics (validateScene (fx_scene "slow_motion")) = []
  /\ length (visual_fx_diagnostics (validateScene (fx_scene "sparkle"))) = 1%nat.
Proof.
  split.
  - apply (proj1 (validateScene_visual_fx (fx_scene "slow_motion") "slow_motion" eq_refl)).
    vm_compute. tauto.
  - rewrite (proj2 (validateScene_visual_fx (fx_scene "sparkle") "sparkle" eq_refl)).
    + reflexivity.
    + discriminate.
    + vm_compute. intuition discriminate.
Defined.

(** [pan_up] is one of the nine effects the specification lists, and the
    validator reports it. *)
Lemma pan_up_is_reported :
  visual_fx_diagnostics (validateScene (fx_scene "pan_up")) <> []
  /\ hasBlockingErrors (validateScene (fx_scene "pan_up")) = true
  /\ visual_fx_diagnostics (validateScene (fx_scene "pan_down")) <> [].
Proof. vm_compute. repeat split; discriminate. Qed.

End ValidationProofs.

(** ** What a commit leaves in the store *)

Module SetFacts.
Import Utils State.

(** A commit stores the new sequence with its timestamps recalculated. *)
Lemma set_scenes_scenes scenes' st :
  scenes (set (scenes_update scenes' false) false st) = calculateTimestamps scenes'.
Proof.
  unfold set, _pushHistory. simpl.
  destruct (_ <? _); destruct (_ >? _); reflexivity.
Qed.

End SetFacts.

(** ** The duration rule and its auto-fix *)

Module DurationProofs.
Import Utils Validation ValidationProofs.

Lemma duration_mismatches_app ds ds' :
  duration_mismatches (ds ++ ds') = duration_mismatches ds ++ duration_mismatches ds'.
Proof. apply List.filter_app. Qed.

Lemma validateScene_no_mismatch s : duration_mismatches (validateScene s) = [].
Proof.
  unfold validateScene, rule1, rule6, rule7, rule8.
  rewrite !duration_mismatches_app.
  destruct (_ || _); destruct (_ && _); destruct (_ && _);
    destruct (visual_fx s) as [fx|]; try destruct (_ && _); reflexivity.
Qed.

Lemma per_scene_no_mismatch scenes :
  duration_mismatches (concat (map validateScene scenes)) = [].
Proof.
  induction scenes as [|s rest IH]; simpl; [reflexivity|].
  now rewrite duration_mismatches_app, validateScene_no_mismatch, IH.
Qed.

Lemma rule2_3_no_mismatch scenes : duration_mismatches (rule2_3 scenes) = [].
Proof.
  unfold rule2_3. rewrite duration_mismatches_app.
  destruct (negb (length _ =? _)%nat); destruct (negb (bool_decide _)); reflexivity.
Qed.

Lemma rule4_no_mismatch scenes : forall c, duration_mismatches (rule4_from c scenes) = [].
Proof.
  induction scenes as [|s rest IH]; intros c; simpl; [reflexivity|].
  rewrite duration_mismatches_app, IH.
  now destruct (String.eqb _ _).
Qed.

Lemma rule5_all_mismatch scenes pd :
  duration_mismatches (rule5 scenes pd) = rule5 scenes pd.
Proof.
  unfold rule5. destruct pd as [pd|]; [|reflexivity].
  destruct (JS.gtb pd 0); [|reflexivity].
  now destruct (negb _).
Qed.

(** The duration-mismatch diagnostics of a project are exactly what
    rule 5 produces. *)
Lemma mismatches_are_rule5 scenes pd :
  scenes <> [] ->
  duration_mismatches (validateProject scenes pd) = rule5 scenes pd.
Proof.
  intros Hne. unfold validateProject.
  destruct scenes as [|s rest]; [congruence|].
  rewrite !duration_mismatches_app.
  rewrite per_scene_no_mismatch, rule2_3_no_mismatch, rule4_no_mismatch.
  apply rule5_all_mismatch.
Qed.

Lemma last_calculateTimestamps_from scenes : forall c,
  duration <$> last (calculateTimestamps_from c scenes) = duration <$> last scenes.
Proof.
  induction scenes as [|s rest IH]; intros c; [reflexivity|].
  destruct rest as [|s' rest']; [reflexivity|].
  specialize (IH (c + duration s)%Q).
  simpl in *. exact IH.
Qed.

Lemma last_map {A B} (f : A -> B) (l : list A) : last (map f l) = f <$> last l.
Proof.
  induction l as [|x l IH]; [reflexivity|].
  destruct l as [|y l]; [reflexivity|]. simpl in *. exact IH.
Qed.

(** The auto-fix in general: the last scene's duration becomes its old
    duration plus the signed difference, but at least 1. *)
Lemma handleFix_duration (st : State.Store) (lastScene : Scene) (project : State.Project) :
  last (State.scenes st) = Some lastScene ->
  State.currentProject st = Some project ->
  Qeq_bool (State.project_duration project - getTotalDuration (State.scenes st)) 0 = false ->
  duration <$> last (State.scenes (Editor.handleFix "duration" None st))
  = Some (JS.Math_max 1
            (duration lastScene
             + (State.project_duration project - getTotalDuration (State.scenes st)))).
Proof.
  intros Hlast Hproj Hdiff. unfold Editor.handleFix. simpl.
  rewrite Hlast, Hproj, Hdiff.
  unfold State.updateScene. simpl.
  rewrite SetFacts.set_scenes_scenes. unfold calculateTimestamps.
  rewrite last_calculateTimestamps_from, last_map, Hlast. simpl.
  now rewrite Z.eqb_refl.
Qed.

(** C2, as the code has it.  Durations 3, 4 and 3 add up to 10: a target
    of 10 yields no duration-mismatch diagnostic; a target of 11 yields
    exactly one, a fixable warning that says to add 1s; and the auto-fix
    then sets the last scene's duration to 4. *)
Theorem duration_scenario (scenes : list Scene) :
  map duration scenes = [3; 4; 3]%Q ->
  duration_mismatches (validateProject scenes (Some 10%Q)) = []
  /\ duration_mismatches (validateProject scenes (Some 11%Q))
     = [ {| type := WARNING; sceneId := None; field := "duration";
            message := "Total duration (10s) doesn't match project duration (11s)";
            suggestion := "Adjust scene durations to add 1s total";
            fixable := true |} ]
  /\ (forall st project,
        State.scenes st = scenes ->
        State.currentProject st = Some project ->
        State.project_duration project = 11%Q ->
        duration <$> last (State.scenes (Editor.handleFix "duration" None st))
        = Some 4%Q).
Proof.
  intros Hd.
  destruct scenes as [|a [|b [|c [|? ?]]]]; try discriminate.
  simpl in Hd. injection Hd as Ha Hb Hc.
  assert (Htotal : getTotalDuration [a; b; c] = 10%Q).
  { unfold getTotalDuration. simpl. rewrite Ha, Hb, Hc. reflexivity. }
  split; [|split].
  - rewrite mismatches_are_rule5 by discriminate.
    unfold rule5. rewrite Htotal. reflexivity.
  - rewrite mismatches_are_rule5 by discriminate.
    unfold rule5. rewrite Htotal. vm_compute. reflexivity.
  - intros st project Hst Hproj Hpd.
    rewrite (handleFix_duration st c project).
    + rewrite Hst, Htotal, Hpd, Hc. reflexivity.
    + now rewrite Hst.
    + exact Hproj.
    + rewrite Hst, Htotal, Hpd. reflexivity.
Qed.

Definition plain (i : Z) (d : Q) (ts : string) : Scene :=
  {| scene_id := i; scene_type := "hook"; duration := d; timestamp := ts;
     prompt := Some "a street at night"%string; visual_fx := Some "static"%string;
     text_content := None |}.

(** The scenario's scenes, with the timestamps the calculator gives. *)
Definition scenario_scenes : list Scene :=
  [plain 1 3 "0:00"; plain 2 4 "0:03"; plain 3 3 "0:07"].

Definition scenario_store (target : Q) : State.Store :=
  {| State.currentProject := Some (State.mkProject "proj_1" target);
     State.scenes := scenario_scenes; State.selectedScene := None;
     State.history := [scenario_scenes]; State.historyIndex := 0 |}.

Lemma duration_scenario_witness :
  duration_mismatches (validateProject scenario_scenes (Some 10%Q)) = []
  /\ duration <$> last (State.scenes (Editor.handleFix "duration" None (scenario_store 11)))
     = Some 4%Q.
Proof.
  split.
  - apply (proj1 (duration_scenario scenario_scenes eq_refl)).
  - apply (proj2 (proj2 (duration_scenario scenario_scenes eq_refl))
             (scenario_store 11) (State.mkProject "proj_1" 11));
      reflexivity.
Defined.

(** The scenario as the specification words it fails on all three counts:
    a target of 11 does yield a duration-mismatch diagnostic, the one for a
    target of 12 does not say to add 1s, and its auto-fix sets the last
    duration to 5. *)
Lemma scenario_as_worded_fails :
  duration_mismatches (validateProject scenario_scenes (Some 11%Q)) <> []
  /\ map (fun d => JS.str_includes (suggestion d) "add 1s")
         (duration_mismatches (validateProject scenario_scenes (Some 12%Q)))
     = [false]
  /\ map suggestion (duration_mismatches (validateProject scenario_scenes (Some 12%Q)))
     = ["Adjust scene durations to add 2s total"%string]
  /\ duration <$> last (State.scenes (Editor.handleFix "duration" None (scenario_store 12)))
     = Some 5%Q.
Proof. vm_compute. repeat split; discriminate. Qed.

End DurationProofs.

(** ** The store's history *)

Module HistoryProofs.
Import Utils State.

(** The standing invariant of the history: at most [MAX_HISTORY] entries,
    and a cursor that is -1 on an empty history and an index into it
    otherwise. *)
Definition store_ok (st : Store) : Prop :=
  Z.of_nat (length (history st)) <= MAX_HISTORY
  /\ -1 <= historyIndex st < Z.of_nat (length (history st)).

(** The cursor is on the last entry of a non-empty history. *)
Definition at_tail (st : Store) : Prop :=
  historyIndex st = Z.of_nat (length (history st)) - 1
  /\ 1 <= Z.of_nat (length (history st)) <= MAX_HISTORY.

Definition cursor_in_range (st : Store) : Prop :=
  Z.of_nat (length (history st)) <= MAX_HISTORY
  /\ 0 <= historyIndex st < Z.of_nat (length (history st)).

Lemma at_tail_in_range st : at_tail st -> cursor_in_range st.
Proof. unfold at_tail, cursor_in_range. lia. Qed.

Lemma in_range_ok st : cursor_in_range st -> store_ok st.
Proof. unfold cursor_in_range, store_ok. lia. Qed.

Lemma constructor_ok : store_ok constructor.
Proof. unfold store_ok, MAX_HISTORY. simpl. lia. Qed.

Ltac case_cmp :=
  match goal with
  | |- context [?a <? ?b] => destruct (Z.ltb_spec a b)
  | |- context [?a >? ?b] => rewrite (Z.gtb_ltb a b); destruct (Z.ltb_spec b a)
  | |- context [?a <=? ?b] => destruct (Z.leb_spec a b)
  | |- context [?a >=? ?b] => rewrite (Z.geb_leb a b); destruct (Z.leb_spec b a)
  end.

Lemma slice0_prefix {A} (arr : list A) (e : Z) :
  0 <= e <= Z.of_nat (length arr) -> JS.slice0 arr e = take (Z.to_nat e) arr.
Proof.
  intros H. unfold JS.slice0. case_cmp; [lia|].
  now rewrite Z.min_l by lia.
Qed.

(** What [_pushHistory] does to a well-formed history with a redo branch:
    the branch is cut and the snapshot appended. *)
Lemma pushHistory_truncates snapshot st :
  store_ok st ->
  historyIndex st < Z.of_nat (length (history st)) - 1 ->
  history (_pushHistory snapshot st)
  = take (Z.to_nat (historyIndex st + 1)) (history st) ++ [snapshot]
  /\ historyIndex (_pushHistory snapshot st) = historyIndex st + 1.
Proof.
  intros [Hcap Hidx] Hredo. unfold _pushHistory, JS.push, deepClone, MAX_HISTORY in *.
  case_cmp; [|lia].
  rewrite slice0_prefix by lia.
  case_cmp.
  - rewrite length_app, length_take in *. simpl in *. lia.
  - simpl. split; reflexivity.
Qed.

(** After [_pushHistory] on a well-formed store the cursor is on the last
    entry, and the cap holds. *)
Lemma pushHistory_at_tail snapshot st :
  store_ok st -> at_tail (_pushHistory snapshot st).
Proof.
  intros Hok. destruct (Z.lt_ge_cases (historyIndex st) (Z.of_nat (length (history st)) - 1))
    as [Hredo|Hlast].
  - destruct (pushHistory_truncates snapshot st Hok Hredo) as [Hh Hi].
    destruct Hok as [Hcap Hidx]. unfold at_tail, MAX_HISTORY in *.
    rewrite Hh, Hi, length_app, length_take. simpl. lia.
  - destruct Hok as [Hcap Hidx].
    unfold at_tail, _pushHistory, JS.push, JS.shift, deepClone, MAX_HISTORY in *.
    case_cmp; [lia|]. case_cmp; simpl.
    + rewrite length_app in *. simpl in *.
      destruct (history st) as [|e h]; simpl in *; [lia|].
      rewrite length_app. simpl. lia.
    + rewrite length_app in *. simpl in *. lia.
Qed.

Lemma pushHistory_same_history snapshot st st' :
  history st' = history st -> historyIndex st' = historyIndex st ->
  history (_pushHistory snapshot st') = history (_pushHistory snapshot st)
  /\ historyIndex (_pushHistory snapshot st') = historyIndex (_pushHistory snapshot st).
Proof.
  intros Hh Hi. unfold _pushHistory. rewrite Hh, Hi.
  destruct (_ <? _); destruct (_ >? _); simpl; auto.
Qed.

(** Committing a scene sequence through [set] is [_pushHistory] of the
    sequence the store held before. *)
Lemma set_scenes_history scenes' skipTs st :
  history (set (scenes_update scenes' skipTs) false st)
  = history (_pushHistory (scenes st) st)
  /\ historyIndex (set (scenes_update scenes' skipTs) false st)
     = historyIndex (_pushHistory (scenes st) st).
Proof.
  unfold set, deepClone. simpl.
  apply pushHistory_same_history; destruct skipTs; reflexivity.
Qed.

(** An edit never throws, and its history is [_pushHistory] of the
    sequence before the edit. *)
Lemma edit_commits c st :
  is_edit c = true ->
  exists st', invoke c st = Normal undefined st'
    /\ history st' = history (_pushHistory (scenes st) st)
    /\ historyIndex st' = historyIndex (_pushHistory (scenes st) st).
Proof.
  intros Hedit. destruct c as [sid upd|sc|sid| |]; try discriminate; simpl.
  - eexists. split; [reflexivity|]. apply set_scenes_history.
  - eexists. split; [reflexivity|]. apply set_scenes_history.
  - unfold removeScene.
    match goal with |- context [if ?b then _ else _] => destruct b end;
      (eexists; split; [reflexivity|]); apply set_scenes_history.
Qed.

Lemma edit_at_tail c st :
  is_edit c = true -> store_ok st ->
  exists st', invoke c st = Normal undefined st' /\ at_tail st'.
Proof.
  intros Hedit Hok. destruct (edit_commits c st Hedit) as [st' [Hinv [Hh Hi]]].
  exists st'. split; [exact Hinv|].
  pose proof (pushHistory_at_tail (scenes st) st Hok) as Ht.
  unfold at_tail in *. rewrite Hh, Hi. exact Ht.
Qed.

(** Edits on a well-formed store complete normally and leave at most
    [MAX_HISTORY] entries with the cursor inside the history. *)
Lemma edits_keep_range (st : Store) (calls : list Call) :
  store_ok st ->
  Forall (fun c => is_edit c = true) calls ->
  Forall (fun cr => exists v st', snd cr = Normal v st' /\ cursor_in_range st')
         (run calls st).
Proof.
  intros Hok Hedits. revert st Hok.
  induction Hedits as [|c calls Hc _ IH]; intros st Hok; simpl; constructor.
  - destruct (edit_at_tail c st Hc Hok) as [st' [Hinv Ht]].
    exists undefined, st'. simpl. split; [exact Hinv|].
    apply at_tail_in_range, Ht.
  - destruct (edit_at_tail c st Hc Hok) as [st' [Hinv Ht]].
    rewrite Hinv. simpl. apply IH.
    apply in_range_ok, at_tail_in_range, Ht.
Qed.

Lemma load_current_keeps st :
  history (store_of (load_current st)) = history st
  /\ historyIndex (store_of (load_current st)) = historyIndex st.
Proof.
  unfold load_current. destruct (JS.index _ _); simpl; split; reflexivity.
Qed.

Lemma load_current_ok st : store_ok st -> store_ok (store_of (load_current st)).
Proof.
  intros H. destruct (load_current_keeps st) as [Hh Hi].
  unfold store_ok in *. now rewrite Hh, Hi.
Qed.

Lemma undo_ok st : store_ok st -> store_ok (store_of (undo st)).
Proof.
  intros [Hcap Hidx]. unfold undo. case_cmp; [|split; assumption].
  apply load_current_ok. unfold store_ok. simpl. lia.
Qed.

Lemma redo_ok st : store_ok st -> store_ok (store_of (redo st)).
Proof.
  intros [Hcap Hidx]. unfold redo. case_cmp; [|split; assumption].
  apply load_current_ok. unfold store_ok. simpl. lia.
Qed.

Lemma jumpToHistory_ok index st : store_ok st -> store_ok (store_of (jumpToHistory index st)).
Proof.
  intros [Hcap Hidx]. unfold jumpToHistory.
  destruct (Z.geb_spec index 0); destruct (Z.ltb_spec index (Z.of_nat (length (history st))));
    simpl; try (split; assumption).
  apply load_current_ok. unfold store_ok. simpl. lia.
Qed.

Lemma deleteHistoryAt_ok index st :
  store_ok st -> store_ok (store_of (deleteHistoryAt index st)).
Proof.
  intros [Hcap Hidx]. unfold deleteHistoryAt.
  destruct (Z.leb_spec index 0);
    destruct (Z.geb_spec index (Z.of_nat (length (history st))));
    simpl; try (split; assumption).
  apply load_current_ok. unfold store_ok, MAX_HISTORY in *. simpl.
  rewrite length_delete by (apply lookup_lt_is_Some_2; lia).
  case_cmp; lia.
Qed.

(** Every method keeps the standing invariant. *)
Lemma perform_ok m st : store_ok st -> store_ok (store_of (perform m st)).
Proof.
  intros Hok. destruct m as [project|scs saved|sel|index|index| |c]; simpl.
  - unfold store_ok, MAX_HISTORY. simpl. lia.
  - unfold store_ok, MAX_HISTORY. simpl. lia.
  - exact Hok.
  - now apply jumpToHistory_ok.
  - now apply deleteHistoryAt_ok.
  - unfold store_ok, MAX_HISTORY. simpl. lia.
  - destruct c as [sid upd|sc|sid| |].
    + destruct (edit_at_tail (CallUpdateScene sid upd) st eq_refl Hok) as [st' [E Ht]].
      rewrite E. apply in_range_ok, at_tail_in_range, Ht.
    + destruct (edit_at_tail (CallAddScene sc) st eq_refl Hok) as [st' [E Ht]].
      rewrite E. apply in_range_ok, at_tail_in_range, Ht.
    + destruct (edit_at_tail (CallRemoveScene sid) st eq_refl Hok) as [st' [E Ht]].
      rewrite E. apply in_range_ok, at_tail_in_range, Ht.
    + now apply undo_ok.
    + now apply redo_ok.
Qed.

Lemma reach_from_ok ms : forall st,
  store_ok st -> store_ok (fold_left (fun st m => store_of (perform m st)) ms st).
Proof.
  induction ms as [|m ms IH]; intros st Hok; simpl; [exact Hok|].
  apply IH. now apply perform_ok.
Qed.

(** Every store the methods lead to satisfies the standing invariant. *)
Lemma reach_ok ms : store_ok (reach ms).
Proof. apply reach_from_ok, constructor_ok. Qed.

(** C4.  In whatever state the store is (any state its methods lead to
    from the constructor's), every sequence of [updateScene], [addScene]
    and [removeScene] calls completes normally call by call, and after
    each call the history holds at most 20 entries with
    [0 <= historyIndex < history.length]. *)
Theorem history_stays_bounded (ms : list Method) (calls : list Call) :
  Forall (fun c => is_edit c = true) calls ->
  Forall (fun cr => exists v st',
            snd cr = Normal v st'
            /\ Z.of_nat (length (history st')) <= 20
            /\ 0 <= historyIndex st' < Z.of_nat (length (history st')))
         (run calls (reach ms)).
Proof.
  intros Hedits. apply (edits_keep_range (reach ms) calls (reach_ok ms) Hedits).
Qed.

Definition clip (i : Z) (d : Q) (ts : string) : Scene :=
  {| scene_id := i; scene_type := "hook"; duration := d; timestamp := ts;
     prompt := Some "a street at night"%string; visual_fx := Some "static"%string;
     text_content := None |}.

Definition retime (d : Q) : ScenePatch :=
  {| patch_scene_id := None; patch_scene_type := None; patch_duration := Some d;
     patch_timestamp := None; patch_prompt := None; patch_visual_fx := None;
     patch_text_content := None |}.

Lemma history_stays_bounded_witness :
  Forall (fun cr => exists v st',
            snd cr = Normal v st'
            /\ Z.of_nat (length (history st')) <= 20
            /\ 0 <= historyIndex st' < Z.of_nat (length (history st')))
         (run [CallAddScene (clip 2 4 "0:00"); CallUpdateScene 1 (retime 5);
               CallRemoveScene 1]
              (reach [DoSetScenes [clip 1 3 "0:00"] None])).
Proof.
  apply (history_stays_bounded [DoSetScenes [clip 1 3 "0:00"] None]).
  repeat constructor.
Defined.

(** Twenty-five edits on a fresh store: the history stops at 20 entries
    and the cursor at 19. *)
Example cap_is_reached :
  let final := foldr (fun c st => store_of (invoke c st)) constructor
                 (replicate 25 (CallAddScene (clip 1 3 "0:00"))) in
  length (history final) = 20%nat /\ historyIndex final = 19.
Proof. vm_compute. split; reflexivity. Qed.

Lemma redo_at_tail st : at_tail st -> redo st = Normal (boolean false) st.
Proof.
  intros [Hi _]. unfold redo. case_cmp; [lia | reflexivity].
Qed.

Lemma index_in_range {A} (arr : list A) (i : Z) :
  0 <= i < Z.of_nat (length arr) -> exists x, JS.index arr i = Some x.
Proof.
  intros H. unfold JS.index. case_cmp; [lia|].
  apply lookup_lt_is_Some_2. lia.
Qed.

Lemma undo_in_range st :
  cursor_in_range st ->
  (historyIndex st > 0 -> exists st', undo st = Normal (boolean true) st')
  /\ (historyIndex st <= 0 -> undo st = Normal (boolean false) st).
Proof.
  intros [Hcap Hidx]. unfold undo. split; intros H; case_cmp; try lia; [|reflexivity].
  unfold load_current. simpl.
  destruct (index_in_range (history st) (historyIndex st - 1)) as [x Hx]; [lia|].
  rewrite Hx. eexists. reflexivity.
Qed.

(** The trace a sequence of methods leaves: each method with its
    completion, the store threaded through. *)
Fixpoint follow (ms : list Method) (st : Store) : list (Method * Completion) :=
  match ms with
  | [] => []
  | m :: ms' =>
      let r := perform m st in
      (m, r) :: follow ms' (store_of r)
  end.

(** The two methods that can move the cursor below the last entry. *)
Definition is_rewind (m : Method) : bool :=
  match m with
  | DoCall CallUndo | DoJumpToHistory _ => true
  | _ => false
  end.

(** The cursor is on the last entry, or the history is empty. *)
Definition at_end (st : Store) : Prop :=
  historyIndex st = Z.of_nat (length (history st)) - 1
  /\ Z.of_nat (length (history st)) <= MAX_HISTORY.

Lemma at_tail_at_end st : at_tail st -> at_end st.
Proof. unfold at_tail, at_end. lia. Qed.

Lemma at_end_ok st : at_end st -> store_ok st.
Proof. unfold at_end, store_ok. lia. Qed.

Lemma redo_at_end st : at_end st -> redo st = Normal (boolean false) st.
Proof. intros [Hi _]. unfold redo. case_cmp; [lia | reflexivity]. Qed.

Lemma load_current_in_range st :
  0 <= historyIndex st < Z.of_nat (length (history st)) ->
  exists st', load_current st = Normal (boolean true) st'.
Proof.
  intros H. unfold load_current.
  destruct (index_in_range (history st) (historyIndex st) H) as [x Hx].
  rewrite Hx. eexists. reflexivity.
Qed.

(** Every method other than a successful [undo] or [jumpToHistory]
    leaves the cursor on the last entry. *)
Lemma perform_at_end m st :
  at_end st ->
  (is_rewind m = true -> forall s, perform m st <> Normal (boolean true) s) ->
  at_end (store_of (perform m st)).
Proof.
  intros Ht Hno. pose proof Ht as [Hi Hcap].
  destruct m as [project|scs saved|sel|index|index| |c]; simpl in *.
  - unfold at_end, MAX_HISTORY. simpl. lia.
  - unfold at_end, MAX_HISTORY. simpl. lia.
  - exact Ht.
  - unfold jumpToHistory in *.
    destruct (Z.geb_spec index 0);
      destruct (Z.ltb_spec index (Z.of_nat (length (history st))));
      simpl in *; try exact Ht.
    destruct (load_current_in_range (with_history st (history st) index)) as [st' E];
      [simpl; lia|].
    exfalso. apply (Hno eq_refl st'). exact E.
  - unfold deleteHistoryAt.
    destruct (Z.leb_spec index 0);
      destruct (Z.geb_spec index (Z.of_nat (length (history st))));
      simpl; try exact Ht.
    destruct (load_current_keeps
                (with_history st (delete (Z.to_nat index) (history st))
                   (if historyIndex st >=? index then Z.max 0 (historyIndex st - 1)
                    else historyIndex st))) as [Hh Hc].
    unfold at_end, MAX_HISTORY in *. rewrite Hh, Hc. simpl.
    rewrite length_delete by (apply lookup_lt_is_Some_2; lia).
    case_cmp; lia.
  - unfold at_end, MAX_HISTORY. simpl. lia.
  - destruct c as [sid upd|sc|sid| |].
    + destruct (edit_at_tail (CallUpdateScene sid upd) st eq_refl (at_end_ok st Ht))
        as [st' [E Ht']].
      rewrite E. now apply at_tail_at_end.
    + destruct (edit_at_tail (CallAddScene sc) st eq_refl (at_end_ok st Ht))
        as [st' [E Ht']].
      rewrite E. now apply at_tail_at_end.
    + destruct (edit_at_tail (CallRemoveScene sid) st eq_refl (at_end_ok st Ht))
        as [st' [E Ht']].
      rewrite E. now apply at_tail_at_end.
    + simpl in *. unfold undo in *.
      destruct (Z.gtb_spec (historyIndex st) 0) as [Hpos|Hfloor]; [|exact Ht].
      destruct (load_current_in_range
                  (with_history st (history st) (historyIndex st - 1))) as [st' E];
        [simpl; lia|].
      exfalso. apply (Hno eq_refl st'). exact E.
    + simpl. now rewrite redo_at_end.
Qed.

(** While neither [undo] nor [jumpToHistory] succeeds, a store whose
    cursor is on the last entry answers every [redo] with [false],
    whatever other methods are called. *)
Lemma no_redo_until_rewind ms : forall st,
  at_end st ->
  (forall m s, is_rewind m = true -> ~ In (m, Normal (boolean true) s) (follow ms st)) ->
  forall r, In (DoCall CallRedo, r) (follow ms st) -> exists s, r = Normal (boolean false) s.
Proof.
  induction ms as [|m ms IH]; intros st Ht Hno r Hin; simpl in *; [contradiction|].
  assert (Hnext : at_end (store_of (perform m st))).
  { apply perform_at_end; [exact Ht|]. intros Hm s E.
    apply (Hno m s Hm). left. now rewrite E. }
  destruct Hin as [Hhead|Hin].
  - injection Hhead as Hm Hr. subst m. simpl in Hr. rewrite redo_at_end in Hr by exact Ht.
    exists st. now subst r.
  - apply (IH (store_of (perform m st)) Hnext); [|exact Hin].
    intros m' s Hm' Hs. apply (Hno m' s Hm'). now right.
Qed.

(** An edit on a well-formed store with a redo branch cuts the branch
    and leaves the cursor on the last entry. *)
Lemma edit_cuts_branch (st : Store) (c : Call) :
  store_ok st ->
  is_edit c = true ->
  historyIndex st < Z.of_nat (length (history st)) - 1 ->
  let st' := store_of (invoke c st) in
  history st' = take (Z.to_nat (historyIndex st + 1)) (history st) ++ [scenes st]
  /\ at_tail st'.
Proof.
  intros Hok Hedit Hredo st'.
  destruct (edit_commits c st Hedit) as [st1 [Hinv [Hh Hi]]].
  destruct (edit_at_tail c st Hedit Hok) as [st2 [Hinv2 Ht]].
  assert (st' = st1) as -> by (unfold st'; now rewrite Hinv).
  assert (st2 = st1) as -> by congruence.
  destruct (pushHistory_truncates (scenes st) st Hok Hredo) as [Hcut _].
  split; [now rewrite Hh | exact Ht].
Qed.

(** C5.  In whatever state the store is, an edit committed while
    [historyIndex < history.length - 1] keeps the entries up to the
    cursor, drops those after it and appends the pre-edit sequence; the
    cursor is then on the last entry, [redo] returns [false], and every
    later [redo] returns [false], whatever methods are called in between,
    for as long as neither [undo] nor [jumpToHistory] has returned
    [true]. *)
Theorem edit_discards_redo_branch (ms : list Method) (c : Call) :
  is_edit c = true ->
  historyIndex (reach ms) < Z.of_nat (length (history (reach ms))) - 1 ->
  let st' := store_of (invoke c (reach ms)) in
  history st'
  = take (Z.to_nat (historyIndex (reach ms) + 1)) (history (reach ms))
      ++ [scenes (reach ms)]
  /\ historyIndex st' = Z.of_nat (length (history st')) - 1
  /\ redo st' = Normal (boolean false) st'
  /\ (forall later,
        (forall s, ~ In (DoCall CallUndo, Normal (boolean true) s) (follow later st')) ->
        (forall index s,
            ~ In (DoJumpToHistory index, Normal (boolean true) s) (follow later st')) ->
        forall r, In (DoCall CallRedo, r) (follow later st') ->
                  exists s, r = Normal (boolean false) s).
Proof.
  intros Hedit Hredo st'.
  destruct (edit_cuts_branch (reach ms) c (reach_ok ms) Hedit Hredo) as [Hcut Ht].
  fold st' in Hcut, Ht.
  split; [exact Hcut|].
  split; [apply Ht|].
  split; [now apply redo_at_tail|].
  intros later Hundo Hjump. apply no_redo_until_rewind; [now apply at_tail_at_end|].
  intros m s Hm Hin.
  destruct m as [project|scs saved|sel|index|index| |[sid upd|sc|sid| |]];
    try discriminate.
  - exact (Hjump index s Hin).
  - exact (Hundo s Hin).
Qed.

(** A 3s scene is loaded and retimed twice, then both edits are undone. *)
Definition rewound : list Method :=
  [DoSetScenes [clip 1 3 "0:00"] None;
   DoCall (CallUpdateScene 1 (retime 4)); DoCall (CallUpdateScene 1 (retime 5));
   DoCall CallUndo; DoCall CallUndo].

Lemma edit_discards_redo_branch_witness :
  history (store_of (invoke (CallUpdateScene 1 (retime 7)) (reach rewound)))
  = [[clip 1 3 "0:00"]; [clip 1 3 "0:00"]]
  /\ redo (store_of (invoke (CallUpdateScene 1 (retime 7)) (reach rewound)))
     = Normal (boolean false)
         (store_of (invoke (CallUpdateScene 1 (retime 7)) (reach rewound))).
Proof.
  assert (Hredo : historyIndex (reach rewound)
                  < Z.of_nat (length (history (reach rewound))) - 1)
    by (vm_compute; reflexivity).
  pose proof (edit_discards_redo_branch rewound (CallUpdateScene 1 (retime 7))
                eq_refl Hredo) as H.
  split; [exact (proj1 H) | exact (proj1 (proj2 (proj2 H)))].
Defined.

(** After the same edit, [jumpToHistory(0)] returns [true] and the very
    next [redo] returns [true] as well, although no [undo] was called:
    the jump alone reopens the redo branch. *)
Lemma jump_reopens_redo :
  exists st1 st2,
    follow [DoJumpToHistory 0; DoCall CallRedo]
      (store_of (invoke (CallUpdateScene 1 (retime 7)) (reach rewound)))
    = [(DoJumpToHistory 0, Normal (boolean true) st1);
       (DoCall CallRedo, Normal (boolean true) st2)].
Proof. eexists. eexists. vm_compute. reflexivity. Qed.

End HistoryProofs.

(** ** Undo and redo *)

Module UndoRedoProofs.
Import Utils State HistoryProofs.

Definition shot (i : Z) (d : Q) (ts : string) : Scene :=
  {| scene_id := i; scene_type := "hook"; duration := d; timestamp := ts;
     prompt := Some "a street at night"%string; visual_fx := Some "static"%string;
     text_content := None |}.

Definition set_duration (d : Q) : ScenePatch :=
  {| patch_scene_id := None; patch_scene_type := None; patch_duration := Some d;
     patch_timestamp := None; patch_prompt := None; patch_visual_fx := None;
     patch_text_content := None |}.

(** A project with one 3s scene is loaded, then the scene is made 5s. *)
Definition loaded : Store :=
  store_of (setScenes [shot 1 3 "0:00"] None constructor).

Definition edited : Store :=
  store_of (updateScene 1 (set_duration 5) loaded).

(** C1 on the code.  After one edit the history is non-empty and the
    cursor is above the floor; [undo] and then [redo] both succeed, and
    the store ends with the 3s scene of before the edit, not the 5s scene
    it held before the [undo]: [set] pushed the pre-edit sequence, so the
    edited sequence is in no history entry. *)
Theorem undo_redo_loses_edit :
  map duration (scenes edited) = [5%Q]
  /\ length (history edited) = 2%nat
  /\ historyIndex edited = 1
  /\ exists st1 st2,
       undo edited = Normal (boolean true) st1
       /\ redo st1 = Normal (boolean true) st2
       /\ map duration (scenes st2) = [3%Q]
       /\ scenes st2 <> scenes edited
       /\ ~ In (scenes edited) (history edited).
Proof.
  split; [reflexivity|]. split; [reflexivity|]. split; [reflexivity|].
  eexists. eexists.
  split; [vm_compute; reflexivity|].
  split; [vm_compute; reflexivity|].
  split; [reflexivity|].
  split; [discriminate|].
  vm_compute. intros [H|[H|[]]]; discriminate.
Qed.

Lemma load_current_scenes st snapshot :
  JS.index (history st) (historyIndex st) = Some snapshot ->
  exists st', load_current st = Normal (boolean true) st'
    /\ scenes st' = calculateTimestamps snapshot
    /\ history st' = history st
    /\ historyIndex st' = historyIndex st
    /\ currentProject st' = currentProject st
    /\ selectedScene st' = selectedScene st.
Proof.
  intros H. unfold load_current. rewrite H. eexists. split; [reflexivity|].
  repeat split.
Qed.

(** The round trip does hold from the states in which the current
    sequence is the one the cursor's entry yields, such as the state an
    [undo] or a [redo] leaves. *)
Lemma undo_redo_round_trip st snapshot :
  cursor_in_range st ->
  historyIndex st > 0 ->
  JS.index (history st) (historyIndex st) = Some snapshot ->
  scenes st = calculateTimestamps snapshot ->
  exists st1 st2,
    undo st = Normal (boolean true) st1
    /\ redo st1 = Normal (boolean true) st2
    /\ st2 = st.
Proof.
  intros [Hcap Hidx] Hpos Hsnap Hsync.
  destruct (index_in_range (history st) (historyIndex st - 1)) as [prev Hprev]; [lia|].
  destruct (load_current_scenes
              (with_history st (history st) (historyIndex st - 1)) prev Hprev)
    as [st1 [E1 [Hs1 [Hh1 [Hi1 [Hp1 Hsel1]]]]]].
  simpl in Hh1, Hi1, Hp1, Hsel1.
  assert (Hsnap' : JS.index (history (with_history st1 (history st1) (historyIndex st1 + 1)))
                     (historyIndex (with_history st1 (history st1) (historyIndex st1 + 1)))
                   = Some snapshot).
  { simpl. rewrite Hh1, Hi1. now replace (historyIndex st - 1 + 1) with (historyIndex st) by lia. }
  destruct (load_current_scenes _ snapshot Hsnap')
    as [st2 [E2 [Hs2 [Hh2 [Hi2 [Hp2 Hsel2]]]]]].
  simpl in Hh2, Hi2, Hp2, Hsel2.
  exists st1, st2. split; [|split].
  - unfold undo. case_cmp; [exact E1 | lia].
  - unfold redo. case_cmp; [exact E2 | rewrite Hh1 in *; lia].
  - destruct st2, st; simpl in *. f_equal; try congruence. lia.
Qed.

End UndoRedoProofs.

(** ** Edits addressed to a missing scene *)

Module UpdateSceneProofs.
Import Utils State HistoryProofs.

Lemma map_unmatched (sceneId : Z) (updates : ScenePatch) (l : list Scene) :
  (forall s, In s l -> scene_id s <> sceneId) ->
  map (fun s => if scene_id s =? sceneId then spread s updates else s) l = l.
Proof.
  induction l as [|s l IH]; intros H; simpl; [reflexivity|].
  rewrite IH by (intros s' Hs'; apply H; now right).
  destruct (Z.eqb_spec (scene_id s) sceneId) as [E|_]; [|reflexivity].
  exfalso. apply (H s); [now left | exact E].
Qed.

(** C7, as the code has it.  For an id that matches no scene,
    [updateScene] completes normally and returns [undefined]; it is the
    commit of the unchanged sequence: the scenes are the old ones with
    their timestamps recalculated (the old ones exactly, when those were
    up to date), and the pre-call sequence is pushed on the history. *)
Theorem updateScene_unknown_id (st : Store) (sceneId : Z) (updates : ScenePatch) :
  (forall s, In s (scenes st) -> scene_id s <> sceneId) ->
  exists st',
    updateScene sceneId updates st = Normal undefined st'
    /\ scenes st' = calculateTimestamps (scenes st)
    /\ (calculateTimestamps (scenes st) = scenes st -> scenes st' = scenes st)
    /\ history st' = history (_pushHistory (scenes st) st)
    /\ historyIndex st' = historyIndex (_pushHistory (scenes st) st).
Proof.
  intros Hnone. eexists. split; [reflexivity|].
  rewrite (map_unmatched sceneId updates (scenes st) Hnone).
  rewrite SetFacts.set_scenes_scenes.
  split; [reflexivity|]. split; [auto|].
  apply set_scenes_history.
Qed.

Definition card (i : Z) (d : Q) (ts : string) : Scene :=
  {| scene_id := i; scene_type := "hook"; duration := d; timestamp := ts;
     prompt := Some "a street at night"%string; visual_fx := Some "static"%string;
     text_content := None |}.

(** Two scenes with up-to-date timestamps, one history entry. *)
Definition two_scenes : Store :=
  {| currentProject := None;
     scenes := [card 1 3 "0:00"; card 2 4 "0:03"]; selectedScene := None;
     history := [[card 1 3 "0:00"; card 2 4 "0:03"]]; historyIndex := 0 |}.

Lemma updateScene_unknown_id_witness :
  exists st',
    updateScene 7 empty_patch two_scenes = Normal undefined st'
    /\ scenes st' = calculateTimestamps (scenes two_scenes)
    /\ (calculateTimestamps (scenes two_scenes) = scenes two_scenes ->
        scenes st' = scenes two_scenes)
    /\ history st' = history (_pushHistory (scenes two_scenes) two_scenes)
    /\ historyIndex st' = historyIndex (_pushHistory (scenes two_scenes) two_scenes).
Proof.
  apply (updateScene_unknown_id two_scenes 7 empty_patch).
  simpl. intros s [<-|[<-|[]]]; simpl; lia.
Defined.

(** The call does not return a boolean flag, and it is not without
    effect: the history grows by an entry and the cursor moves. *)
Lemma updateScene_returns_no_flag :
  (exists st', updateScene 7 empty_patch two_scenes = Normal undefined st')
  /\ ~ (exists b st', updateScene 7 empty_patch two_scenes = Normal (boolean b) st')
  /\ scenes (store_of (updateScene 7 empty_patch two_scenes)) = scenes two_scenes
  /\ length (history (store_of (updateScene 7 empty_patch two_scenes))) = 2%nat
  /\ historyIndex (store_of (updateScene 7 empty_patch two_scenes)) = 1.
Proof.
  split; [eexists; reflexivity|].
  split; [intros [b [st' H]]; discriminate|].
  repeat split.
Qed.

End UpdateSceneProofs.

(** ** Scene lookup and the playback clock *)

Module PreviewProofs.
Import Preview.

(** Cumulative start of the scene at position [k]: the durations before
    it, added from 0 in order. *)
Definition start_of (k : nat) (scenes : list (Scene Q)) : Q :=
  fold_left Qplus (map duration (take k scenes)) 0%Q.

Definition positive_duration (s : Scene Q) : Prop := (0 < duration s)%Q.

(** Read the interface at the rationals. *)
Ltac exact_arith :=
  cbn [zero thousand add sub div geb ltb Math_max truthy exact] in *.

Lemma fold_durations (scenes : list (Scene Q)) : forall acc,
  fold_left (fun sum scene => add sum (duration scene)) scenes acc
  = fold_left Qplus (map duration scenes) acc.
Proof. induction scenes as [|s rest IH]; intros acc; simpl; [reflexivity | apply IH]. Qed.

Lemma fold_durations_ge (scenes : list (Scene Q)) : forall acc,
  Forall positive_duration scenes ->
  (acc <= fold_left Qplus (map duration scenes) acc)%Q.
Proof.
  induction scenes as [|s rest IH]; intros acc Hpos; simpl; [lra|].
  inversion Hpos as [|? ? Hs Hrest]; subst.
  specialize (IH (acc + duration s)%Q Hrest). unfold positive_duration in Hs. lra.
Qed.

Lemma geb_true a b : JS.geb a b = true <-> (b <= a)%Q.
Proof. unfold JS.geb. apply Qle_bool_iff. Qed.

Lemma ltb_true a b : JS.ltb a b = true <-> (a < b)%Q.
Proof.
  unfold JS.ltb. rewrite negb_true_iff. split.
  - intros H. apply Qnot_le_lt. intros Hle. apply Qle_bool_iff in Hle. congruence.
  - intros H. destruct (Qle_bool b a) eqn:E; [|reflexivity].
    apply Qle_bool_iff in E. lra.
Qed.

Lemma ltb_false a b : (b <= a)%Q -> JS.ltb a b = false.
Proof.
  intros H. destruct (JS.ltb a b) eqn:E; [|reflexivity].
  apply ltb_true in E. lra.
Qed.

(** Inside scene [k]'s interval the loop stops at scene [k]. *)
Lemma lookup_inside (scenes : list (Scene Q)) : forall acc k sc t,
  Forall positive_duration scenes ->
  scenes !! k = Some sc ->
  let start := fold_left Qplus (map duration (take k scenes)) acc in
  (start <= t)%Q -> (t < start + duration sc)%Q ->
  getCurrentScene_from acc t scenes
  = Some {| scene := sc; localTime := (t - start)%Q;
            progress := ((t - start) / duration sc)%Q |}.
Proof.
  induction scenes as [|s0 rest IH]; intros acc k sc t Hpos Hk start Hlo Hhi.
  - destruct k; discriminate.
  - inversion Hpos as [|? ? Hs0 Hrest]; subst.
    destruct k as [|k]; simpl in *; exact_arith.
    + injection Hk as ->. subst start.
      assert (E1 : JS.geb t acc = true) by now apply geb_true.
      assert (E2 : JS.ltb t (acc + duration sc) = true) by now apply ltb_true.
      now rewrite E1, E2.
    + pose proof (fold_durations_ge (take k rest) (acc + duration s0)%Q
                    (Forall_take _ _ _ Hrest)) as Hge.
      fold start in Hge.
      rewrite (ltb_false t (acc + duration s0)) by lra.
      rewrite andb_false_r.
      now apply (IH (acc + duration s0)%Q k sc t Hrest Hk).
Qed.

(** At or past the end of the last scene the loop runs out. *)
Lemma lookup_past_end (scenes : list (Scene Q)) : forall acc t,
  Forall positive_duration scenes ->
  (fold_left Qplus (map duration scenes) acc <= t)%Q ->
  getCurrentScene_from acc t scenes = None.
Proof.
  induction scenes as [|s0 rest IH]; intros acc t Hpos Hend; simpl in *; [reflexivity|].
  exact_arith.
  inversion Hpos as [|? ? Hs0 Hrest]; subst.
  pose proof (fold_durations_ge rest (acc + duration s0)%Q Hrest) as Hge.
  rewrite (ltb_false t (acc + duration s0)) by lra.
  rewrite andb_false_r. now apply IH.
Qed.

Lemma Math_max_ge_l a b : (a <= JS.Math_max a b)%Q.
Proof.
  unfold JS.Math_max. destruct (Qle_bool a b) eqn:E; [|lra].
  now apply Qle_bool_iff in E.
Qed.

Lemma progress_in_unit (t start d : Q) :
  (0 < d)%Q -> (start <= t)%Q -> (t < start + d)%Q ->
  (0 <= (t - start) / d)%Q /\ ((t - start) / d < 1)%Q.
Proof.
  intros Hd Hlo Hhi. split.
  - apply Qle_shift_div_l; [exact Hd | lra].
  - apply Qlt_shift_div_r; [exact Hd | lra].
Qed.

(** In exact arithmetic, with all durations positive: when the current
    time is inside scene [k]'s interval [[start, start + duration)],
    [getCurrentScene] returns scene [k] with its local time and the
    progress [(t - start) / duration], which lies in [[0, 1)]; when the
    current time is at or past the end of the scenes, and so whenever it
    is at or past [getTotalDuration()], it returns [null]. *)
Lemma getCurrentScene_exact (p : CanvasPreview Q) :
  Forall positive_duration (scenes p) ->
  (forall k sc,
      scenes p !! k = Some sc ->
      (start_of k (scenes p) <= currentTime p)%Q ->
      (currentTime p < start_of k (scenes p) + duration sc)%Q ->
      exists cur,
        getCurrentScene p = Some cur
        /\ scene cur = sc
        /\ localTime cur = (currentTime p - start_of k (scenes p))%Q
        /\ progress cur = ((currentTime p - start_of k (scenes p)) / duration sc)%Q
        /\ (0 <= progress cur)%Q /\ (progress cur < 1)%Q)
  /\ ((start_of (length (scenes p)) (scenes p) <= currentTime p)%Q ->
      getCurrentScene p = None)
  /\ ((getTotalDuration p <= currentTime p)%Q -> getCurrentScene p = None).
Proof.
  intros Hpos. split; [|split].
  - intros k sc Hk Hlo Hhi. unfold getCurrentScene, start_of in *. exact_arith.
    rewrite (lookup_inside (scenes p) 0%Q k sc (currentTime p) Hpos Hk Hlo Hhi).
    eexists. split; [reflexivity|]. simpl.
    repeat split; try reflexivity;
      apply (progress_in_unit (currentTime p) _ (duration sc)); try assumption.
    all: apply (Forall_lookup_1 _ _ _ _ Hpos Hk).
  - intros Hend. unfold getCurrentScene, start_of in *. exact_arith.
    rewrite firstn_all in Hend. now apply lookup_past_end.
  - intros Hend. unfold getCurrentScene. exact_arith.
    apply lookup_past_end; [exact Hpos|].
    unfold getTotalDuration in Hend. rewrite fold_durations in Hend. exact_arith.
    pose proof (Math_max_ge_l (fold_left Qplus (map duration (scenes p)) 0%Q)
                  (or_zero (overrideDuration p))) as Hmax.
    lra.
Qed.

Definition still (i : Z) (d : Q) : Scene Q :=
  {| id := i; type := "hook"; duration := d; visual_fx := Some "zoom_in"%string |}.

(** Scenes of 3s, 4s and 3s, the engine paused at 5s. *)
Definition at_five : CanvasPreview Q :=
  {| scenes := [still 1 3; still 2 4; still 3 3]; currentTime := 5%Q;
     isPlaying := false; lastFrameTime := 0%Q; animationId := None;
     overrideDuration := None; externalTimeSource := false |}.

Lemma at_five_positive : Forall positive_duration (scenes at_five).
Proof. repeat constructor; unfold positive_duration; simpl; lra. Qed.

Example getCurrentScene_exact_at_five :
  exists cur,
    getCurrentScene at_five = Some cur
    /\ scene cur = still 2 4
    /\ localTime cur = (currentTime at_five - start_of 1 (scenes at_five))%Q
    /\ progress cur
       = ((currentTime at_five - start_of 1 (scenes at_five)) / duration (still 2 4))%Q
    /\ (0 <= progress cur)%Q /\ (progress cur < 1)%Q.
Proof.
  apply (proj1 (getCurrentScene_exact at_five at_five_positive) 1%nat (still 2 4) eq_refl).
  - vm_compute. discriminate.
  - vm_compute. reflexivity.
Qed.



Section Lookup.
Context {N : Type} `{Arith N}.

(** The running total the loop holds on reaching position [k], counted
    from [from]: the durations before [k], added in order. *)
Definition accumulated_from (from : N) (k : nat) (scenes : list (Scene N)) : N :=
  fold_left add (map duration (take k scenes)) from.

Definition accumulated (k : nat) (scenes : list (Scene N)) : N :=
  accumulated_from zero k scenes.

(** The test of the loop on a scene, at the running total [acc]. *)
Definition inside (t acc : N) (sc : Scene N) : bool :=
  geb t acc && ltb t (add acc (duration sc)).




End Lookup.


(** Scenes of 1.2s, 1.4s, 1.4s and 2s, the current time one unit in the
    last place below 4. *)
Definition four_scenes {N : Type} (d1 d2 d3 d4 t : N) : CanvasPreview N :=
  {| scenes := [ {| id := 1; type := "hook"; duration := d1;
                    visual_fx := Some "zoom_in"%string |};
                 {| id := 2; type := "hook"; duration := d2;
                    visual_fx := Some "zoom_in"%string |};
                 {| id := 3; type := "hook"; duration := d3;
                    visual_fx := Some "zoom_in"%string |};
                 {| id := 4; type := "hook"; duration := d4;
                    visual_fx := Some "zoom_in"%string |} ];
     currentTime := t;
     isPlaying := false; lastFrameTime := t; animationId := None;
     overrideDuration := None; externalTimeSource := false |}.

(** The ends of the intervals are the rounded running totals: in
    binary64 [1.2 + 1.4 + 1.4] is the double just below 4, so that time
    already belongs to the fourth scene, at progress 0, whereas with the
    exact sums it is still inside the third. *)
Example interval_ends_are_rounded :
  (id <$> (scene <$> getCurrentScene
             (four_scenes 1.2 1.4 1.4 2 0x1.fffffffffffffp+1)%float)) = Some 4
  /\ (progress <$> getCurrentScene
        (four_scenes 1.2 1.4 1.4 2 0x1.fffffffffffffp+1)%float) = Some 0%float
  /\ (id <$> (scene <$> getCurrentScene
                (four_scenes (12 # 10) (14 # 10) (14 # 10) 2
                   (4 - (1 # 2251799813685248)))%Q)) = Some 3.
Proof. repeat split. Qed.







End PreviewProofs.

(** ** The zoom-in effect *)

Module EffectsProofs.
Import Effects.
Local Open Scope float_scope.

(** C9.  [easeInOut] is [2t*t] below one half and [-1 + (4 - 2t)*t] from
    there on; [applyZoomIn] scales both axes by the same factor
    [1.0 + (1.2 - 1.0) * easeInOut(progress)], about the canvas centre;
    in binary64 that factor is 1.0 at progress 0, 1.2 at progress 1, and
    at progress 0.5, where the curve gives 0.5, it is 1.1. *)
Theorem zoom_in_scale :
  (forall t, easeInOut t = if t <? 0.5 then 2 * t * t else -1 + (4 - 2 * t) * t)
  /\ (forall width height progress,
        applyZoomIn width height progress
        = [translate (width / 2) (height / 2);
           scale (1.0 + (1.2 - 1.0) * easeInOut progress)
                 (1.0 + (1.2 - 1.0) * easeInOut progress);
           translate (- (width / 2)) (- (height / 2))])
  /\ easeInOut 0 = 0 /\ easeInOut 0.25 = 0.125 /\ easeInOut 0.5 = 0.5
  /\ easeInOut 0.75 = 0.875 /\ easeInOut 1 = 1
  /\ zoomInScale 0 = 1.0
  /\ zoomInScale 1 = 1.2
  /\ zoomInScale 0.5 = 1.1
  /\ applyZoomIn 1080 1920 0.5 = [translate 540 960; scale 1.1 1.1; translate (-540) (-960)].
Proof. repeat split. Qed.

(** Progress values 0, 0.01, ..., 1. *)
Definition progress_grid : list float :=
  map (fun k => of_uint63 (Uint63.of_nat k) / 100) (seq 0 101).

Fixpoint nondecreasing (l : list float) : bool :=
  match l with
  | x :: (y :: _) as rest => if x <=? y then nondecreasing rest else false
  | _ => true
  end.

(** Along the grid the zoom-in factor never decreases and stays between
    1.0 and 1.2. *)
Example zoom_in_scale_on_grid :
  nondecreasing (map zoomInScale progress_grid) = true
  /\ forallb (fun t => if 1.0 <=? zoomInScale t then zoomInScale t <=? 1.2 else false)
             progress_grid = true.
Proof. split; vm_compute; reflexivity. Qed.

End EffectsProofs.

(** ** The store's methods on the states they lead to *)

Module StoreProofs.
Import Utils State HistoryProofs.

(** The history as the methods keep it: at most [MAX_HISTORY] entries,
    and the cursor is -1 exactly on an empty history and an index into it
    otherwise. *)
Definition tidy (st : Store) : Prop :=
  store_ok st /\ (historyIndex st = -1 -> history st = []).

(** A sequence that already carries the timestamps the calculator gives. *)
Definition fresh (l : list Scene) : Prop := calculateTimestamps l = l.

Lemma fresh_calculated l : fresh (calculateTimestamps l).
Proof. apply TimestampProofs.calculateTimestamps_idem. Qed.

Lemma tidy_of_tail st : at_tail st -> tidy st.
Proof.
  intros Ht. split; [apply in_range_ok, at_tail_in_range, Ht|].
  destruct Ht as [Hi Hl]. lia.
Qed.

Lemma tidy_cursor st :
  tidy st -> history st <> [] -> 0 <= historyIndex st < Z.of_nat (length (history st)).
Proof.
  intros [[Hcap Hidx] Hempty] Hne.
  destruct (Z.eq_dec (historyIndex st) (-1)) as [E|E]; [now apply Hempty in E|lia].
Qed.

(** With the cursor inside the history, loading the entry under it
    succeeds and touches nothing but the scenes. *)
Lemma load_current_normal st :
  0 <= historyIndex st < Z.of_nat (length (history st)) ->
  exists snapshot st',
    JS.index (history st) (historyIndex st) = Some snapshot
    /\ load_current st = Normal (boolean true) st'
    /\ scenes st' = calculateTimestamps snapshot
    /\ history st' = history st
    /\ historyIndex st' = historyIndex st
    /\ currentProject st' = currentProject st
    /\ selectedScene st' = selectedScene st.
Proof.
  intros Hin. destruct (index_in_range (history st) (historyIndex st) Hin) as [snap Hs].
  exists snap. unfold load_current. rewrite Hs. eexists. repeat split.
Qed.

Lemma nonempty_length {A} (l : list A) : l <> [] <-> 0 < Z.of_nat (length l).
Proof. destruct l; simpl; split; intros; try congruence; lia. Qed.

(** Every method completes normally on a tidy store and leaves it tidy. *)
Lemma perform_tidy m st :
  tidy st -> exists v st', perform m st = Normal v st' /\ tidy st'.
Proof.
  intros Ht. pose proof Ht as [[Hcap Hidx] Hempty].
  assert (Hin : history st <> [] ->
                0 <= historyIndex st < Z.of_nat (length (history st)))
    by (apply tidy_cursor, Ht).
  assert (Hload : forall h i, Z.of_nat (length h) <= MAX_HISTORY ->
            0 <= i < Z.of_nat (length h) ->
            exists v st', load_current (with_history st h i) = Normal v st' /\ tidy st').
  { intros h i Hc Hi.
    destruct (load_current_normal (with_history st h i) Hi)
      as [snap [st' [_ [E [_ [Hh [Hi' _]]]]]]].
    exists (boolean true), st'. split; [exact E|].
    simpl in Hh, Hi'. unfold tidy, store_ok. rewrite Hh, Hi'. split; lia. }
  destruct m as [project|scs saved|sel|index|index| |c]; simpl.
  - eexists _, _. split; [reflexivity|]. unfold tidy, store_ok, MAX_HISTORY. simpl.
    split; [lia | reflexivity].
  - eexists _, _. split; [reflexivity|]. unfold tidy, store_ok, MAX_HISTORY. simpl.
    split; lia.
  - eexists _, _. split; [reflexivity | exact Ht].
  - unfold jumpToHistory.
    destruct (Z.geb_spec index 0);
      destruct (Z.ltb_spec index (Z.of_nat (length (history st)))); simpl;
      try (eexists _, _; split; [reflexivity | exact Ht]).
    apply Hload; [exact Hcap | lia].
  - unfold deleteHistoryAt.
    destruct (Z.leb_spec index 0);
      destruct (Z.geb_spec index (Z.of_nat (length (history st)))); simpl;
      try (eexists _, _; split; [reflexivity | exact Ht]).
    assert (Hne : history st <> []) by (apply nonempty_length; lia).
    specialize (Hin Hne).
    assert (Hlen : length (delete (Z.to_nat index) (history st))
                   = (length (history st) - 1)%nat)
      by (apply length_delete, lookup_lt_is_Some_2; lia).
    apply Hload; rewrite Hlen; unfold MAX_HISTORY in *; [lia|].
    case_cmp; lia.
  - eexists _, _. split; [reflexivity|]. unfold tidy, store_ok, MAX_HISTORY. simpl.
    split; lia.
  - destruct c as [sid upd|sc|sid| |].
    + destruct (edit_at_tail (CallUpdateScene sid upd) st eq_refl (proj1 Ht))
        as [st' [E Htail]].
      exists undefined, st'. split; [exact E | now apply tidy_of_tail].
    + destruct (edit_at_tail (CallAddScene sc) st eq_refl (proj1 Ht))
        as [st' [E Htail]].
      exists undefined, st'. split; [exact E | now apply tidy_of_tail].
    + destruct (edit_at_tail (CallRemoveScene sid) st eq_refl (proj1 Ht))
        as [st' [E Htail]].
      exists undefined, st'. split; [exact E | now apply tidy_of_tail].
    + simpl. unfold undo. case_cmp.
      * apply Hload; [exact Hcap | lia].
      * eexists _, _. split; [reflexivity | exact Ht].
    + simpl. unfold redo. case_cmp.
      * apply Hload; [exact Hcap | lia].
      * eexists _, _. split; [reflexivity | exact Ht].
Qed.

Lemma constructor_tidy : tidy constructor.
Proof. split; [apply constructor_ok | reflexivity]. Qed.

Lemma reach_from_tidy ms : forall st,
  tidy st -> tidy (fold_left (fun st m => store_of (perform m st)) ms st).
Proof.
  induction ms as [|m ms IH]; intros st Ht; simpl; [exact Ht|].
  apply IH. destruct (perform_tidy m st Ht) as [v [st' [E Ht']]]. now rewrite E.
Qed.

(** X1.  In every store the methods lead to, the history has at most 20
    entries, the cursor is -1 exactly when the history is empty, and
    otherwise it is an index into the history. *)
Theorem reachable_history_shape (ms : list Method) :
  Z.of_nat (length (history (reach ms))) <= 20
  /\ (history (reach ms) = [] <-> historyIndex (reach ms) = -1)
  /\ (history (reach ms) <> [] ->
      0 <= historyIndex (reach ms) < Z.of_nat (length (history (reach ms)))).
Proof.
  pose proof (reach_from_tidy ms constructor constructor_tidy) as Ht.
  fold (reach ms) in Ht. pose proof Ht as [[Hcap Hidx] Hempty].
  unfold MAX_HISTORY in Hcap.
  split; [exact Hcap|]. split; [|now apply tidy_cursor].
  split; [|exact Hempty].
  intros E. rewrite E in Hidx. simpl in Hidx. lia.
Qed.

(** X2.  No method throws on a store the methods lead to: the snapshot a
    history method loads is always there. *)
Theorem reachable_never_throws (ms : list Method) (m : Method) :
  exists v st', perform m (reach ms) = Normal v st'.
Proof.
  destruct (perform_tidy m (reach ms) (reach_from_tidy ms constructor constructor_tidy))
    as [v [st' [E _]]].
  now exists v, st'.
Qed.

(** Timestamps are a function of the durations alone. *)
Lemma calculateTimestamps_from_fresh l : forall l' c,
  map duration l' = map duration l ->
  map timestamp l' = map timestamp l ->
  calculateTimestamps_from c l = l ->
  calculateTimestamps_from c l' = l'.
Proof.
  induction l as [|s l IH]; intros [|s' l'] c Hd Ht Hf; try discriminate; [reflexivity|].
  simpl in *. injection Hd as Hd0 Hd. injection Ht as Ht0 Ht. injection Hf as Hf0 Hf.
  f_equal.
  - destruct s', s; simpl in *. unfold with_timestamp in *. simpl in *.
    injection Hf0 as Hts. congruence.
  - rewrite Hd0. now apply IH.
Qed.

Lemma pushHistory_Forall (P : list Scene -> Prop) snapshot st :
  Forall P (history st) -> P snapshot -> Forall P (history (_pushHistory snapshot st)).
Proof.
  intros Hh Hs. unfold _pushHistory, JS.push, JS.shift, JS.slice0, deepClone.
  destruct (_ <? _); destruct (_ >? _); simpl;
    try apply Forall_tail; apply Forall_app; split;
    try apply Forall_take; auto.
Qed.

(** What the methods keep: a tidy history, and scenes and history
    entries that carry the calculator's timestamps. *)
Definition kept (st : Store) : Prop :=
  tidy st /\ fresh (scenes st) /\ Forall fresh (history st).

Lemma edit_scenes_fresh c st :
  is_edit c = true -> fresh (scenes (store_of (invoke c st))).
Proof.
  intros Hedit. destruct c as [sid upd|sc|sid| |]; try discriminate; simpl.
  - rewrite SetFacts.set_scenes_scenes. apply fresh_calculated.
  - rewrite SetFacts.set_scenes_scenes. apply fresh_calculated.
  - unfold removeScene.
    match goal with |- context [if ?b then _ else _] => destruct b end; simpl;
      rewrite SetFacts.set_scenes_scenes; apply fresh_calculated.
Qed.

Lemma load_current_fresh st :
  0 <= historyIndex st < Z.of_nat (length (history st)) ->
  Forall fresh (history st) ->
  fresh (scenes (store_of (load_current st)))
  /\ history (store_of (load_current st)) = history st.
Proof.
  intros Hin Hh.
  destruct (load_current_normal st Hin) as [snap [st' [Hs [E [Hsc [Hh' _]]]]]].
  rewrite E. simpl. split; [|exact Hh'].
  rewrite Hsc. apply fresh_calculated.
Qed.

Lemma perform_kept m st : kept st -> kept (store_of (perform m st)).
Proof.
  intros [Ht [Hs Hh]]. split.
  { destruct (perform_tidy m st Ht) as [v [st' [E Ht']]]. now rewrite E. }
  pose proof Ht as [[Hcap Hidx] Hempty].
  assert (Hin : history st <> [] ->
                0 <= historyIndex st < Z.of_nat (length (history st)))
    by (apply tidy_cursor, Ht).
  assert (Hload : forall h i, Forall fresh h -> 0 <= i < Z.of_nat (length h) ->
            fresh (scenes (store_of (load_current (with_history st h i))))
            /\ Forall fresh (history (store_of (load_current (with_history st h i))))).
  { intros h i Hf Hi.
    destruct (load_current_fresh (with_history st h i) Hi Hf) as [H1 H2].
    split; [exact H1 | now rewrite H2]. }
  destruct m as [project|scs saved|sel|index|index| |c]; simpl.
  - split; [reflexivity | constructor].
  - split; [apply fresh_calculated | repeat constructor; apply fresh_calculated].
  - split; assumption.
  - unfold jumpToHistory.
    destruct (Z.geb_spec index 0);
      destruct (Z.ltb_spec index (Z.of_nat (length (history st)))); simpl;
      try (split; assumption).
    apply Hload; [exact Hh | lia].
  - unfold deleteHistoryAt.
    destruct (Z.leb_spec index 0);
      destruct (Z.geb_spec index (Z.of_nat (length (history st)))); simpl;
      try (split; assumption).
    assert (Hne : history st <> []) by (apply nonempty_length; lia).
    specialize (Hin Hne).
    apply Hload; [now apply Forall_delete|].
    rewrite length_delete by (apply lookup_lt_is_Some_2; lia).
    case_cmp; lia.
  - split; [exact Hs | repeat constructor; exact Hs].
  - destruct c as [sid upd|sc|sid| |].
    + split; [now apply (edit_scenes_fresh (CallUpdateScene sid upd))|].
      destruct (edit_commits (CallUpdateScene sid upd) st eq_refl) as [st' [E [Hh' _]]].
      rewrite E. simpl. rewrite Hh'. now apply pushHistory_Forall.
    + split; [now apply (edit_scenes_fresh (CallAddScene sc))|].
      destruct (edit_commits (CallAddScene sc) st eq_refl) as [st' [E [Hh' _]]].
      rewrite E. simpl. rewrite Hh'. now apply pushHistory_Forall.
    + split; [now apply (edit_scenes_fresh (CallRemoveScene sid))|].
      destruct (edit_commits (CallRemoveScene sid) st eq_refl) as [st' [E [Hh' _]]].
      rewrite E. simpl. rewrite Hh'. now apply pushHistory_Forall.
    + simpl. unfold undo. case_cmp; [|split; assumption].
      apply Hload; [exact Hh | lia].
    + simpl. unfold redo. case_cmp; [|split; assumption].
      apply Hload; [exact Hh | lia].
Qed.

Lemma constructor_kept : kept constructor.
Proof. split; [apply constructor_tidy|]. split; [reflexivity | constructor]. Qed.

Lemma reach_from_kept ms : forall st,
  kept st -> kept (fold_left (fun st m => store_of (perform m st)) ms st).
Proof.
  induction ms as [|m ms IH]; intros st Hk; simpl; [exact Hk|].
  apply IH. now apply perform_kept.
Qed.

Lemma reach_kept ms : kept (reach ms).
Proof. apply reach_from_kept, constructor_kept. Qed.

(** X3.  In every store the methods lead to, the scenes and every
    history entry carry exactly the timestamps the calculator gives
    them: recalculating changes nothing. *)
Theorem reachable_timestamps_current (ms : list Method) :
  calculateTimestamps (scenes (reach ms)) = scenes (reach ms)
  /\ Forall (fun entry => calculateTimestamps entry = entry) (history (reach ms)).
Proof. destruct (reach_kept ms) as [_ [Hs Hh]]. split; assumption. Qed.

(** Loading the entry at an index inside the history of a store the
    methods lead to. *)
Lemma load_reachable_entry (ms : list Method) (i : Z) :
  0 <= i < Z.of_nat (length (history (reach ms))) ->
  exists entry st',
    JS.index (history (reach ms)) i = Some entry
    /\ load_current (with_history (reach ms) (history (reach ms)) i)
       = Normal (boolean true) st'
    /\ st' = {| currentProject := currentProject (reach ms); scenes := entry;
                selectedScene := selectedScene (reach ms);
                history := history (reach ms); historyIndex := i |}.
Proof.
  destruct (reach_kept ms) as [_ [_ Hh]]. intros Hi.
  destruct (load_current_normal (with_history (reach ms) (history (reach ms)) i) Hi)
    as [snap [st' [Hsnap [E [Hsc [Hh' [Hi' [Hp Hsel]]]]]]]].
  simpl in *. exists snap, st'. split; [exact Hsnap|]. split; [exact E|].
  assert (Hfresh : calculateTimestamps snap = snap).
  { unfold JS.index in Hsnap. destruct (i <? 0); [discriminate|].
    apply (Forall_lookup_1 _ _ _ _ Hh Hsnap). }
  destruct st'; simpl in *. f_equal; congruence.
Qed.

(** X4.  On a store the methods lead to, [undo] with the cursor above 0
    returns [true], moves the cursor one down and makes the scenes
    exactly the entry there; [redo] with the cursor below the last entry
    returns [true], moves it one up and makes the scenes exactly the
    entry there.  Neither changes the history, the project or the
    selection. *)
Theorem undo_redo_load_entry (ms : list Method) :
  (historyIndex (reach ms) > 0 ->
   exists entry st',
     JS.index (history (reach ms)) (historyIndex (reach ms) - 1) = Some entry
     /\ undo (reach ms) = Normal (boolean true) st'
     /\ st' = {| currentProject := currentProject (reach ms); scenes := entry;
                 selectedScene := selectedScene (reach ms);
                 history := history (reach ms);
                 historyIndex := historyIndex (reach ms) - 1 |})
  /\ (historyIndex (reach ms) < Z.of_nat (length (history (reach ms))) - 1 ->
      exists entry st',
        JS.index (history (reach ms)) (historyIndex (reach ms) + 1) = Some entry
        /\ redo (reach ms) = Normal (boolean true) st'
        /\ st' = {| currentProject := currentProject (reach ms); scenes := entry;
                    selectedScene := selectedScene (reach ms);
                    history := history (reach ms);
                    historyIndex := historyIndex (reach ms) + 1 |}).
Proof.
  destruct (reach_kept ms) as [[[Hcap Hidx] Hempty] _].
  split; intros H.
  - unfold undo. case_cmp; [|lia]. apply load_reachable_entry. lia.
  - unfold redo. case_cmp; [|lia]. apply load_reachable_entry. lia.
Qed.

Definition take_shot (i : Z) (d : Q) : Scene :=
  {| scene_id := i; scene_type := "hook"; duration := d; timestamp := "0:00";
     prompt := Some "a street at night"%string; visual_fx := Some "static"%string;
     text_content := None |}.

Definition lengthen (d : Q) : ScenePatch :=
  {| patch_scene_id := None; patch_scene_type := None; patch_duration := Some d;
     patch_timestamp := None; patch_prompt := None; patch_visual_fx := None;
     patch_text_content := None |}.

(** Two scenes are loaded and the first is lengthened twice. *)
Definition two_edits : list Method :=
  [DoSetScenes [take_shot 1 3; take_shot 2 4] None;
   DoCall (CallUpdateScene 1 (lengthen 5)); DoCall (CallUpdateScene 1 (lengthen 6))].

Lemma undo_redo_load_entry_witness :
  exists entry st',
    JS.index (history (reach two_edits)) (historyIndex (reach two_edits) - 1) = Some entry
    /\ undo (reach two_edits) = Normal (boolean true) st'
    /\ st' = {| currentProject := currentProject (reach two_edits); scenes := entry;
                selectedScene := selectedScene (reach two_edits);
                history := history (reach two_edits);
                historyIndex := historyIndex (reach two_edits) - 1 |}.
Proof.
  apply (proj1 (undo_redo_load_entry two_edits)). vm_compute. reflexivity.
Defined.

(** X5.  On a store the methods lead to, [undo] returns what [canUndo]
    says and [redo] what [canRedo] says. *)
Theorem can_undo_redo_agree (ms : list Method) :
  (exists st', undo (reach ms) = Normal (boolean (canUndo (reach ms))) st')
  /\ (exists st', redo (reach ms) = Normal (boolean (canRedo (reach ms))) st').
Proof.
  destruct (reach_kept ms) as [[[Hcap Hidx] Hempty] _].
  unfold canUndo, canRedo, undo, redo. split.
  - destruct (historyIndex (reach ms) >? 0) eqn:E.
    + destruct (load_reachable_entry ms (historyIndex (reach ms) - 1))
        as [entry [st' [_ [H _]]]]; [rewrite Z.gtb_ltb in E; lia|].
      now exists st'.
    + now exists (reach ms).
  - destruct (historyIndex (reach ms) <? Z.of_nat (length (history (reach ms))) - 1) eqn:E.
    + destruct (load_reachable_entry ms (historyIndex (reach ms) + 1))
        as [entry [st' [_ [H _]]]]; [lia|]. now exists st'.
    + now exists (reach ms).
Qed.

Lemma reachable_history_shape_witness :
  0 <= historyIndex (reach two_edits) < Z.of_nat (length (history (reach two_edits))).
Proof.
  apply (proj2 (proj2 (reachable_history_shape two_edits))). vm_compute. discriminate.
Defined.

End StoreProofs.

(** ** History navigation, loading and the scene edits *)

Module StoreMethodProofs.
Import Utils State HistoryProofs StoreProofs.

Lemma load_entry (ms : list Method) (h : list (list Scene)) (i : Z) :
  Forall fresh h ->
  0 <= i < Z.of_nat (length h) ->
  exists entry st',
    JS.index h i = Some entry
    /\ load_current (with_history (reach ms) h i) = Normal (boolean true) st'
    /\ st' = {| currentProject := currentProject (reach ms); scenes := entry;
                selectedScene := selectedScene (reach ms);
                history := h; historyIndex := i |}.
Proof.
  intros Hh Hi.
  destruct (load_current_normal (with_history (reach ms) h i) Hi)
    as [snap [st' [Hsnap [E [Hsc [Hh' [Hi' [Hp Hsel]]]]]]]].
  simpl in *. exists snap, st'. split; [exact Hsnap|]. split; [exact E|].
  assert (Hfresh : calculateTimestamps snap = snap).
  { unfold JS.index in Hsnap. destruct (i <? 0); [discriminate|].
    apply (Forall_lookup_1 _ _ _ _ Hh Hsnap). }
  destruct st'; simpl in *. f_equal; congruence.
Qed.

(** X6.  [jumpToHistory] with an index outside the history returns
    [false] and leaves any store as it is.  On a store the methods lead
    to, an index inside the history returns [true], puts the cursor there
    and makes the scenes exactly that entry; and [undo] is the jump one
    entry back. *)
Theorem jumpToHistory_spec (ms : list Method) (index : Z) :
  (forall st, index < 0 \/ Z.of_nat (length (history st)) <= index ->
              jumpToHistory index st = Normal (boolean false) st)
  /\ (0 <= index < Z.of_nat (length (history (reach ms))) ->
      exists entry st',
        JS.index (history (reach ms)) index = Some entry
        /\ jumpToHistory index (reach ms) = Normal (boolean true) st'
        /\ st' = {| currentProject := currentProject (reach ms); scenes := entry;
                    selectedScene := selectedScene (reach ms);
                    history := history (reach ms); historyIndex := index |})
  /\ (historyIndex (reach ms) > 0 ->
      undo (reach ms) = jumpToHistory (historyIndex (reach ms) - 1) (reach ms)).
Proof.
  destruct (reach_kept ms) as [[[Hcap Hidx] Hempty] [Hs Hh]].
  split; [|split].
  - intros st Hout. unfold jumpToHistory.
    destruct (Z.geb_spec index 0);
      destruct (Z.ltb_spec index (Z.of_nat (length (history st)))); simpl;
      try reflexivity; lia.
  - intros Hin. unfold jumpToHistory.
    destruct (Z.geb_spec index 0);
      destruct (Z.ltb_spec index (Z.of_nat (length (history (reach ms))))); simpl;
      try lia.
    now apply load_entry.
  - intros Hpos. unfold undo, jumpToHistory.
    rewrite (Z.gtb_ltb (historyIndex (reach ms)) 0).
    destruct (Z.ltb_spec 0 (historyIndex (reach ms))); [|lia].
    destruct (Z.geb_spec (historyIndex (reach ms) - 1) 0);
      destruct (Z.ltb_spec (historyIndex (reach ms) - 1)
                  (Z.of_nat (length (history (reach ms))))); simpl;
      try reflexivity; lia.
Qed.

Lemma jumpToHistory_spec_witness :
  exists entry st',
    JS.index (history (reach two_edits)) 0 = Some entry
    /\ jumpToHistory 0 (reach two_edits) = Normal (boolean true) st'
    /\ st' = {| currentProject := currentProject (reach two_edits); scenes := entry;
                selectedScene := selectedScene (reach two_edits);
                history := history (reach two_edits); historyIndex := 0 |}.
Proof.
  apply (proj1 (proj2 (jumpToHistory_spec two_edits 0))). vm_compute.
  split; [discriminate | reflexivity].
Defined.

(** X7.  [deleteHistoryAt] refuses index 0, negative indices and indices
    past the history: it returns [false] and leaves any store as it is.
    On a store the methods lead to, an index from 1 up to the last entry
    returns [true] and removes exactly that entry; the first entry stays,
    a cursor at or after the index moves one down, and the scenes become
    the entry under the cursor. *)
Theorem deleteHistoryAt_spec (ms : list Method) (index : Z) :
  (forall st, index <= 0 \/ Z.of_nat (length (history st)) <= index ->
              deleteHistoryAt index st = Normal (boolean false) st)
  /\ (0 < index < Z.of_nat (length (history (reach ms))) ->
      let cursor := if historyIndex (reach ms) >=? index
                    then historyIndex (reach ms) - 1 else historyIndex (reach ms) in
      exists entry st',
        JS.index (delete (Z.to_nat index) (history (reach ms))) cursor = Some entry
        /\ deleteHistoryAt index (reach ms) = Normal (boolean true) st'
        /\ st' = {| currentProject := currentProject (reach ms); scenes := entry;
                    selectedScene := selectedScene (reach ms);
                    history := delete (Z.to_nat index) (history (reach ms));
                    historyIndex := cursor |}
        /\ head (history st') = head (history (reach ms))
        /\ length (history st') = (length (history (reach ms)) - 1)%nat).
Proof.
  pose proof (reach_kept ms) as [Ht [Hs Hh]].
  pose proof Ht as [[Hcap Hidx] Hempty].
  split.
  - intros st Hout. unfold deleteHistoryAt.
    destruct (Z.leb_spec index 0);
      destruct (Z.geb_spec index (Z.of_nat (length (history st)))); simpl;
      try reflexivity; lia.
  - intros Hin cursor. unfold deleteHistoryAt.
    destruct (Z.leb_spec index 0);
      destruct (Z.geb_spec index (Z.of_nat (length (history (reach ms))))); simpl;
      try lia.
    assert (Hne : history (reach ms) <> []) by (apply nonempty_length; lia).
    pose proof (tidy_cursor _ Ht Hne) as Hcur.
    assert (Hlen : length (delete (Z.to_nat index) (history (reach ms)))
                   = (length (history (reach ms)) - 1)%nat)
      by (apply length_delete, lookup_lt_is_Some_2; lia).
    assert (Hsame : (if historyIndex (reach ms) >=? index
                     then Z.max 0 (historyIndex (reach ms) - 1)
                     else historyIndex (reach ms)) = cursor).
    { unfold cursor. case_cmp; lia. }
    rewrite Hsame.
    destruct (load_entry ms (delete (Z.to_nat index) (history (reach ms))) cursor)
      as [entry [st' [He [E Hst]]]].
    + now apply Forall_delete.
    + rewrite Hlen. unfold cursor. case_cmp; lia.
    + exists entry, st'. repeat (split; [assumption|]). subst st'. simpl.
      split; [|exact Hlen].
      destruct (history (reach ms)) as [|e0 h]; [contradiction|].
      destruct (Z.to_nat index) as [|n] eqn:En; [lia | reflexivity].
Qed.

Lemma deleteHistoryAt_spec_witness :
  exists entry st',
    JS.index (delete (Z.to_nat 1) (history (reach two_edits))) 1 = Some entry
    /\ deleteHistoryAt 1 (reach two_edits) = Normal (boolean true) st'
    /\ st' = {| currentProject := currentProject (reach two_edits); scenes := entry;
                selectedScene := selectedScene (reach two_edits);
                history := delete (Z.to_nat 1) (history (reach two_edits));
                historyIndex := 1 |}
    /\ head (history st') = head (history (reach two_edits))
    /\ length (history st') = (length (history (reach two_edits)) - 1)%nat.
Proof.
  apply (proj2 (deleteHistoryAt_spec two_edits 1)). vm_compute. split; reflexivity.
Defined.

(** X8.  [setScenes] and [clearHistory] set the undo floor.  After
    [setScenes] the scenes are the calculated form of the saved copy when
    there is a non-empty one and of the argument otherwise, and the
    history is that one sequence; after [clearHistory] the scenes are
    untouched and the history is that one sequence.  In both cases [undo]
    and [redo] then return [false] and change nothing. *)
Theorem setScenes_clearHistory_floor (st : Store) (scenes' : list Scene)
    (savedScenes : option (list Scene)) :
  let used := match savedScenes with Some (s :: l) => s :: l | _ => scenes' end in
  let loaded := store_of (setScenes scenes' savedScenes st) in
  let cleared := store_of (clearHistory st) in
  loaded = {| currentProject := currentProject st; scenes := calculateTimestamps used;
              selectedScene := selectedScene st;
              history := [calculateTimestamps used]; historyIndex := 0 |}
  /\ cleared = {| currentProject := currentProject st; scenes := scenes st;
                  selectedScene := selectedScene st;
                  history := [scenes st]; historyIndex := 0 |}
  /\ undo loaded = Normal (boolean false) loaded
  /\ redo loaded = Normal (boolean false) loaded
  /\ undo cleared = Normal (boolean false) cleared
  /\ redo cleared = Normal (boolean false) cleared.
Proof. repeat split. Qed.

Lemma calculateTimestamps_from_ids l : forall c,
  map scene_id (calculateTimestamps_from c l) = map scene_id l.
Proof. induction l as [|s l IH]; intros c; simpl; [reflexivity | now rewrite IH]. Qed.

Lemma calculateTimestamps_from_durations l : forall c,
  map duration (calculateTimestamps_from c l) = map duration l.
Proof. induction l as [|s l IH]; intros c; simpl; [reflexivity | now rewrite IH]. Qed.

(** The ids 1, 2, ..., as [imap] numbers them. *)
Lemma resequenced_ids (l : list Scene) :
  map scene_id (imap resequence l) = seqZ 1 (Z.of_nat (length l)).
Proof.
  change (map scene_id (imap resequence l)) with (scene_id <$> imap resequence l).
  rewrite fmap_imap.
  rewrite (imap_ext _ (fun i _ => Z.of_nat i + 1)) by reflexivity.
  rewrite (imap_seq_0 l (fun i => Z.of_nat i + 1)).
  unfold seqZ. now rewrite Nat2Z.id.
Qed.

Lemma expected_ids {A} (l : list A) :
  imap (fun i _ => Z.of_nat i + 1) l = seqZ 1 (Z.of_nat (length l)).
Proof.
  rewrite (imap_seq_0 l (fun i => Z.of_nat i + 1)).
  unfold seqZ. now rewrite Nat2Z.id.
Qed.

Lemma insert_sorted_below x l :
  (forall y, head l = Some y -> x <= y) -> Validation.insert_sorted x l = x :: l.
Proof.
  destruct l as [|y l]; intros H; simpl; [reflexivity|].
  specialize (H y eq_refl). destruct (Z.leb_spec x y); [reflexivity | lia].
Qed.

Lemma sort_numeric_seqZ (n : nat) : forall m,
  Validation.sort_numeric (seqZ m (Z.of_nat n)) = seqZ m (Z.of_nat n).
Proof.
  induction n as [|n IH]; intros m; [reflexivity|].
  rewrite seqZ_cons by lia.
  replace (Z.pred (Z.of_nat (S n))) with (Z.of_nat n) by lia.
  unfold Validation.sort_numeric in *. simpl. rewrite IH.
  apply insert_sorted_below. intros y Hy.
  destruct n as [|n]; [discriminate|].
  rewrite seqZ_cons in Hy by lia. simpl in Hy. injection Hy as <-. lia.
Qed.

Lemma remove_dups_NoDup (l : list Z) : NoDup l -> remove_dups l = l.
Proof.
  induction 1 as [|x l Hx Hl IH]; simpl; [reflexivity|].
  destruct (decide_rel elem_of x l); [contradiction | now rewrite IH].
Qed.

Lemma rule2_3_sequential (l : list Scene) :
  map scene_id l = seqZ 1 (Z.of_nat (length l)) -> Validation.rule2_3 l = [].
Proof.
  intros Hids. unfold Validation.rule2_3, Validation.Set_size.
  rewrite expected_ids, Hids, sort_numeric_seqZ.
  rewrite (remove_dups_NoDup _ (NoDup_seqZ _ _)).
  rewrite Nat.eqb_refl. rewrite bool_decide_eq_true_2 by reflexivity. reflexivity.
Qed.

(** X9.  [removeScene] drops every scene with the given id and renumbers
    the rest 1, 2, ... in order, whatever the ids were before; the
    durations of the remaining scenes are kept, the validator then has no
    scene-id diagnostic, and a selection with the removed id is cleared. *)
Theorem removeScene_resequences (st : Store) (sceneId : Z) :
  let remaining := filter (fun s => scene_id s <> sceneId) (scenes st) in
  let st' := store_of (removeScene sceneId st) in
  map scene_id (scenes st') = seqZ 1 (Z.of_nat (length remaining))
  /\ map duration (scenes st') = map duration remaining
  /\ Validation.rule2_3 (scenes st') = []
  /\ (forall sel, selectedScene st = Some sel -> scene_id sel = sceneId ->
                  selectedScene st' = None)
  /\ (forall pd, List.filter (fun d => String.eqb (Validation.field d) "scene_id")
                   (Validation.validateProject (scenes st') pd) = []).
Proof.
  intros remaining st'.
  assert (Hsc : scenes st' = calculateTimestamps (imap resequence remaining)).
  { unfold st', removeScene.
    match goal with |- context [if ?b then _ else _] => destruct b end; simpl;
      apply SetFacts.set_scenes_scenes. }
  assert (Hids : map scene_id (scenes st') = seqZ 1 (Z.of_nat (length remaining))).
  { rewrite Hsc. unfold calculateTimestamps.
    rewrite calculateTimestamps_from_ids. apply resequenced_ids. }
  assert (Hlen : length (scenes st') = length remaining).
  { rewrite Hsc. unfold calculateTimestamps.
    now rewrite TimestampProofs.calculateTimestamps_from_length, length_imap. }
  assert (Hrule : Validation.rule2_3 (scenes st') = []).
  { apply rule2_3_sequential. now rewrite Hlen. }
  split; [exact Hids|]. split; [|split; [exact Hrule|split]].
  - rewrite Hsc. unfold calculateTimestamps. rewrite calculateTimestamps_from_durations.
    change (map duration (imap resequence remaining))
      with (duration <$> imap resequence remaining).
    rewrite fmap_imap.
    rewrite (imap_ext _ (fun _ s => duration s)) by reflexivity.
    clear. induction remaining as [|s l IH]; [reflexivity|].
    simpl. f_equal. exact IH.
  - intros sel Hsel Hid. unfold st', removeScene.
    assert (E : selectedScene
                  (set (scenes_update (imap resequence remaining) false) false st)
                = Some sel).
    { unfold set, _pushHistory. simpl.
      destruct (_ <? _); destruct (_ >? _); exact Hsel. }
    fold remaining. rewrite E, Hid, Z.eqb_refl. reflexivity.
  - intros pd. unfold Validation.validateProject.
    destruct (scenes st') as [|s0 rest] eqn:Esc; [reflexivity|].
    rewrite !List.filter_app, Hrule.
    assert (H1 : forall l, List.filter
                   (fun d => String.eqb (Validation.field d) "scene_id")
                   (concat (map Validation.validateScene l)) = []).
    { induction l as [|s l IH]; [reflexivity|]. simpl.
      rewrite List.filter_app, IH, app_nil_r.
      unfold Validation.validateScene, Validation.rule1, Validation.rule6,
        Validation.rule7, Validation.rule8.
      rewrite !List.filter_app.
      destruct (_ || _); destruct (_ && _); destruct (_ && _);
        destruct (visual_fx s); try destruct (_ && _); reflexivity. }
    assert (H4 : forall l c, List.filter
                   (fun d => String.eqb (Validation.field d) "scene_id")
                   (Validation.rule4_from c l) = []).
    { induction l as [|s l IH]; intros c; [reflexivity|]. simpl.
      rewrite List.filter_app, IH. now destruct (String.eqb _ _). }
    rewrite H1, H4. simpl.
    unfold Validation.rule5. destruct pd as [pd|]; [|reflexivity].
    destruct (JS.gtb pd 0); [|reflexivity]. now destruct (negb _).
Qed.

Lemma calculateTimestamps_from_app l : forall c s,
  calculateTimestamps_from c (l ++ [s])
  = calculateTimestamps_from c l
      ++ [with_timestamp s
            (formatTimestamp (fold_left (fun sum sc => (sum + duration sc)%Q) l c))].
Proof.
  induction l as [|s0 l IH]; intros c s; simpl; [reflexivity|].
  now rewrite IH.
Qed.

(** X10.  On a store the methods lead to, [addScene] leaves the scenes
    that were there exactly as they are and puts the new scene last, with
    the formatted total duration of the others as its timestamp. *)
Theorem addScene_appends (ms : list Method) (scene : Scene) :
  scenes (store_of (addScene scene (reach ms)))
  = scenes (reach ms)
      ++ [with_timestamp scene (formatTimestamp (getTotalDuration (scenes (reach ms))))].
Proof.
  destruct (reach_kept ms) as [_ [Hs _]].
  unfold addScene. simpl. rewrite SetFacts.set_scenes_scenes.
  unfold calculateTimestamps. rewrite calculateTimestamps_from_app.
  unfold fresh, calculateTimestamps in Hs. rewrite Hs. reflexivity.
Qed.

(** X11.  On a store the methods lead to, [updateScene] keeps the
    number of scenes, and a scene whose id is not the given one keeps
    every field but, possibly, its timestamp.  A patch that sets neither
    duration nor timestamp changes no timestamp at all: the scenes are
    the old ones with the patch merged into those that have the id. *)
Theorem updateScene_touches_only_matches (ms : list Method) (sceneId : Z)
    (updates : ScenePatch) :
  let st' := store_of (updateScene sceneId updates (reach ms)) in
  length (scenes st') = length (scenes (reach ms))
  /\ (forall i s, scenes (reach ms) !! i = Some s -> scene_id s <> sceneId ->
        exists ts, scenes st' !! i = Some (with_timestamp s ts))
  /\ (patch_duration updates = None -> patch_timestamp updates = None ->
      scenes st'
      = map (fun s => if scene_id s =? sceneId then spread s updates else s)
            (scenes (reach ms))).
Proof.
  intros st'. destruct (reach_kept ms) as [_ [Hs _]].
  set (f := fun s => if scene_id s =? sceneId then spread s updates else s).
  assert (Hsc : scenes st' = calculateTimestamps (map f (scenes (reach ms))))
    by (unfold st', updateScene; simpl; apply SetFacts.set_scenes_scenes).
  split; [|split].
  - rewrite Hsc. unfold calculateTimestamps.
    now rewrite TimestampProofs.calculateTimestamps_from_length, length_map.
  - intros i s Hi Hid. rewrite Hsc. unfold calculateTimestamps.
    assert (Hfi : map f (scenes (reach ms)) !! i = Some s).
    { change (map f (scenes (reach ms))) with (f <$> scenes (reach ms)).
      rewrite list_lookup_fmap, Hi. simpl. unfold f.
      destruct (Z.eqb_spec (scene_id s) sceneId); [contradiction | reflexivity]. }
    rewrite (TimestampProofs.calculateTimestamps_from_lookup _ _ _ _ Hfi).
    eexists. reflexivity.
  - intros Hd Ht. rewrite Hsc.
    apply (calculateTimestamps_from_fresh (scenes (reach ms))); [| |exact Hs].
    + rewrite map_map. apply map_ext. intros s. unfold f.
      destruct (scene_id s =? sceneId); [|reflexivity].
      unfold spread. simpl. now rewrite Hd.
    + rewrite map_map. apply map_ext. intros s. unfold f.
      destruct (scene_id s =? sceneId); [|reflexivity].
      unfold spread. simpl. now rewrite Ht.
Qed.

Definition set_effect (fx : string) : ScenePatch :=
  {| patch_scene_id := None; patch_scene_type := None; patch_duration := None;
     patch_timestamp := None; patch_prompt := None; patch_visual_fx := Some fx;
     patch_text_content := None |}.

Lemma updateScene_touches_only_matches_witness :
  scenes (store_of (updateScene 2 (set_effect "fade") (reach two_edits)))
  = map (fun s => if scene_id s =? 2 then spread s (set_effect "fade") else s)
        (scenes (reach two_edits)).
Proof.
  apply (proj2 (proj2 (updateScene_touches_only_matches two_edits 2 (set_effect "fade"))));
    reflexivity.
Defined.

(** An edit with the cursor on the last entry appends the pre-edit
    sequence, and at the cap drops the oldest entry to make room. *)
Lemma push_at_tail snapshot st :
  store_ok st ->
  historyIndex st = Z.of_nat (length (history st)) - 1 ->
  (Z.of_nat (length (history st)) < MAX_HISTORY ->
   history (_pushHistory snapshot st) = history st ++ [snapshot]
   /\ historyIndex (_pushHistory snapshot st) = historyIndex st + 1)
  /\ (Z.of_nat (length (history st)) = MAX_HISTORY ->
      history (_pushHistory snapshot st) = tail (history st) ++ [snapshot]
      /\ historyIndex (_pushHistory snapshot st) = historyIndex st).
Proof.
  intros [Hcap Hidx] Htail.
  unfold _pushHistory, JS.push, JS.shift, deepClone, MAX_HISTORY in *.
  destruct (Z.ltb_spec (historyIndex st) (Z.of_nat (length (history st)) - 1)); [lia|].
  rewrite Z.gtb_ltb.
  destruct (Z.ltb_spec 20 (Z.of_nat (length (history st ++ [snapshot]))))
    as [Hover|Hfit]; rewrite length_app in *; simpl in *.
  - split; intros Hl; [lia|]. simpl.
    destruct (history st) as [|e h]; [simpl in *; lia | split; reflexivity].
  - split; intros Hl; [split; reflexivity | lia].
Qed.

(** X12.  On a store the methods lead to, an edit made with the cursor
    on the last entry appends the pre-edit sequence to the history; when
    the history already has 20 entries the oldest entry is dropped, so
    the length stays 20 and the cursor stays 19. *)
Theorem edit_appends_or_evicts (ms : list Method) (c : Call) :
  is_edit c = true ->
  historyIndex (reach ms) = Z.of_nat (length (history (reach ms))) - 1 ->
  let st' := store_of (invoke c (reach ms)) in
  (Z.of_nat (length (history (reach ms))) < 20 ->
   history st' = history (reach ms) ++ [scenes (reach ms)]
   /\ historyIndex st' = historyIndex (reach ms) + 1)
  /\ (Z.of_nat (length (history (reach ms))) = 20 ->
      history st' = tail (history (reach ms)) ++ [scenes (reach ms)]
      /\ historyIndex st' = 19).
Proof.
  intros Hedit Htail st'.
  destruct (edit_commits c (reach ms) Hedit) as [st1 [E [Hh Hi]]].
  assert (st' = st1) as -> by (unfold st'; now rewrite E).
  destruct (push_at_tail (scenes (reach ms)) (reach ms) (reach_ok ms) Htail) as [Hlt Heq].
  unfold MAX_HISTORY in *. rewrite Hh, Hi. split; intros Hl.
  - now apply Hlt.
  - destruct (Heq Hl) as [H1 H2]. split; [exact H1 | lia].
Qed.

(** One scene is loaded and retimed nineteen times: the history is full. *)
Definition full_history : list Method :=
  DoSetScenes [take_shot 1 3] None
    :: replicate 19 (DoCall (CallUpdateScene 1 (lengthen 5))).

Lemma edit_appends_or_evicts_witness :
  history (store_of (invoke (CallAddScene (take_shot 2 4)) (reach full_history)))
  = tail (history (reach full_history)) ++ [scenes (reach full_history)]
  /\ historyIndex (store_of (invoke (CallAddScene (take_shot 2 4)) (reach full_history)))
     = 19.
Proof.
  apply (proj2 (edit_appends_or_evicts full_history (CallAddScene (take_shot 2 4))
                  eq_refl eq_refl)).
  vm_compute. reflexivity.
Defined.

(** Two scenes, the second selected. *)
Definition second_selected : Store :=
  {| currentProject := None; scenes := [take_shot 1 3; take_shot 2 4];
     selectedScene := Some (take_shot 2 4);
     history := [[take_shot 1 3; take_shot 2 4]]; historyIndex := 0 |}.

Lemma removeScene_resequences_witness :
  selectedScene (store_of (removeScene 2 second_selected)) = None.
Proof.
  apply (proj1 (proj2 (proj2 (proj2 (removeScene_resequences second_selected 2))))
           (take_shot 2 4)); reflexivity.
Defined.

End StoreMethodProofs.

(** ** validation.js: queries over a diagnostics list *)

Module ValidationQueries.
Import Utils Validation.

(** [errors.filter(e => e.sceneId === sceneId)]; the id asked for is a
    number or [null]. *)
Definition getSceneErrors (errors : list Diagnostic) (sceneId' : option Z)
  : list Diagnostic :=
  List.filter (fun e => bool_decide (sceneId e = sceneId')) errors.

(** [errors.filter(e => e.sceneId === sceneId && e.field === field)]. *)
Definition getFieldErrors (errors : list Diagnostic) (sceneId' : option Z)
    (field' : string) : list Diagnostic :=
  List.filter (fun e => bool_decide (sceneId e = sceneId') && String.eqb (field e) field')
              errors.

Definition is_error (e : Diagnostic) : bool :=
  match type e with ERROR => true | WARNING => false end.

Definition is_warning (e : Diagnostic) : bool :=
  match type e with WARNING => true | ERROR => false end.

(** The object [getErrorCounts] returns. *)
Record ErrorCounts := mkCounts {
  errors_count : nat;
  warnings_count : nat;
  total_count : nat
}.

Definition getErrorCounts (errors : list Diagnostic) : ErrorCounts :=
  {| errors_count := length (List.filter is_error errors);
     warnings_count := length (List.filter is_warning errors);
     total_count := length errors |}.

End ValidationQueries.

(** ** editor.js: the validation panel *)

Module EditorView.
Import Utils Validation.

(** [isFixableError(error)]. *)
Definition isFixableError (error : Diagnostic) : bool :=
  if fixable error then true
  else if String.eqb (field error) "duration"
          && match sceneId error with None => true | Some _ => false end
          && JS.str_includes (message error) "doesn't match project"
  then true
  else if String.eqb (field error) "visual_fx"
          && match sceneId error with None => false | Some _ => true end
  then true
  else false.

(** [a.sceneId || 0]. *)
Definition sceneId_or_zero (e : Diagnostic) : Z := default 0 (sceneId e).

(** The comparator of [renderValidation]: errors first, then by scene id. *)
Definition compare (a b : Diagnostic) : Z :=
  match type a, type b with
  | ERROR, WARNING => -1
  | WARNING, ERROR => 1
  | _, _ => sceneId_or_zero a - sceneId_or_zero b
  end.

(** [[...errors].sort(compare)].  The sort is stable, so with this
    comparator its result is the stable insertion of each element before
    the first one it does not come after. *)
Fixpoint insert (x : Diagnostic) (l : list Diagnostic) : list Diagnostic :=
  match l with
  | [] => [x]
  | y :: l' => if compare x y <=? 0 then x :: l else y :: insert x l'
  end.

Definition sorted (errors : list Diagnostic) : list Diagnostic :=
  foldr insert [] errors.

End EditorView.

(** ** More on the validator *)

Module ValidatorProofs.
Import Utils Validation ValidationQueries.

Lemma counts_split (l : list Diagnostic) :
  length l = (length (List.filter is_error l) + length (List.filter is_warning l))%nat.
Proof.
  induction l as [|d l IH]; [reflexivity|].
  simpl. unfold is_error at 1, is_warning at 1.
  destruct (type d); simpl; lia.
Qed.

Lemma blocking_iff_error (l : list Diagnostic) :
  hasBlockingErrors l = true <-> exists d, In d l /\ type d = ERROR.
Proof.
  unfold hasBlockingErrors. rewrite existsb_exists. split.
  - intros [d [Hin Hd]]. exists d. split; [exact Hin|]. now destruct (type d).
  - intros [d [Hin Hd]]. exists d. split; [exact Hin|]. now rewrite Hd.
Qed.

(** X13.  [getErrorCounts] splits the list: the total is the number of
    errors plus the number of warnings.  [hasBlockingErrors] is [true]
    exactly when the error count is not 0, that is when some diagnostic is
    an error, and [false] exactly when every diagnostic is a warning. *)
Theorem error_counts_add_up (errors : list Diagnostic) :
  total_count (getErrorCounts errors)
  = (errors_count (getErrorCounts errors) + warnings_count (getErrorCounts errors))%nat
  /\ (hasBlockingErrors errors = true <-> (0 < errors_count (getErrorCounts errors))%nat)
  /\ (hasBlockingErrors errors = true <-> exists d, In d errors /\ type d = ERROR)
  /\ (hasBlockingErrors errors = false <-> Forall (fun d => type d = WARNING) errors).
Proof.
  split; [apply counts_split|]. split; [|split; [apply blocking_iff_error|]].
  - simpl. induction errors as [|d l IH]; simpl; [split; [discriminate | lia]|].
    unfold is_error at 1. destruct (type d); simpl; [split; intros; [lia | reflexivity]|].
    exact IH.
  - induction errors as [|d l IH]; simpl; [split; [constructor | reflexivity]|].
    destruct (type d) eqn:E; simpl.
    + split; [discriminate|]. intros H. inversion H; subst. congruence.
    + rewrite IH. split; [intros H; now constructor | intros H; now inversion H].
Qed.

Lemma filter_filter {A} (f g : A -> bool) (l : list A) :
  List.filter f (List.filter g l) = List.filter (fun x => g x && f x) l.
Proof.
  induction l as [|x l IH]; [reflexivity|]. simpl.
  destruct (g x); simpl; [destruct (f x); now rewrite IH | exact IH].
Qed.

Lemma filter_all {A} (f : A -> bool) (l : list A) :
  Forall (fun x => f x = true) l -> List.filter f l = l.
Proof. induction 1 as [|x l Hx _ IH]; simpl; [reflexivity | now rewrite Hx, IH]. Qed.

Lemma filter_none {A} (f : A -> bool) (l : list A) :
  Forall (fun x => f x = false) l -> List.filter f l = [].
Proof. induction 1 as [|x l Hx _ IH]; simpl; [reflexivity | now rewrite Hx, IH]. Qed.

(** Every diagnostic of a scene carries that scene's id. *)
Lemma validateScene_ids (s : Scene) :
  Forall (fun d => sceneId d = Some (scene_id s)) (validateScene s).
Proof.
  unfold validateScene, rule1, rule6, rule7, rule8.
  destruct (_ || _); destruct (_ && _); destruct (_ && _);
    destruct (visual_fx s); try destruct (_ && _); repeat constructor.
Qed.

Lemma rule4_ids (l : list Scene) : forall c,
  Forall (fun d => exists i, sceneId d = Some i) (rule4_from c l).
Proof.
  induction l as [|s l IH]; intros c; simpl; [constructor|].
  apply Forall_app. split; [|apply IH].
  destruct (String.eqb _ _); repeat constructor. now eexists.
Qed.

Lemma rule2_3_null (l : list Scene) :
  Forall (fun d => sceneId d = None) (rule2_3 l).
Proof.
  unfold rule2_3. destruct (negb (_ =? _)%nat); destruct (negb (bool_decide _));
    repeat constructor.
Qed.

Lemma rule5_null (l : list Scene) pd :
  Forall (fun d => sceneId d = None) (rule5 l pd).
Proof.
  unfold rule5. destruct pd as [pd|]; [|constructor].
  destruct (JS.gtb pd 0); [|constructor].
  destruct (negb _); repeat constructor.
Qed.

(** X14.  [getFieldErrors] is [getSceneErrors] narrowed to one field.
    Asked for a scene's id, [getSceneErrors] returns everything
    [validateScene] reports on that scene; asked for [null] on the
    diagnostics of a non-empty project, it returns exactly the id
    diagnostics followed by the total-duration diagnostic. *)
Theorem getSceneErrors_partition (scenes : list Scene) (pd : option Q) :
  (forall errors id fld,
      getFieldErrors errors id fld
      = List.filter (fun e => String.eqb (field e) fld) (getSceneErrors errors id))
  /\ (forall s, getSceneErrors (validateScene s) (Some (scene_id s)) = validateScene s)
  /\ (forall s, getSceneErrors (validateScene s) None = [])
  /\ (scenes <> [] ->
      getSceneErrors (validateProject scenes pd) None = rule2_3 scenes ++ rule5 scenes pd).
Proof.
  split; [|split; [|split]].
  - intros errors id fld. unfold getFieldErrors, getSceneErrors.
    now rewrite filter_filter.
  - intros s. unfold getSceneErrors. apply filter_all.
    eapply Forall_impl; [apply validateScene_ids|].
    intros d Hd. simpl in Hd. now apply bool_decide_eq_true_2.
  - intros s. unfold getSceneErrors. apply filter_none.
    eapply Forall_impl; [apply validateScene_ids|].
    intros d Hd. simpl in Hd. apply bool_decide_eq_false_2. congruence.
  - intros Hne. unfold validateProject, getSceneErrors.
    destruct scenes as [|s0 rest]; [congruence|].
    rewrite !List.filter_app.
    rewrite (filter_none _ (concat _)).
    + rewrite (filter_all _ (rule2_3 _)), (filter_none _ (rule4_from _ _)),
        (filter_all _ (rule5 _ _)); [reflexivity| | |].
      * eapply Forall_impl; [apply rule5_null|].
        intros d Hd. simpl in Hd. now apply bool_decide_eq_true_2.
      * eapply Forall_impl; [apply rule4_ids|].
        intros d [i Hd]. apply bool_decide_eq_false_2. congruence.
      * eapply Forall_impl; [apply rule2_3_null|].
        intros d Hd. simpl in Hd. now apply bool_decide_eq_true_2.
    + apply Forall_concat. apply Forall_forall. intros ds Hds.
      apply list_elem_of_In, in_map_iff in Hds. destruct Hds as [s [<- _]].
      eapply Forall_impl; [apply validateScene_ids|].
      intros d Hd. simpl in Hd. apply bool_decide_eq_false_2. congruence.
Qed.

Definition frame (i : Z) (d : Q) (ts : string) (fx : string) : Scene :=
  {| scene_id := i; scene_type := "hook"; duration := d; timestamp := ts;
     prompt := Some "a street at night"%string; visual_fx := Some fx;
     text_content := None |}.

(** Three scenes; the second repeats the first one's id and has an
    effect the validator does not know. *)
Definition trio : list Scene :=
  [frame 1 3 "0:00" "static"; frame 1 4 "0:03" "sparkle"; frame 3 3 "0:07" "fade"].

Lemma getSceneErrors_partition_witness :
  getSceneErrors (validateProject trio (Some 12%Q)) None
  = rule2_3 trio ++ rule5 trio (Some 12%Q).
Proof.
  apply (proj2 (proj2 (proj2 (getSceneErrors_partition trio (Some 12%Q))))).
  discriminate.
Defined.

Lemma rule1_clean s : rule1 s = [] <-> (0 < duration s)%Q.
Proof.
  unfold rule1. destruct (Qeq_bool (duration s) 0 || Qle_bool (duration s) 0) eqn:E.
  - split; [discriminate|]. intros Hpos. exfalso.
    apply orb_true_iff in E. destruct E as [E|E].
    + apply Qeq_bool_iff in E. lra.
    + apply Qle_bool_iff in E. lra.
  - split; [|reflexivity]. intros _.
    apply orb_false_iff in E. destruct E as [_ E].
    apply Qnot_le_lt. intros Hle. apply Qle_bool_iff in Hle. congruence.
Qed.

Lemma app_nil_iff {A} (l l' : list A) : l ++ l' = [] <-> l = [] /\ l' = [].
Proof.
  split; [apply app_eq_nil | intros [-> ->]; reflexivity].
Qed.

(** X15.  [validateScene] reports nothing exactly when the duration is
    positive, a text or cta scene has text that is not blank, a scene of
    any type other than text, cta and transition has a prompt that is not
    blank, and the effect, if set to a non-empty string, is an allowed
    one. *)
Theorem validateScene_clean (s : Scene) :
  validateScene s = []
  <-> (0 < duration s)%Q
      /\ (scene_type s = "text"%string \/ scene_type s = "cta"%string ->
          blank (text_content s) = false)
      /\ (~ In (scene_type s) noPromptNeeded -> blank (prompt s) = false)
      /\ (forall fx, visual_fx s = Some fx -> fx <> EmptyString -> In fx ALLOWED_VFX).
Proof.
  unfold validateScene. rewrite !app_nil_iff, rule1_clean.
  assert (H6 : rule6 s = []
               <-> (scene_type s = "text"%string \/ scene_type s = "cta"%string ->
                    blank (text_content s) = false)).
  { unfold rule6.
    destruct (String.eqb_spec (scene_type s) "text");
      destruct (String.eqb_spec (scene_type s) "cta");
      destruct (blank (text_content s)); simpl;
      split; try discriminate; try reflexivity; intros H; try tauto;
      exfalso; assert (true = false) by (apply H; tauto); discriminate. }
  assert (H7 : rule7 s = []
               <-> (~ In (scene_type s) noPromptNeeded -> blank (prompt s) = false)).
  { unfold rule7.
    destruct (JS.includes noPromptNeeded (scene_type s)) eqn:E;
      destruct (blank (prompt s)) eqn:B; cbn [negb andb].
    - split; [|reflexivity]. intros _ Hn. exfalso. apply Hn.
      now apply ValidationProofs.includes_In.
    - split; reflexivity.
    - split; [discriminate|]. intros H. exfalso.
      assert (Hf : true = false); [apply H|discriminate].
      intros Hin. apply ValidationProofs.includes_In in Hin. congruence.
    - split; reflexivity. }
  assert (H8 : rule8 s = []
               <-> (forall fx, visual_fx s = Some fx -> fx <> EmptyString ->
                               In fx ALLOWED_VFX)).
  { unfold rule8. destruct (visual_fx s) as [fx|]; [|split; [discriminate | reflexivity]].
    destruct (JS.truthy fx) eqn:Et; destruct (JS.includes ALLOWED_VFX fx) eqn:Ei;
      cbn [negb andb].
    - split; [|reflexivity]. intros _ fx' [= <-] _.
      now apply ValidationProofs.includes_In.
    - split; [discriminate|]. intros H. exfalso.
      assert (Hin : In fx ALLOWED_VFX)
        by (apply H; [reflexivity | now apply ValidationProofs.truthy_nonempty]).
      apply ValidationProofs.includes_In in Hin. congruence.
    - split; [|reflexivity]. intros _ fx' [= <-] Hne.
      apply ValidationProofs.truthy_nonempty in Hne. congruence.
    - split; [|reflexivity]. intros _ fx' [= <-] Hne.
      apply ValidationProofs.truthy_nonempty in Hne. congruence. }
  rewrite H6, H7, H8. tauto.
Qed.

(** The scene-id diagnostics of a project are what rules 2 and 3 give. *)
Definition scene_id_diagnostics (ds : list Diagnostic) : list Diagnostic :=
  List.filter (fun d => String.eqb (field d) "scene_id") ds.

Definition timestamp_diagnostics (ds : list Diagnostic) : list Diagnostic :=
  List.filter (fun d => String.eqb (field d) "timestamp") ds.

Lemma validateScene_fields (s : Scene) :
  Forall (fun d => String.eqb (field d) "scene_id" = false
                   /\ String.eqb (field d) "timestamp" = false) (validateScene s).
Proof.
  unfold validateScene, rule1, rule6, rule7, rule8.
  destruct (_ || _); destruct (_ && _); destruct (_ && _);
    destruct (visual_fx s); try destruct (_ && _); repeat constructor.
Qed.

Lemma per_scene_fields (l : list Scene) :
  Forall (fun d => String.eqb (field d) "scene_id" = false
                   /\ String.eqb (field d) "timestamp" = false)
         (concat (map validateScene l)).
Proof.
  induction l as [|s l IH]; simpl; [constructor|].
  apply Forall_app. split; [apply validateScene_fields | exact IH].
Qed.

Lemma rule4_fields (l : list Scene) : forall c,
  Forall (fun d => String.eqb (field d) "timestamp" = true) (rule4_from c l).
Proof.
  induction l as [|s l IH]; intros c; simpl; [constructor|].
  apply Forall_app. split; [|apply IH].
  destruct (String.eqb _ _); repeat constructor.
Qed.

Lemma rule2_3_fields (l : list Scene) :
  Forall (fun d => String.eqb (field d) "scene_id" = true) (rule2_3 l).
Proof.
  unfold rule2_3. destruct (negb (_ =? _)%nat); destruct (negb (bool_decide _));
    repeat constructor.
Qed.

Lemma rule5_fields (l : list Scene) pd :
  Forall (fun d => String.eqb (field d) "duration" = true) (rule5 l pd).
Proof.
  unfold rule5. destruct pd as [pd|]; [|constructor].
  destruct (JS.gtb pd 0); [|constructor]. destruct (negb _); repeat constructor.
Qed.

Lemma field_is (f g : string) (d : Diagnostic) :
  String.eqb (field d) f = true -> f <> g -> String.eqb (field d) g = false.
Proof.
  intros H Hne. apply String.eqb_eq in H. apply String.eqb_neq. congruence.
Qed.

Lemma scene_id_diagnostics_project (scenes : list Scene) pd :
  scenes <> [] -> scene_id_diagnostics (validateProject scenes pd) = rule2_3 scenes.
Proof.
  intros Hne. unfold validateProject, scene_id_diagnostics.
  destruct scenes as [|s0 rest]; [congruence|].
  rewrite !List.filter_app.
  rewrite (filter_none _ (concat _)), (filter_all _ (rule2_3 _)),
    (filter_none _ (rule4_from _ _)), (filter_none _ (rule5 _ _)).
  - now rewrite app_nil_r.
  - eapply Forall_impl; [apply rule5_fields|]. intros d Hd.
    apply (field_is "duration"); [exact Hd | discriminate].
  - eapply Forall_impl; [apply rule4_fields|]. intros d Hd.
    apply (field_is "timestamp"); [exact Hd | discriminate].
  - apply rule2_3_fields.
  - eapply Forall_impl; [apply per_scene_fields|]. now intros d [Hd _].
Qed.

Lemma timestamp_diagnostics_project (scenes : list Scene) pd :
  timestamp_diagnostics (validateProject scenes pd) = rule4_from 0%Q scenes.
Proof.
  unfold validateProject, timestamp_diagnostics.
  destruct scenes as [|s0 rest]; [reflexivity|].
  rewrite !List.filter_app.
  rewrite (filter_none _ (concat _)), (filter_none _ (rule2_3 _)),
    (filter_all _ (rule4_from _ _)), (filter_none _ (rule5 _ _)).
  - now rewrite app_nil_r.
  - eapply Forall_impl; [apply rule5_fields|]. intros d Hd.
    apply (field_is "duration"); [exact Hd | discriminate].
  - apply rule4_fields.
  - eapply Forall_impl; [apply rule2_3_fields|]. intros d Hd.
    apply (field_is "scene_id"); [exact Hd | discriminate].
  - eapply Forall_impl; [apply per_scene_fields|]. now intros d [_ Hd].
Qed.

Lemma insert_sorted_perm x l : Permutation (insert_sorted x l) (x :: l).
Proof.
  induction l as [|y l IH]; simpl; [reflexivity|].
  destruct (x <=? y); [reflexivity|].
  rewrite IH. apply perm_swap.
Qed.

Lemma sort_numeric_perm l : Permutation (sort_numeric l) l.
Proof.
  induction l as [|x l IH]; [reflexivity|].
  unfold sort_numeric in *. simpl. rewrite insert_sorted_perm. now constructor.
Qed.

Definition duplicate_ids : Diagnostic :=
  {| type := ERROR; sceneId := None; field := "scene_id";
     message := "Duplicate scene IDs detected";
     suggestion := "Delete duplicate scenes or renumber them manually";
     fixable := false |}.

Definition not_sequential : Diagnostic :=
  {| type := ERROR; sceneId := None; field := "scene_id";
     message := "Scene IDs are not sequential (expected 1, 2, 3...)";
     suggestion := "Reorder or renumber scenes to be sequential starting from 1";
     fixable := false |}.

(** X16.  The scene-id diagnostics of a project are none, the
    not-sequential error alone, or the duplicate error followed by the
    not-sequential error: duplicates are never reported on their own, and
    there are none exactly when the ids, sorted, are 1, 2, ..., n. *)
Theorem scene_id_diagnostics_shape (scenes : list Scene) (pd : option Q) :
  scenes <> [] ->
  let ds := scene_id_diagnostics (validateProject scenes pd) in
  (ds = [] \/ ds = [not_sequential] \/ ds = [duplicate_ids; not_sequential])
  /\ (ds = [] <-> sort_numeric (map scene_id scenes)
                  = seqZ 1 (Z.of_nat (length scenes))).
Proof.
  intros Hne ds. unfold ds. rewrite (scene_id_diagnostics_project scenes pd Hne).
  unfold rule2_3, Set_size.
  rewrite StoreMethodProofs.expected_ids.
  destruct (bool_decide (sort_numeric (map scene_id scenes)
                         = seqZ 1 (Z.of_nat (length scenes)))) eqn:Eseq.
  - apply bool_decide_eq_true_1 in Eseq.
    assert (Hnd : NoDup (map scene_id scenes)).
    { rewrite <- (sort_numeric_perm (map scene_id scenes)), Eseq. apply NoDup_seqZ. }
    rewrite (StoreMethodProofs.remove_dups_NoDup _ Hnd), Nat.eqb_refl. simpl.
    split; [now left | tauto].
  - apply bool_decide_eq_false_1 in Eseq.
    destruct (negb (_ =? _)%nat); simpl.
    + split; [right; right; reflexivity | split; [discriminate | contradiction]].
    + split; [right; left; reflexivity | split; [discriminate | contradiction]].
Qed.

Lemma scene_id_diagnostics_shape_witness :
  scene_id_diagnostics (validateProject trio (Some 12%Q)) = []
  \/ scene_id_diagnostics (validateProject trio (Some 12%Q)) = [not_sequential]
  \/ scene_id_diagnostics (validateProject trio (Some 12%Q))
     = [duplicate_ids; not_sequential].
Proof.
  apply (proj1 (scene_id_diagnostics_shape trio (Some 12%Q) ltac:(discriminate))).
Defined.

Lemma with_timestamp_same s ts : with_timestamp s ts = s <-> timestamp s = ts.
Proof.
  destruct s; unfold with_timestamp; simpl. split; [intros [= H]; now symmetry | now intros ->].
Qed.

Lemma rule4_clean (l : list Scene) : forall c,
  rule4_from c l = [] <-> calculateTimestamps_from c l = l.
Proof.
  induction l as [|s l IH]; intros c; simpl; [tauto|].
  rewrite app_nil_iff, IH.
  destruct (String.eqb_spec (timestamp s) (formatTimestamp c)) as [E|E].
  - split.
    + intros [_ H]. rewrite H. f_equal. now apply with_timestamp_same.
    + intros H. injection H as H1 H2. split; [reflexivity | exact H2].
  - split; [intros [H _]; discriminate|].
    intros H. injection H as H1 H2. apply with_timestamp_same in H1. contradiction.
Qed.

(** X17.  The validator has no timestamp diagnostic exactly when the
    scenes already carry the timestamps the calculator gives; so it has
    none on the calculator's own result, and none on the scenes of any
    store the methods lead to. *)
Theorem timestamp_rule_matches_calculator (scenes : list Scene) (pd : option Q) :
  (timestamp_diagnostics (validateProject scenes pd) = []
   <-> calculateTimestamps scenes = scenes)
  /\ timestamp_diagnostics (validateProject (calculateTimestamps scenes) pd) = []
  /\ (forall ms,
        timestamp_diagnostics (validateProject (State.scenes (State.reach ms)) pd) = []).
Proof.
  assert (H : forall l, timestamp_diagnostics (validateProject l pd) = []
                        <-> calculateTimestamps l = l).
  { intros l. rewrite timestamp_diagnostics_project. apply rule4_clean. }
  split; [apply H|]. split.
  - apply H. apply TimestampProofs.calculateTimestamps_idem.
  - intros ms. apply H. apply (StoreProofs.reach_kept ms).
Qed.

Lemma error_counts_add_up_witness :
  (0 < errors_count (getErrorCounts (validateProject trio (Some 12%Q))))%nat.
Proof.
  apply (proj1 (proj1 (proj2 (error_counts_add_up (validateProject trio (Some 12%Q)))))).
  vm_compute. reflexivity.
Defined.

Lemma validateScene_clean_witness : validateScene (frame 1 3 "0:00" "static") = [].
Proof.
  apply (proj2 (validateScene_clean (frame 1 3 "0:00" "static"))).
  split; [vm_compute; reflexivity|].
  split; [intros [H|H]; discriminate|].
  split; [intros _; reflexivity|].
  intros fx H _. injection H as <-. cbn. repeat (first [left; reflexivity | right]).
Defined.

(** A text scene whose text is a no-break space, U+00A0, has no text:
    [trim] strips it, and the validator asks for text content. *)
Example no_break_space_is_blank :
  let nbsp := String "194"%char (String "160"%char EmptyString) in
  let s := {| scene_id := 1; scene_type := "text"; duration := 3; timestamp := "0:00";
              prompt := None; visual_fx := Some "static"%string;
              text_content := Some nbsp |} in
  JS.trim nbsp = EmptyString
  /\ map field (validateScene s) = ["text_content"%string].
Proof. split; reflexivity. Qed.

Lemma timestamp_rule_matches_calculator_witness :
  calculateTimestamps [frame 1 3 "0:00" "static"; frame 2 4 "0:03" "fade"]
  = [frame 1 3 "0:00" "static"; frame 2 4 "0:03" "fade"].
Proof.
  apply (proj1 (proj1 (timestamp_rule_matches_calculator
                         [frame 1 3 "0:00" "static"; frame 2 4 "0:03" "fade"] None))).
  vm_compute. reflexivity.
Defined.

End ValidatorProofs.

(** ** The validation panel and the auto-fixes *)

Module EditorProofs.
Import Utils Validation EditorView.

(** The flag decides, and only the two fixable kinds carry it. *)
Definition flag_suffices (d : Diagnostic) : Prop :=
  isFixableError d = fixable d
  /\ (fixable d = true ->
      (field d = "duration"%string /\ sceneId d = None)
      \/ (field d = "visual_fx"%string /\ exists i, sceneId d = Some i)).

Lemma unfixable_flag (d : Diagnostic) :
  fixable d = false ->
  (sceneId d = None -> field d <> "duration"%string) ->
  (sceneId d <> None -> field d <> "visual_fx"%string) ->
  flag_suffices d.
Proof.
  intros Hf Hd Hv. unfold flag_suffices, isFixableError. rewrite Hf.
  split; [|discriminate].
  destruct (String.eqb_spec (field d) "duration") as [Ed|Ed];
    destruct (sceneId d) as [i|]; cbn [andb];
    destruct (String.eqb_spec (field d) "visual_fx") as [Ev|Ev]; cbn [andb];
    try reflexivity.
  - exfalso. now apply Hv.
  - exfalso. now apply Hd.
  - exfalso. now apply Hd.
  - exfalso. now apply Hv.
Qed.

Lemma fixable_flag (d : Diagnostic) :
  fixable d = true ->
  (field d = "duration"%string /\ sceneId d = None)
  \/ (field d = "visual_fx"%string /\ exists i, sceneId d = Some i) ->
  flag_suffices d.
Proof.
  intros Hf Hk. unfold flag_suffices, isFixableError. rewrite Hf. split; [reflexivity|].
  intros _. exact Hk.
Qed.

(** A diagnostic written out in the source either lacks the flag and is
    on another field, or carries it. *)
Ltac flag_literal :=
  first
    [ apply unfixable_flag;
      [ reflexivity
      | cbn [sceneId field]; intros; discriminate
      | cbn [sceneId field]; intros; try discriminate; congruence ]
    | apply fixable_flag;
      [ reflexivity
      | cbn [sceneId field];
        first [ left; split; reflexivity
              | right; split; [reflexivity | eexists; reflexivity] ] ] ].

Ltac flag_list :=
  repeat first [ apply List.Forall_nil | apply List.Forall_cons; [flag_literal|] ].

Lemma validateScene_flag (s : Scene) : Forall flag_suffices (validateScene s).
Proof.
  unfold validateScene, rule1, rule6, rule7, rule8.
  destruct (_ || _); destruct (_ && _); destruct (_ && _);
    destruct (visual_fx s); try destruct (_ && _);
    cbn [app]; flag_list.
Qed.

Lemma per_scene_flag (l : list Scene) :
  Forall flag_suffices (concat (map validateScene l)).
Proof.
  induction l as [|s l IH]; simpl; [constructor|].
  apply Forall_app. split; [apply validateScene_flag | exact IH].
Qed.

Lemma rule2_3_flag (l : list Scene) : Forall flag_suffices (rule2_3 l).
Proof.
  unfold rule2_3. destruct (negb (_ =? _)%nat); destruct (negb (bool_decide _));
    cbn [app]; flag_list.
Qed.

Lemma rule4_flag (l : list Scene) : forall c, Forall flag_suffices (rule4_from c l).
Proof.
  induction l as [|s l IH]; intros c; simpl; [constructor|].
  apply Forall_app. split; [|apply IH].
  destruct (String.eqb _ _); flag_list.
Qed.

Lemma rule5_flag (l : list Scene) pd : Forall flag_suffices (rule5 l pd).
Proof.
  unfold rule5. destruct pd as [pd|]; [|constructor].
  destruct (JS.gtb pd 0); [|constructor].
  destruct (negb _); flag_list.
Qed.

Lemma validateProject_flag (scenes : list Scene) pd :
  Forall flag_suffices (validateProject scenes pd).
Proof.
  unfold validateProject. destruct scenes as [|s0 rest]; [constructor|].
  apply Forall_app. split; [apply per_scene_flag|].
  apply Forall_app. split; [apply rule2_3_flag|].
  apply Forall_app. split; [apply rule4_flag | apply rule5_flag].
Qed.

(** X18.  On every diagnostic [validateProject] produces,
    [isFixableError] is just the [fixable] flag: the fallback tests on
    field, scene id and message add nothing.  The Fix button is therefore
    offered for the total-duration warning and the effect error only. *)
Theorem isFixableError_is_flag (scenes : list Scene) (pd : option Q) :
  Forall (fun d => isFixableError d = fixable d) (validateProject scenes pd)
  /\ (forall d, In d (validateProject scenes pd) -> isFixableError d = true ->
        (field d = "duration"%string /\ sceneId d = None)
        \/ (field d = "visual_fx"%string /\ exists i, sceneId d = Some i)).
Proof.
  pose proof (validateProject_flag scenes pd) as Hall. split.
  - eapply Forall_impl; [exact Hall|]. now intros d [H _].
  - intros d Hin Hfix. apply list_elem_of_In in Hin.
    destruct (proj1 (Forall_forall _ _) Hall d Hin) as [Hflag Hwhich].
    apply Hwhich. congruence.
Qed.

(** The effect error of the second scene of the sample project. *)
Definition fixable_of_trio : Diagnostic :=
  {| type := ERROR; sceneId := Some 1; field := "visual_fx";
     message := "Scene 1: Invalid visual effect " ++ dquote ++ "sparkle" ++ dquote;
     suggestion := "Use one of: zoom_in, zoom_out, pan_left, pan_right, fade, static, shake, slow_motion";
     fixable := true |}.

Lemma isFixableError_is_flag_witness :
  (field (fixable_of_trio) = "duration"%string /\ sceneId fixable_of_trio = None)
  \/ (field fixable_of_trio = "visual_fx"%string
      /\ exists i, sceneId fixable_of_trio = Some i).
Proof.
  apply (proj2 (isFixableError_is_flag ValidatorProofs.trio (Some 12%Q))).
  - vm_compute. tauto.
  - reflexivity.
Defined.

(** The order the comparator describes. *)
Definition before (a b : Diagnostic) : Prop := compare a b <= 0.

Lemma before_total a b : before a b \/ before b a.
Proof. unfold before, compare. destruct (type a), (type b); lia. Qed.

Lemma before_trans a b c : before a b -> before b c -> before a c.
Proof. unfold before, compare. destruct (type a), (type b), (type c); lia. Qed.

Lemma insert_perm x l : Permutation (insert x l) (x :: l).
Proof.
  induction l as [|y l IH]; simpl; [reflexivity|].
  destruct (compare x y <=? 0); [reflexivity|].
  rewrite IH. apply perm_swap.
Qed.

Lemma insert_sorted x l :
  StronglySorted before l -> StronglySorted before (insert x l).
Proof.
  induction 1 as [|y l Hl IH Hy]; simpl; [repeat constructor|].
  destruct (Z.leb_spec (compare x y) 0) as [Hxy|Hyx].
  - constructor; [now constructor|]. constructor; [exact Hxy|].
    eapply Forall_impl; [exact Hy|]. intros z Hz. now apply (before_trans x y z).
  - constructor; [exact IH|].
    assert (Hyx' : before y x) by (destruct (before_total x y); [unfold before in *; lia | assumption]).
    rewrite insert_perm. now constructor.
Qed.

Lemma sorted_pairs (R : Diagnostic -> Diagnostic -> Prop) (l : list Diagnostic) :
  StronglySorted R l ->
  forall i j a b, (i < j)%nat -> l !! i = Some a -> l !! j = Some b -> R a b.
Proof.
  induction 1 as [|x l Hl IH Hx]; intros i j a b Hij Hi Hj; [destruct i; discriminate|].
  destruct j as [|j]; [lia|]. simpl in Hj. destruct i as [|i]; simpl in Hi.
  - injection Hi as <-. apply (proj1 (Forall_forall _ _) Hx).
    apply list_elem_of_lookup. now exists j.
  - apply (IH i j); [lia | assumption | assumption].
Qed.

(** X19.  The validation panel lists the same diagnostics it was given,
    ordered by its comparator: no warning comes before an error, and
    within errors and within warnings the scene ids (project-level
    diagnostics counting as 0) never decrease. *)
Theorem panel_order (errors : list Diagnostic) :
  Permutation (sorted errors) errors
  /\ StronglySorted (fun a b => compare a b <= 0) (sorted errors)
  /\ (forall i j a b, (i < j)%nat ->
        sorted errors !! i = Some a -> sorted errors !! j = Some b ->
        (type b = ERROR -> type a = ERROR)
        /\ (type a = type b -> sceneId_or_zero a <= sceneId_or_zero b)).
Proof.
  assert (Hperm : Permutation (sorted errors) errors).
  { induction errors as [|d l IH]; [reflexivity|].
    unfold sorted in *. simpl. rewrite insert_perm. now constructor. }
  assert (Hsort : StronglySorted before (sorted errors)).
  { induction errors as [|d l IH]; [constructor|].
    unfold sorted in *. simpl. apply insert_sorted, IH.
    unfold sorted in Hperm. simpl in Hperm.
    rewrite insert_perm in Hperm. now apply Permutation_cons_inv in Hperm. }
  split; [exact Hperm|]. split; [exact Hsort|].
  intros i j a b Hij Hi Hj.
  pose proof (sorted_pairs before _ Hsort i j a b Hij Hi Hj) as Hab.
  unfold before, compare in Hab.
  destruct (type a), (type b); split; intros; try reflexivity; try discriminate; lia.
Qed.

(** The diagnostic the panel lists at position [k] for the three-scene
    sample. *)
Definition listed (k : nat) : Diagnostic :=
  default fixable_of_trio (sorted (validateProject ValidatorProofs.trio (Some 12%Q)) !! k).

Lemma panel_order_witness :
  (type (listed 3) = ERROR -> type (listed 0) = ERROR)
  /\ (type (listed 0) = type (listed 3) ->
      sceneId_or_zero (listed 0) <= sceneId_or_zero (listed 3)).
Proof.
  apply (proj2 (proj2 (panel_order (validateProject ValidatorProofs.trio (Some 12%Q))))
           0%nat 3%nat (listed 0) (listed 3)).
  - lia.
  - vm_compute. reflexivity.
  - vm_compute. reflexivity.
Defined.

Lemma total_by_durations (l : list Scene) : forall c,
  fold_left (fun sum scene => (sum + duration scene)%Q) l c
  = fold_left Qplus (map duration l) c.
Proof. induction l as [|s l IH]; intros c; simpl; [reflexivity | apply IH]. Qed.

Lemma total_calculated (l : list Scene) :
  getTotalDuration (calculateTimestamps l) = getTotalDuration l.
Proof.
  unfold getTotalDuration, calculateTimestamps.
  now rewrite !total_by_durations, StoreMethodProofs.calculateTimestamps_from_durations.
Qed.

Lemma total_snoc (l : list Scene) (s : Scene) :
  getTotalDuration (l ++ [s]) = (getTotalDuration l + duration s)%Q.
Proof. unfold getTotalDuration. now rewrite fold_left_app. Qed.

Lemma rule5_settled (l : list Scene) (pd : Q) :
  (getTotalDuration l == pd)%Q -> rule5 l (Some pd) = [].
Proof.
  intros H. unfold rule5. destruct (JS.gtb pd 0); [|reflexivity].
  apply Qeq_bool_iff in H. now rewrite H.
Qed.

Lemma rule5_unsettled (l : list Scene) (pd : Q) :
  (0 < pd)%Q -> ~ (getTotalDuration l == pd)%Q -> rule5 l (Some pd) <> [].
Proof.
  intros Hpos H. unfold rule5.
  assert (Hg : JS.gtb pd 0 = true) by (now apply PreviewProofs.ltb_true).
  rewrite Hg.
  destruct (Qeq_bool (getTotalDuration l) pd) eqn:E; [|discriminate].
  apply Qeq_bool_iff in E. contradiction.
Qed.

(** A whole number of seconds that binary64 holds exactly. *)
Definition whole_seconds (q : Q) : Prop :=
  exists n : Z, 0 <= n <= 2 ^ 53 /\ (q == inject_Z n)%Q.

(** X20.  The duration auto-fix on whole numbers.  The store, the
    validator and the editor are embedded over exact rationals; on whole
    durations with a total below 2^53 binary64 computes the same sums and
    differences, and the statement is about those.  When the last scene is
    the only one with its id: if the last duration plus the signed
    difference is at least 1, the total then equals the project duration
    and validating again gives no duration-mismatch diagnostic; if it is
    below 1 (and there is a difference) the last duration becomes 1, the
    total stays above the project duration and, for a positive project
    duration, the mismatch diagnostic stays. *)
Theorem duration_fix_settles (st : State.Store) (init : list Scene) (lastScene : Scene)
    (project : State.Project) :
  State.scenes st = init ++ [lastScene] ->
  (forall s, In s init -> scene_id s <> scene_id lastScene) ->
  State.currentProject st = Some project ->
  Forall (fun s => whole_seconds (duration s)) (State.scenes st) ->
  whole_seconds (State.project_duration project) ->
  (getTotalDuration (State.scenes st) < inject_Z (2 ^ 53))%Q ->
  let pd := State.project_duration project in
  let diff := (pd - getTotalDuration (State.scenes st))%Q in
  let scenes' := State.scenes (Editor.handleFix "duration" None st) in
  ((1 <= duration lastScene + diff)%Q ->
   (getTotalDuration scenes' == pd)%Q
   /\ ValidationProofs.duration_mismatches (validateProject scenes' (Some pd)) = [])
  /\ ((duration lastScene + diff < 1)%Q -> ~ (diff == 0)%Q ->
      duration <$> last scenes' = Some 1%Q
      /\ (pd < getTotalDuration scenes')%Q
      /\ ((0 < pd)%Q ->
          ValidationProofs.duration_mismatches (validateProject scenes' (Some pd)) <> [])).
Proof.
  intros Hsc Huniq Hproj _ _ _ pd diff scenes'.
  assert (Hlast : last (State.scenes st) = Some lastScene)
    by (rewrite Hsc; apply last_snoc).
  assert (Htot : getTotalDuration (State.scenes st)
                 = (getTotalDuration init + duration lastScene)%Q)
    by (rewrite Hsc; apply total_snoc).
  assert (Hne : forall l : list Scene, l <> [] ->
            ValidationProofs.duration_mismatches (validateProject l (Some pd))
            = rule5 l (Some pd)) by (intros l Hl; now apply DurationProofs.mismatches_are_rule5).
  destruct (Qeq_bool diff 0) eqn:Ediff.
  - (* nothing to fix *)
    assert (Hsame : scenes' = State.scenes st).
    { unfold scenes', Editor.handleFix. simpl. rewrite Hlast, Hproj.
      fold pd. fold diff. now rewrite Ediff. }
    apply Qeq_bool_iff in Ediff. split.
    + intros _. rewrite Hsame.
      assert (Heq : (getTotalDuration (State.scenes st) == pd)%Q) by (unfold diff in Ediff; lra).
      split; [exact Heq|].
      rewrite Hne by (rewrite Hsc; now destruct init). now apply rule5_settled.
    + intros _ Hnz. contradiction.
  - (* the last scene is patched *)
    set (d' := JS.Math_max 1 (duration lastScene + diff)).
    assert (Hsc' : scenes'
                   = calculateTimestamps
                       (init ++ [State.spread lastScene (Editor.duration_patch d')])).
    { unfold scenes', Editor.handleFix. simpl. rewrite Hlast, Hproj.
      fold pd. fold diff. rewrite Ediff. fold d'.
      unfold State.updateScene. simpl. rewrite SetFacts.set_scenes_scenes.
      rewrite Hsc, map_app. simpl. rewrite Z.eqb_refl.
      now rewrite (UpdateSceneProofs.map_unmatched _ _ init Huniq). }
    assert (Htot' : getTotalDuration scenes' = (getTotalDuration init + d')%Q).
    { rewrite Hsc', total_calculated, total_snoc. reflexivity. }
    assert (Hne' : scenes' <> []).
    { rewrite Hsc'. unfold calculateTimestamps.
      intros E. apply (f_equal (@length Scene)) in E.
      rewrite TimestampProofs.calculateTimestamps_from_length, length_app in E.
      simpl in E. lia. }
    split.
    + intros Hfit.
      assert (Hd' : d' = (duration lastScene + diff)%Q).
      { unfold d', JS.Math_max. apply Qle_bool_iff in Hfit. now rewrite Hfit. }
      assert (Heq : (getTotalDuration scenes' == pd)%Q).
      { rewrite Htot', Hd'. unfold diff. rewrite Htot. lra. }
      split; [exact Heq|]. rewrite (Hne _ Hne'). now apply rule5_settled.
    + intros Hclamp _.
      assert (Hd' : d' = 1%Q).
      { unfold d', JS.Math_max.
        destruct (Qle_bool 1 (duration lastScene + diff)) eqn:E; [|reflexivity].
        apply Qle_bool_iff in E. lra. }
      assert (Hover : (pd < getTotalDuration scenes')%Q).
      { rewrite Htot', Hd'. unfold diff in Hclamp. rewrite Htot in Hclamp. lra. }
      split; [|split; [exact Hover|]].
      * rewrite Hsc'. unfold calculateTimestamps.
        rewrite DurationProofs.last_calculateTimestamps_from, last_snoc. simpl.
        now rewrite Hd'.
      * intros Hpos. rewrite (Hne _ Hne'). apply rule5_unsettled; [exact Hpos|].
        intros Heq. lra.
Qed.

Definition cut (i : Z) (d : Q) (ts : string) : Scene :=
  {| scene_id := i; scene_type := "hook"; duration := d; timestamp := ts;
     prompt := Some "a street at night"%string; visual_fx := Some "static"%string;
     text_content := None |}.

(** A 10s timeline in a project that wants 12s. *)
Definition short_by_two : State.Store :=
  {| State.currentProject := Some (State.mkProject "proj_1" 12);
     State.scenes := [cut 1 3 "0:00"; cut 2 4 "0:03"; cut 3 3 "0:07"];
     State.selectedScene := None;
     State.history := [[cut 1 3 "0:00"; cut 2 4 "0:03"; cut 3 3 "0:07"]];
     State.historyIndex := 0 |}.

Lemma duration_fix_settles_witness :
  (getTotalDuration (State.scenes (Editor.handleFix "duration" None short_by_two))
   == 12)%Q
  /\ ValidationProofs.duration_mismatches
       (validateProject (State.scenes (Editor.handleFix "duration" None short_by_two))
          (Some 12%Q)) = [].
Proof.
  assert (Hwhole : forall n : Z, 0 <= n <= 2 ^ 53 -> whole_seconds (inject_Z n))
    by (intros n Hn; exists n; split; [exact Hn | reflexivity]).
  apply (proj1 (duration_fix_settles short_by_two [cut 1 3 "0:00"; cut 2 4 "0:03"]
                  (cut 3 3 "0:07") (State.mkProject "proj_1" 12) eq_refl
                  ltac:(simpl; intros s [<-|[<-|[]]]; simpl; lia) eq_refl
                  ltac:(repeat apply List.Forall_cons; try apply List.Forall_nil;
                        [apply (Hwhole 3) | apply (Hwhole 4) | apply (Hwhole 3)]; lia)
                  ltac:(apply (Hwhole 12); lia)
                  ltac:(vm_compute; reflexivity))).
  vm_compute. discriminate.
Defined.

Lemma calculated_elements (l : list Scene) : forall c s',
  In s' (calculateTimestamps_from c l) ->
  exists s, In s l /\ s' = with_timestamp s (timestamp s').
Proof.
  induction l as [|s l IH]; intros c s' Hin; simpl in Hin; [contradiction|].
  destruct Hin as [<-|Hin].
  - exists s. split; [now left | reflexivity].
  - destruct (IH _ _ Hin) as [s0 [H0 E]]. exists s0. split; [now right | exact E].
Qed.

(** X21.  The effect auto-fix sets the effect of every scene with the
    given id to [static], after which the validator has no effect
    diagnostic on those scenes; the scenes with another id keep their
    effect. *)
Theorem visual_fx_fix_settles (st : State.Store) (sceneId' : Z) :
  let scenes' := State.scenes (Editor.handleFix "visual_fx" (Some sceneId') st) in
  (forall s', In s' scenes' -> scene_id s' = sceneId' ->
     visual_fx s' = Some "static"%string
     /\ ValidationProofs.visual_fx_diagnostics (validateScene s') = [])
  /\ (forall i s, State.scenes st !! i = Some s -> scene_id s <> sceneId' ->
        visual_fx <$> scenes' !! i = Some (visual_fx s)).
Proof.
  intros scenes'.
  set (f := fun s => if scene_id s =? sceneId'
                     then State.spread s (Editor.visual_fx_patch "static") else s).
  assert (Hsc : scenes' = calculateTimestamps (map f (State.scenes st))).
  { unfold scenes', Editor.handleFix. simpl. unfold State.updateScene. simpl.
    apply SetFacts.set_scenes_scenes. }
  split.
  - intros s' Hin Hid. rewrite Hsc in Hin.
    destruct (calculated_elements _ _ _ Hin) as [s1 [H1 E]].
    apply in_map_iff in H1. destruct H1 as [s0 [Hf H0]].
    assert (Hfx : visual_fx s' = Some "static"%string).
    { rewrite E. simpl. rewrite <- Hf. unfold f.
      destruct (Z.eqb_spec (scene_id s0) sceneId') as [E0|E0]; [reflexivity|].
      exfalso. apply E0. rewrite E in Hid. simpl in Hid. rewrite <- Hf in Hid.
      unfold f in Hid. destruct (Z.eqb_spec (scene_id s0) sceneId'); [assumption|].
      exact Hid. }
    split; [exact Hfx|].
    rewrite ValidationProofs.visual_fx_diagnostics_validateScene.
    unfold rule8. rewrite Hfx. reflexivity.
  - intros i s Hi Hid. rewrite Hsc. unfold calculateTimestamps.
    assert (Hfi : map f (State.scenes st) !! i = Some s).
    { change (map f (State.scenes st)) with (f <$> State.scenes st).
      rewrite list_lookup_fmap, Hi. simpl. unfold f.
      destruct (Z.eqb_spec (scene_id s) sceneId'); [contradiction | reflexivity]. }
    now rewrite (TimestampProofs.calculateTimestamps_from_lookup _ _ _ _ Hfi).
Qed.

(** Two scenes, the second with an effect the validator does not know. *)
Definition sparkling : State.Store :=
  {| State.currentProject := None;
     State.scenes := [cut 1 3 "0:00"; ValidatorProofs.frame 2 4 "0:03" "sparkle"];
     State.selectedScene := None;
     State.history := [[cut 1 3 "0:00"; ValidatorProofs.frame 2 4 "0:03" "sparkle"]];
     State.historyIndex := 0 |}.

Lemma visual_fx_fix_settles_witness :
  visual_fx (ValidatorProofs.frame 2 4 "0:03" "static") = Some "static"%string
  /\ ValidationProofs.visual_fx_diagnostics
       (validateScene (ValidatorProofs.frame 2 4 "0:03" "static")) = [].
Proof.
  apply (proj1 (visual_fx_fix_settles sparkling 2));
    [vm_compute; right; left; reflexivity | reflexivity].
Defined.

End EditorProofs.

(** ** The preview engine's transport controls *)

Module PreviewControls.
Import Preview.

(** [Math.min(a, b)]. *)
Definition Math_min (a b : Q) : Q := if Qle_bool a b then a else b.



(** The opacity [renderTextOverlay] gives the text at [progress]. *)
Definition globalAlpha (progress : Q) : Q :=
  let fadeIn := Math_min 1 (progress * 4) in
  let fadeOut := Math_min 1 ((1 - progress) * 4) in
  Math_min fadeIn fadeOut.

End PreviewControls.

Module ControlProofs.
Import Preview PreviewControls PreviewProofs.

Lemma Math_min_cases a b :
  ((a <= b)%Q /\ Math_min a b = a) \/ ((b < a)%Q /\ Math_min a b = b).
Proof.
  unfold Math_min. destruct (Qle_bool a b) eqn:E.
  - left. split; [now apply Qle_bool_iff | reflexivity].
  - right. split; [|reflexivity]. apply Qnot_le_lt. intros H.
    apply Qle_bool_iff in H. congruence.
Qed.


(** The sum of the scenes' durations, as [getTotalDuration] adds it. *)
Definition scenesDuration (p : CanvasPreview Q) : Q :=
  fold_left Qplus (map duration (scenes p)) 0%Q.







Section Ticking.
Context {N : Type} `{Arith N}.

(** The time a tick arrives at, before the end-of-timeline test. *)
Definition arrival (f : Frame N) (p : CanvasPreview N) : N :=
  if externalTimeSource p then sourceTime f
  else add (currentTime p) (div (sub (now f) (lastFrameTime p)) thousand).

(** A time that is at or after the running total the loop starts from,
    before the last running total, and comparable with the ones in
    between, passes the test at one of the scenes. *)
Lemma lookup_before_end (rest : list (Scene N)) : forall s0 acc t,
  geb t acc = true ->
  ltb t (fold_left add (map duration (s0 :: rest)) acc) = true ->
  (forall k, ltb t (accumulated_from acc k (s0 :: rest)) = false ->
             geb t (accumulated_from acc k (s0 :: rest)) = true) ->
  exists cur,
    getCurrentScene_from acc t (s0 :: rest) = Some cur /\ In (scene cur) (s0 :: rest).
Proof.
  induction rest as [|s1 rest IH]; intros s0 acc t Hge Hlt Hcmp.
  - cbn [getCurrentScene_from]. cbn [map fold_left] in Hlt. rewrite Hge, Hlt.
    eexists. split; [reflexivity | now left].
  - cbn [getCurrentScene_from]. rewrite Hge. cbn [andb].
    destruct (ltb t (add acc (duration s0))) eqn:E.
    + eexists. split; [reflexivity | now left].
    + destruct (IH s1 (add acc (duration s0)) t) as [cur [Hcur Hin]].
      * apply (Hcmp 1%nat). exact E.
      * exact Hlt.
      * intros k Hk. apply (Hcmp (S k)). exact Hk.
      * exists cur. split; [exact Hcur | now right].
Qed.

(** X24.  Whatever the arithmetic, a tick of a playing engine that
    arrives before the total duration (the test [currentTime >=
    totalDuration] fails) keeps playing: the clock takes the time arrived
    at, that time is rendered and reported, and the next frame is
    requested and its handle stored.  When the engine has scenes and the
    time arrived at is not negative, passes [currentTime < total] for the
    last running total of the scenes, and is comparable with every running
    total (none of them is NaN), the frame rendered has a current scene,
    one of the engine's scenes. *)
Theorem tick_before_end (f : Frame N) (p : CanvasPreview N) :
  isPlaying p = true ->
  geb (arrival f p) (getTotalDuration p) = false ->
  let p' := fst (tick f p) in
  currentTime p' = arrival f p
  /\ isPlaying p' = true
  /\ animationId p' = Some (handle f)
  /\ snd (tick f p)
     = [Render (arrival f p); OnTimeUpdate (arrival f p);
        RequestAnimationFrame (handle f)]
  /\ (scenes p <> [] ->
      geb (arrival f p) zero = true ->
      ltb (arrival f p) (accumulated (length (scenes p)) (scenes p)) = true ->
      (forall k, ltb (arrival f p) (accumulated k (scenes p)) = false ->
                 geb (arrival f p) (accumulated k (scenes p)) = true) ->
      exists cur,
        getCurrentScene p' = Some cur /\ In (scene cur) (scenes p)).
Proof.
  intros Hplay Hgeb.
  assert (Hfind : scenes p <> [] ->
            geb (arrival f p) zero = true ->
            ltb (arrival f p) (accumulated (length (scenes p)) (scenes p)) = true ->
            (forall k, ltb (arrival f p) (accumulated k (scenes p)) = false ->
                       geb (arrival f p) (accumulated k (scenes p)) = true) ->
            exists cur,
              getCurrentScene_from zero (arrival f p) (scenes p) = Some cur
              /\ In (scene cur) (scenes p)).
  { intros Hne Hnn Hlt Hcmp. destruct (scenes p) as [|s0 rest] eqn:Es; [congruence|].
    apply lookup_before_end; [exact Hnn | | exact Hcmp].
    unfold accumulated, accumulated_from in Hlt. now rewrite firstn_all in Hlt. }
  unfold tick, arrival in *. rewrite Hplay. cbn [negb].
  destruct (externalTimeSource p);
    change (getTotalDuration (with_clock p ?t ?l)) with (getTotalDuration p);
    cbn [currentTime with_clock];
    rewrite Hgeb; cbn [fst snd currentTime isPlaying animationId with_playback with_clock];
    rewrite Hplay; repeat split; exact Hfind.
Qed.

End Ticking.

(** Playing 3.2s of scenes in binary64 from 1.5s, the frame arriving
    16ms later. *)
Definition mid_play : CanvasPreview float :=
  {| scenes := [ {| id := 1; type := "hook"; duration := 0.7%float;
                    visual_fx := Some "zoom_in"%string |};
                 {| id := 2; type := "hook"; duration := 2.5%float;
                    visual_fx := Some "zoom_in"%string |} ];
     currentTime := 1.5%float;
     isPlaying := true; lastFrameTime := 5000%float; animationId := Some 41%positive;
     overrideDuration := None; externalTimeSource := false |}.

Definition frame_at (t : float) : Frame float :=
  {| now := t; sourceTime := 0%float; handle := 42%positive |}.

Lemma tick_before_end_witness :
  exists cur,
    getCurrentScene (fst (tick (frame_at 5016) mid_play)) = Some cur
    /\ In (scene cur) (scenes mid_play).
Proof.
  assert (Hlt : geb (arrival (frame_at 5016) mid_play) (getTotalDuration mid_play) = false)
    by (vm_compute; reflexivity).
  apply (proj2 (proj2 (proj2 (proj2
           (tick_before_end (frame_at 5016) mid_play eq_refl Hlt))))).
  - discriminate.
  - reflexivity.
  - reflexivity.
  - intros k Hk.
    destruct k as [|[|[|k]]];
      first [ vm_compute in Hk; discriminate | vm_compute; reflexivity ].
Defined.

(** X25.  The fade of a text overlay, for a progress in [[0, 1]]: the
    opacity lies in [[0, 1]], is symmetric about the middle of the scene,
    is 1 exactly on the middle half [[1/4, 3/4]], and is 0 exactly at
    progress 0 and 1, so the first frame of a text scene shows no text. *)
Theorem globalAlpha_envelope (progress : Q) :
  (0 <= progress)%Q -> (progress <= 1)%Q ->
  (0 <= globalAlpha progress)%Q
  /\ (globalAlpha progress <= 1)%Q
  /\ (globalAlpha (1 - progress) == globalAlpha progress)%Q
  /\ ((globalAlpha progress == 1)%Q <-> (1 # 4 <= progress)%Q /\ (progress <= 3 # 4)%Q)
  /\ ((globalAlpha progress == 0)%Q <-> (progress == 0)%Q \/ (progress == 1)%Q).
Proof.
  intros H0 H1. unfold globalAlpha.
  destruct (Math_min_cases 1 (progress * 4)) as [[Ha Ea]|[Ha Ea]];
    destruct (Math_min_cases 1 ((1 - progress) * 4)) as [[Hb Eb]|[Hb Eb]];
    rewrite Ea, Eb;
    destruct (Math_min_cases 1 ((1 - (1 - progress)) * 4)) as [[Hc Ec]|[Hc Ec]];
    rewrite Ec;
    repeat match goal with
    | |- context [Math_min ?a ?b] =>
        let Hd := fresh "Hd" in let Ed := fresh "Ed" in
        destruct (Math_min_cases a b) as [[Hd Ed]|[Hd Ed]]; rewrite Ed
    end.
  all: repeat split; try lra; try (intros; lra).
  all: try (intros [? | ?]; lra).
  all: try (intros; split; lra).
  all: try (intros; first [left; lra | right; lra]).
Qed.

Lemma globalAlpha_envelope_witness :
  (0 <= globalAlpha (1 # 8))%Q /\ (globalAlpha (1 # 8) <= 1)%Q.
Proof.
  pose proof (globalAlpha_envelope (1 # 8) ltac:(lra) ltac:(lra)) as H.
  split; [exact (proj1 H) | exact (proj1 (proj2 H))].
Defined.

End ControlProofs.

(** ** Word wrap of the text overlay *)

Module TextLayout.

(** [text.split(' ')]: the pieces between single spaces, empty pieces
    included; the empty text has one empty piece. *)
Fixpoint split (text : string) : list string :=
  match text with
  | EmptyString => [EmptyString]
  | String c rest =>
      if Ascii.eqb c " " then EmptyString :: split rest
      else match split rest with
           | word :: words => String c word :: words
           | [] => [String c EmptyString]
           end
  end.

Section WrapText.

(** The width [ctx.measureText(line).width] under the font [wrapText]
    sets. *)
Variable measureText : string -> Q.

(** The loop of [wrapText] over the words, from [lines] and
    [currentLine]. *)
Fixpoint wrap_words (maxWidth : Q) (words lines : list string) (currentLine : string)
  : list string * string :=
  match words with
  | [] => (lines, currentLine)
  | word :: rest =>
      let testLine :=
        if JS.truthy currentLine then (currentLine ++ " " ++ word)%string else word in
      if JS.gtb (measureText testLine) maxWidth && JS.truthy currentLine
      then wrap_words maxWidth rest (JS.push lines currentLine) word
      else wrap_words maxWidth rest lines testLine
  end.

Definition wrapText (text : string) (maxWidth : Q) : list string :=
  let '(lines, currentLine) := wrap_words maxWidth (split text) [] EmptyString in
  if JS.truthy currentLine then JS.push lines currentLine else lines.

End WrapText.

End TextLayout.

Module TextLayoutProofs.
Import TextLayout.

Lemma split_nonempty (text : string) : split text <> [].
Proof.
  induction text as [|c rest IH]; simpl; [discriminate|].
  destruct (Ascii.eqb c " "); [discriminate|].
  destruct (split rest); discriminate.
Qed.

(** [split(' ')] followed by [join(' ')] gives the text back. *)
Lemma join_split (text : string) : JS.join " " (split text) = text.
Proof.
  unfold JS.join. induction text as [|c rest IH]; [reflexivity|].
  simpl. destruct (Ascii.eqb_spec c " ") as [->|Hc].
  - pose proof (split_nonempty rest) as Hne.
    destruct (split rest) as [|w ws] eqn:E; [congruence|].
    change (String.concat " " (EmptyString :: w :: ws))
      with (String " " (String.concat " " (w :: ws))).
    now rewrite IH.
  - pose proof (split_nonempty rest) as Hne.
    destruct (split rest) as [|w ws] eqn:E; [congruence|].
    destruct ws as [|w' ws]; simpl in *; now rewrite <- IH.
Qed.

Lemma append_assoc (a b c : string) : ((a ++ b) ++ c = a ++ (b ++ c))%string.
Proof. induction a as [|x a IH]; simpl; [reflexivity | now rewrite IH]. Qed.

Lemma append_nonempty (a b : string) : a <> EmptyString -> (a ++ b)%string <> EmptyString.
Proof. destruct a; simpl; congruence. Qed.

Lemma truthy_cases (s : string) :
  (JS.truthy s = true /\ s <> EmptyString) \/ (JS.truthy s = false /\ s = EmptyString).
Proof. destruct s; simpl; [right | left]; split; congruence. Qed.

Lemma join_cons (x : string) (xs : list string) :
  xs <> [] -> JS.join " " (x :: xs) = (x ++ " " ++ JS.join " " xs)%string.
Proof. destruct xs; [congruence | reflexivity]. Qed.

(** Joining is the same whether two neighbours are separate entries or
    one entry with a space between them. *)
Lemma join_merge (l r : list string) (a b : string) :
  JS.join " " (l ++ (a ++ " " ++ b)%string :: r) = JS.join " " (l ++ a :: b :: r).
Proof.
  induction l as [|x l IH].
  - cbn [app]. rewrite (join_cons a) by discriminate.
    destruct r as [|y r]; [reflexivity|].
    rewrite !join_cons by discriminate. now rewrite !append_assoc.
  - cbn [app]. rewrite !join_cons by (destruct l; discriminate). now rewrite IH.
Qed.

Section WrapTextProofs.
Variable measureText : string -> Q.
Variable maxWidth : Q.

(** The lines so far, with the one being built. *)
Definition flat (state : list string * string) : list string :=
  if JS.truthy (snd state) then fst state ++ [snd state] else fst state.

Lemma wrapText_flat (text : string) :
  wrapText measureText text maxWidth
  = flat (wrap_words measureText maxWidth (split text) [] EmptyString).
Proof.
  unfold wrapText, flat.
  destruct (wrap_words measureText maxWidth (split text) [] EmptyString) as [lines cur].
  reflexivity.
Qed.

(** A line as the loop leaves it: not empty, and within the width unless
    it is a single word of the text. *)
Definition well_wrapped (all : list string) (line : string) : Prop :=
  line <> EmptyString /\ ((measureText line <= maxWidth)%Q \/ In line all).

Lemma wrap_words_lines (all : list string) : forall words lines currentLine,
  (forall w, In w words -> In w all) ->
  Forall (well_wrapped all) lines ->
  (currentLine = EmptyString \/ well_wrapped all currentLine) ->
  Forall (well_wrapped all)
    (flat (wrap_words measureText maxWidth words lines currentLine)).
Proof.
  induction words as [|word rest IH]; intros lines cur Hall Hlines Hcur.
  - unfold flat. simpl.
    destruct (truthy_cases cur) as [[Et Hne]|[Et He]]; rewrite Et; [|exact Hlines].
    apply Forall_app. split; [exact Hlines|].
    constructor; [|constructor]. destruct Hcur as [He|Hok]; [contradiction | exact Hok].
  - cbn [wrap_words].
    assert (Hrest : forall w, In w rest -> In w all) by (intros w Hw; apply Hall; now right).
    assert (Hword : word = EmptyString \/ well_wrapped all word).
    { destruct word as [|c w]; [now left|]. right. split; [discriminate|].
      right. apply Hall. now left. }
    destruct (truthy_cases cur) as [[Et Hne]|[Et He]]; rewrite Et.
    + destruct (JS.gtb (measureText (cur ++ " " ++ word)) maxWidth) eqn:Eg; cbn [andb].
      * apply IH; [exact Hrest | | exact Hword].
        unfold JS.push. apply Forall_app. split; [exact Hlines|].
        constructor; [|constructor]. destruct Hcur as [He|Hok]; [contradiction | exact Hok].
      * apply IH; [exact Hrest | exact Hlines |]. right. split.
        -- now apply append_nonempty.
        -- left. apply Qnot_lt_le. intros Hlt.
           apply PreviewProofs.ltb_true in Hlt. unfold JS.gtb in Eg. congruence.
    + rewrite andb_false_r. apply IH; [exact Hrest | exact Hlines | exact Hword].
Qed.

(** X26.  Every line [wrapText] returns is non-empty, and is no wider
    than [maxWidth] unless it is a single word of the text (a word too
    wide for a line gets a line of its own, overflowing). *)
Theorem wrapText_lines (text : string) :
  forall line, In line (wrapText measureText text maxWidth) ->
    line <> EmptyString
    /\ ((measureText line <= maxWidth)%Q \/ In line (split text)).
Proof.
  intros line Hin. rewrite wrapText_flat in Hin.
  pose proof (wrap_words_lines (split text) (split text) [] EmptyString
                (fun w H => H) (List.Forall_nil _) (or_introl eq_refl)) as H.
  rewrite List.Forall_forall in H. exact (H line Hin).
Qed.

Lemma wrap_words_join : forall words lines currentLine,
  Forall (fun w => w <> EmptyString) words ->
  JS.join " " (flat (wrap_words measureText maxWidth words lines currentLine))
  = JS.join " " (flat (lines, currentLine) ++ words).
Proof.
  induction words as [|word rest IH]; intros lines cur Hwords.
  - now rewrite app_nil_r.
  - inversion Hwords as [|? ? Hw Hrest]; subst. cbn [wrap_words].
    assert (Etw : JS.truthy word = true) by (destruct word; [congruence | reflexivity]).
    unfold flat at 2. cbn [fst snd].
    destruct (truthy_cases cur) as [[Et Hne]|[Et He]]; rewrite Et.
    + destruct (JS.gtb (measureText (cur ++ " " ++ word)) maxWidth); cbn [andb].
      * rewrite (IH _ _ Hrest). unfold flat, JS.push. cbn [fst snd]. rewrite Etw.
        now rewrite <- !app_assoc.
      * rewrite (IH _ _ Hrest). unfold flat. cbn [fst snd].
        assert (Etl : JS.truthy (cur ++ " " ++ word) = true)
          by (destruct cur; [congruence | reflexivity]).
        rewrite Etl, <- !app_assoc. cbn [app]. apply join_merge.
    + rewrite andb_false_r, (IH _ _ Hrest). unfold flat. cbn [fst snd].
      now rewrite Etw, <- app_assoc.
Qed.

(** X27.  When the text has no empty word (no leading, trailing or
    doubled space), wrapping loses nothing: the lines joined by single
    spaces are the text, so wrapping only turns some spaces into line
    breaks. *)
Theorem wrapText_join (text : string) :
  Forall (fun w => w <> EmptyString) (split text) ->
  JS.join " " (wrapText measureText text maxWidth) = text.
Proof.
  intros Hwords. rewrite wrapText_flat, (wrap_words_join _ _ _ Hwords).
  unfold flat. cbn [fst snd JS.truthy app]. apply join_split.
Qed.

End WrapTextProofs.

(** A font ten units wide per character. *)
Definition ten_per_char (line : string) : Q := inject_Z (10 * Z.of_nat (String.length line)).

Lemma wrapText_lines_witness :
  "jumps over"%string <> EmptyString
  /\ ((ten_per_char "jumps over" <= 100)%Q
      \/ In "jumps over"%string (split "a hippopotamus jumps over the moon")).
Proof.
  apply (wrapText_lines ten_per_char 100 "a hippopotamus jumps over the moon").
  vm_compute. right. right. left. reflexivity.
Defined.

Lemma wrapText_join_witness :
  JS.join " " (wrapText ten_per_char "a hippopotamus jumps over the moon" 100)
  = "a hippopotamus jumps over the moon"%string.
Proof.
  apply (wrapText_join ten_per_char 100 "a hippopotamus jumps over the moon").
  vm_compute. repeat constructor; discriminate.
Defined.

End TextLayoutProofs.

(** ** Keyboard navigation on the timeline *)

Module Timeline.
Import Utils State.

(** [scenes.findIndex(s => s.scene_id === sceneId)], counting from [i]. *)
Fixpoint findIndex_from (i : Z) (sceneId : Z) (scenes : list Scene) : Z :=
  match scenes with
  | [] => -1
  | s :: rest => if scene_id s =? sceneId then i else findIndex_from (i + 1) sceneId rest
  end.

Definition findIndex (sceneId : Z) (scenes : list Scene) : Z :=
  findIndex_from 0 sceneId scenes.

(** [navigateScene(direction)], with the click handler the application
    installs: it selects the scene in the store. *)
Definition navigateScene (direction : Z) (st : Store) : Store :=
  let len := Z.of_nat (length (scenes st)) in
  if len =? 0 then st
  else
    let newIndex :=
      match selectedScene st with
      | None => if direction >? 0 then 0 else len - 1
      | Some selected =>
          let currentIndex := findIndex (scene_id selected) (scenes st) in
          let newIndex := currentIndex + direction in
          let newIndex := if newIndex <? 0 then len - 1 else newIndex in
          if newIndex >=? len then 0 else newIndex
      end in
    match JS.index (scenes st) newIndex with
    | Some newScene => store_of (selectScene (Some newScene) st)
    | None => st
    end.

End Timeline.

Module TimelineProofs.
Import Utils State Timeline.

(** The store with another selection. *)
Definition with_selected (st : Store) (selected : option Scene) : Store :=
  {| currentProject := currentProject st; scenes := scenes st;
     selectedScene := selected;
     history := history st; historyIndex := historyIndex st |}.

Lemma selectScene_store (scene : option Scene) (st : Store) :
  store_of (selectScene scene st) = with_selected st scene.
Proof. reflexivity. Qed.

(** [findIndex] returns the first position holding the id. *)
Lemma findIndex_from_first (l : list Scene) : forall k i s,
  l !! i = Some s ->
  (forall j x, (j < i)%nat -> l !! j = Some x -> scene_id x <> scene_id s) ->
  findIndex_from k (scene_id s) l = k + Z.of_nat i.
Proof.
  induction l as [|x l IH]; intros k i s Hi Hfirst; [destruct i; discriminate|].
  destruct i as [|i]; simpl in *.
  - injection Hi as ->. rewrite Z.eqb_refl. lia.
  - destruct (Z.eqb_spec (scene_id x) (scene_id s)) as [E|E].
    + exfalso. apply (Hfirst 0%nat x); [lia | reflexivity | exact E].
    + rewrite (IH (k + 1) i s Hi); [lia|].
      intros j y Hj Hy. apply (Hfirst (S j) y); [lia | exact Hy].
Qed.

Lemma unique_is_first (l : list Scene) (i : nat) (s : Scene) :
  NoDup (map scene_id l) ->
  l !! i = Some s ->
  forall j x, (j < i)%nat -> l !! j = Some x -> scene_id x <> scene_id s.
Proof.
  intros Hnd Hi j x Hj Hx E.
  assert (Hi' : map scene_id l !! i = Some (scene_id s)).
  { change (map scene_id l) with (scene_id <$> l). now rewrite list_lookup_fmap, Hi. }
  assert (Hj' : map scene_id l !! j = Some (scene_id s)).
  { change (map scene_id l) with (scene_id <$> l).
    rewrite list_lookup_fmap, Hx. simpl. now rewrite E. }
  pose proof (NoDup_lookup _ _ _ _ Hnd Hi' Hj'). lia.
Qed.

(** One step from position [i], when [i] is the first position holding
    the selected id. *)
Lemma navigate_from (st : Store) (i : nat) (s selected : Scene) (direction : Z) :
  scenes st !! i = Some s ->
  (forall j x, (j < i)%nat -> scenes st !! j = Some x -> scene_id x <> scene_id s) ->
  selectedScene st = Some selected ->
  scene_id selected = scene_id s ->
  direction = 1 \/ direction = -1 ->
  let n := length (scenes st) in
  let target := if direction =? 1 then ((i + 1) mod n)%nat else ((i + n - 1) mod n)%nat in
  navigateScene direction st = with_selected st (scenes st !! target).
Proof.
  intros Hi Hfirst Hsel Hid Hdir n target.
  assert (Hlt : (i < n)%nat) by (apply lookup_lt_is_Some; eauto).
  unfold navigateScene. fold n.
  destruct (Z.eqb_spec (Z.of_nat n) 0) as [E|_]; [lia|].
  rewrite Hsel, Hid. unfold findIndex.
  rewrite (findIndex_from_first _ 0 i s Hi Hfirst).
  assert (Hgo : forall k : nat, (k < n)%nat ->
            match JS.index (scenes st) (Z.of_nat k) with
            | Some newScene => store_of (selectScene (Some newScene) st)
            | None => st
            end = with_selected st (scenes st !! k)).
  { intros k Hk. unfold JS.index.
    destruct (Z.ltb_spec (Z.of_nat k) 0) as [?|_]; [lia|]. rewrite Nat2Z.id.
    destruct (lookup_lt_is_Some_2 (scenes st) k Hk) as [x Hx]. now rewrite Hx. }
  destruct Hdir as [-> | ->]; cbn [Z.eqb Pos.eqb] in target; subst target.
  - destruct (Z.ltb_spec (0 + Z.of_nat i + 1) 0) as [?|_]; [lia|].
    rewrite Z.geb_leb.
    destruct (Z.leb_spec (Z.of_nat n) (0 + Z.of_nat i + 1)) as [Hwrap|Hin].
    + replace (i + 1)%nat with n by lia. rewrite Nat.Div0.mod_same.
      apply (Hgo 0%nat). lia.
    + rewrite Nat.mod_small by lia.
      replace (0 + Z.of_nat i + 1) with (Z.of_nat (i + 1)) by lia. apply Hgo. lia.
  - destruct (Z.ltb_spec (0 + Z.of_nat i + -1) 0) as [Hneg|Hnn].
    + assert (i = 0%nat) by lia. subst i.
      rewrite Z.geb_leb.
      destruct (Z.leb_spec (Z.of_nat n) (Z.of_nat n - 1)) as [?|_]; [lia|].
      rewrite Nat.mod_small by lia.
      replace (Z.of_nat n - 1) with (Z.of_nat (0 + n - 1)) by lia. apply Hgo. lia.
    + rewrite Z.geb_leb.
      destruct (Z.leb_spec (Z.of_nat n) (0 + Z.of_nat i + -1)) as [?|_]; [lia|].
      replace (i + n - 1)%nat with ((i - 1) + 1 * n)%nat by lia.
      rewrite Nat.Div0.mod_add, Nat.mod_small by lia.
      replace (0 + Z.of_nat i + -1) with (Z.of_nat (i - 1)) by lia. apply Hgo. lia.
Qed.

(** X28.  With distinct scene ids and a selected scene whose id is that
    of the scene at position [i] of [n]: the right arrow selects the scene
    at [(i + 1) mod n], the left arrow the one at [(i - 1) mod n]; right
    then left, and left then right, come back to the scene at [i]; and
    navigation leaves scenes, history and cursor alone. *)
Theorem navigateScene_cycles (st : Store) (i : nat) (s selected : Scene) :
  NoDup (map scene_id (scenes st)) ->
  scenes st !! i = Some s ->
  selectedScene st = Some selected ->
  scene_id selected = scene_id s ->
  let n := length (scenes st) in
  navigateScene 1 st = with_selected st (scenes st !! ((i + 1) mod n)%nat)
  /\ navigateScene (-1) st = with_selected st (scenes st !! ((i + n - 1) mod n)%nat)
  /\ navigateScene (-1) (navigateScene 1 st) = with_selected st (Some s)
  /\ navigateScene 1 (navigateScene (-1) st) = with_selected st (Some s).
Proof.
  intros Hnd Hi Hsel Hid n.
  assert (Hlt : (i < n)%nat) by (apply lookup_lt_is_Some; eauto).
  assert (Hstep : forall st' j x sel' direction,
            scenes st' = scenes st -> scenes st !! j = Some x ->
            selectedScene st' = Some sel' -> scene_id sel' = scene_id x ->
            direction = 1 \/ direction = -1 ->
            navigateScene direction st'
            = with_selected st'
                (scenes st !! (if direction =? 1 then ((j + 1) mod n)%nat
                               else ((j + n - 1) mod n)%nat))).
  { intros st' j x sel' direction Hsc Hj Hs' Hid' Hdir.
    pose proof (navigate_from st' j x sel' direction) as H.
    rewrite Hsc in H. fold n in H.
    apply H; [exact Hj | now apply unique_is_first | exact Hs' | exact Hid' | exact Hdir]. }
  pose proof (Hstep st i s selected 1 eq_refl Hi Hsel Hid (or_introl eq_refl)) as Hfwd.
  pose proof (Hstep st i s selected (-1) eq_refl Hi Hsel Hid (or_intror eq_refl)) as Hbwd.
  cbn [Z.eqb Pos.eqb] in Hfwd, Hbwd.
  split; [exact Hfwd|]. split; [exact Hbwd|].
  assert (Hn1 : ((i + 1) mod n < n)%nat) by (apply Nat.mod_upper_bound; lia).
  assert (Hn2 : ((i + n - 1) mod n < n)%nat) by (apply Nat.mod_upper_bound; lia).
  destruct (lookup_lt_is_Some_2 (scenes st) _ Hn1) as [x1 Hx1].
  destruct (lookup_lt_is_Some_2 (scenes st) _ Hn2) as [x2 Hx2].
  assert (Hback : (((i + 1) mod n + n - 1) mod n = i)%nat).
  { destruct (Nat.eq_dec (i + 1)%nat n) as [E|E].
    - rewrite E, Nat.Div0.mod_same. rewrite Nat.mod_small by lia. lia.
    - rewrite (Nat.mod_small (i + 1)%nat) by lia.
      replace (i + 1 + n - 1)%nat with (i + 1 * n)%nat by lia.
      rewrite Nat.Div0.mod_add. apply Nat.mod_small. lia. }
  assert (Hforth : (((i + n - 1) mod n + 1) mod n = i)%nat).
  { destruct (Nat.eq_dec i 0%nat) as [E|E].
    - rewrite (Nat.mod_small (i + n - 1)%nat) by lia.
      replace (i + n - 1 + 1)%nat with n by lia. rewrite Nat.Div0.mod_same. lia.
    - replace (i + n - 1)%nat with ((i - 1) + 1 * n)%nat by lia.
      rewrite Nat.Div0.mod_add, (Nat.mod_small (i - 1)%nat) by lia.
      rewrite Nat.mod_small by lia. lia. }
  split.
  - rewrite Hfwd, Hx1.
    rewrite (Hstep (with_selected st (Some x1)) _ x1 x1 (-1) eq_refl Hx1 eq_refl eq_refl
               (or_intror eq_refl)).
    cbn [Z.eqb]. rewrite Hback, Hi. reflexivity.
  - rewrite Hbwd, Hx2.
    rewrite (Hstep (with_selected st (Some x2)) _ x2 x2 1 eq_refl Hx2 eq_refl eq_refl
               (or_introl eq_refl)).
    cbn [Z.eqb Pos.eqb]. rewrite Hforth, Hi. reflexivity.
Qed.

(** X29.  When the scene after the first scene with the selected id has
    that id too, the right arrow selects it and then stays on it: every
    further right arrow leaves the store as it is. *)
Theorem navigateScene_stuck_on_repeated_id (st : Store) (i : nat)
    (s next selected : Scene) :
  scenes st !! i = Some s ->
  (forall j x, (j < i)%nat -> scenes st !! j = Some x -> scene_id x <> scene_id s) ->
  scenes st !! S i = Some next ->
  scene_id next = scene_id s ->
  selectedScene st = Some selected ->
  scene_id selected = scene_id s ->
  navigateScene 1 st = with_selected st (Some next)
  /\ navigateScene 1 (navigateScene 1 st) = navigateScene 1 st.
Proof.
  intros Hi Hfirst Hnext Hsame Hsel Hid.
  assert (Hlt : (S i < length (scenes st))%nat) by (apply lookup_lt_is_Some; eauto).
  assert (Hstep : forall st' sel',
            scenes st' = scenes st -> selectedScene st' = Some sel' ->
            scene_id sel' = scene_id s ->
            navigateScene 1 st' = with_selected st' (Some next)).
  { intros st' sel' Hsc Hs' Hid'.
    pose proof (navigate_from st' i s sel' 1) as H. rewrite Hsc in H.
    rewrite (H Hi Hfirst Hs' Hid' (or_introl eq_refl)).
    cbn [Z.eqb Pos.eqb]. rewrite Nat.mod_small by lia.
    replace (i + 1)%nat with (S i) by lia. now rewrite Hnext. }
  rewrite (Hstep st selected eq_refl Hsel Hid). split; [reflexivity|].
  apply (Hstep (with_selected st (Some next)) next eq_refl eq_refl Hsame).
Qed.

Definition shot (i : Z) (ts : string) : Scene :=
  {| scene_id := i; scene_type := "hook"; duration := 3; timestamp := ts;
     prompt := Some "a street at night"%string; visual_fx := Some "static"%string;
     text_content := None |}.

(** Three scenes, the last selected. *)
Definition on_last : Store :=
  {| currentProject := None;
     scenes := [shot 1 "0:00"; shot 2 "0:03"; shot 3 "0:06"];
     selectedScene := Some (shot 3 "0:06");
     history := [[shot 1 "0:00"; shot 2 "0:03"; shot 3 "0:06"]];
     historyIndex := 0 |}.

Lemma navigateScene_cycles_witness :
  selectedScene (navigateScene 1 on_last) = Some (shot 1 "0:00")
  /\ selectedScene (navigateScene (-1) (navigateScene 1 on_last)) = Some (shot 3 "0:06").
Proof.
  assert (Hnd : NoDup (map scene_id (scenes on_last))).
  { cbn. apply NoDup_ListNoDup.
    repeat (apply List.NoDup_cons; [cbn; intros H; intuition discriminate|]).
    apply List.NoDup_nil. }
  pose proof (navigateScene_cycles on_last 2 (shot 3 "0:06") (shot 3 "0:06")
                Hnd eq_refl eq_refl eq_refl) as H.
  split.
  - now rewrite (proj1 H).
  - now rewrite (proj1 (proj2 (proj2 H))).
Defined.

(** Two scenes with id 2 side by side, the first of them selected. *)
Definition on_twin : Store :=
  {| currentProject := None;
     scenes := [shot 1 "0:00"; shot 2 "0:03"; shot 2 "0:06"; shot 3 "0:09"];
     selectedScene := Some (shot 2 "0:03");
     history := [];
     historyIndex := -1 |}.

Lemma navigateScene_stuck_on_repeated_id_witness :
  navigateScene 1 on_twin = with_selected on_twin (Some (shot 2 "0:06"))
  /\ navigateScene 1 (navigateScene 1 on_twin) = navigateScene 1 on_twin.
Proof.
  apply (navigateScene_stuck_on_repeated_id on_twin 1 (shot 2 "0:03") (shot 2 "0:06")
           (shot 2 "0:03") eq_refl).
  - intros j x Hj Hx. destruct j as [|j]; [|lia]. injection Hx as <-. discriminate.
  - reflexivity.
  - reflexivity.
  - reflexivity.
  - reflexivity.
Defined.

End TimelineProofs.

(** ** The store with its saved copies *)

Module Persistence.
Import Utils State.

(** The part of [localStorage] the store reads back: the scenes under
    the [timeline_scenes_<project id>] keys.  [setItem] is taken to
    succeed, and [JSON.parse] after [JSON.stringify] to give the scenes
    back as they were. *)
Definition LocalStorage := string -> option (list Scene).

Record Session := mkSession {
  store : Store;
  localStorage : LocalStorage
}.

Definition Storage_save (key : string) (data : list Scene) (ls : LocalStorage)
  : LocalStorage :=
  fun k => if String.eqb k key then Some data else ls k.

Definition Storage_load (key : string) (ls : LocalStorage) : option (list Scene) :=
  ls key.

Definition Storage_remove (key : string) (ls : LocalStorage) : LocalStorage :=
  fun k => if String.eqb k key then None else ls k.

(** [this.store.currentProject?.project_id], when it is truthy. *)
Definition projectId (st : Store) : option string :=
  match currentProject st with
  | Some project =>
      if JS.truthy (project_id project) then Some (project_id project) else None
  | None => None
  end.

Definition scenes_key (projectId : string) : string :=
  ("timeline_scenes_" ++ projectId)%string.

(** [_autoSave()]. *)
Definition _autoSave (w : Session) : Session :=
  match projectId (store w), scenes (store w) with
  | Some projectId, _ :: _ =>
      {| store := store w;
         localStorage :=
           Storage_save (scenes_key projectId) (scenes (store w)) (localStorage w) |}
  | _, _ => w
  end.

(** [set(updates, skipHistory)], with the auto-save it ends in. *)
Definition set (updates : Updates) (skipHistory : bool) (w : Session) : Session :=
  let w1 := {| store := State.set updates skipHistory (store w);
               localStorage := localStorage w |} in
  if bool_decide (is_Some (upd_scenes updates)) then _autoSave w1 else w1.

(** [setScenes(scenes, skipLocalStorage)]: the saved copy is read first,
    and the [set] at the end saves again. *)
Definition setScenes (scenes : list Scene) (skipLocalStorage : bool) (w : Session)
  : Session :=
  let savedScenes :=
    if negb skipLocalStorage then
      match projectId (store w) with
      | Some projectId => Storage_load (scenes_key projectId) (localStorage w)
      | None => None
      end
    else None in
  _autoSave {| store := store_of (State.setScenes scenes savedScenes (store w));
               localStorage := localStorage w |}.

(** [clearSavedScenes()]. *)
Definition clearSavedScenes (w : Session) : Session :=
  match projectId (store w) with
  | Some projectId =>
      {| store := store w;
         localStorage := Storage_remove (scenes_key projectId) (localStorage w) |}
  | None => w
  end.

End Persistence.

Module PersistenceProofs.
Import Utils State Persistence.

Lemma set_scenes_project scenes' skipHistory st :
  currentProject (State.set (scenes_update scenes' false) skipHistory st)
  = currentProject st.
Proof.
  unfold State.set, _pushHistory. simpl.
  destruct skipHistory; simpl; [reflexivity|].
  destruct (_ <? _); destruct (_ >? _); reflexivity.
Qed.

Lemma set_scenes_any scenes' skipHistory st :
  scenes (State.set (scenes_update scenes' false) skipHistory st)
  = calculateTimestamps scenes'.
Proof.
  unfold State.set, _pushHistory. simpl.
  destruct skipHistory; simpl; [reflexivity|].
  destruct (_ <? _); destruct (_ >? _); reflexivity.
Qed.

Lemma calculated_nonempty (l : list Scene) :
  l <> [] -> exists s rest, calculateTimestamps l = s :: rest.
Proof. destruct l as [|s l]; [congruence|]. intros _. simpl. eauto. Qed.

(** X30.  Once a project with a non-empty id is selected, every [set]
    that writes a non-empty scene list saves the resulting scenes under
    the project's key.  A later [setScenes(scenes)] then ignores its
    argument: it reloads the saved copy, so the scenes stay as they were.
    The argument is used only with [skipLocalStorage], or after
    [clearSavedScenes()]. *)
Theorem setScenes_prefers_saved (w : Session) (l scenes' : list Scene)
    (skipHistory : bool) (pid : string) :
  projectId (store w) = Some pid ->
  l <> [] ->
  let w1 := set (scenes_update l false) skipHistory w in
  Storage_load (scenes_key pid) (localStorage w1) = Some (scenes (store w1))
  /\ scenes (store (setScenes scenes' false w1)) = scenes (store w1)
  /\ scenes (store (setScenes scenes' true w1)) = calculateTimestamps scenes'
  /\ scenes (store (setScenes scenes' false (clearSavedScenes w1)))
     = calculateTimestamps scenes'.
Proof.
  intros Hpid Hl w1.
  set (st1 := State.set (scenes_update l false) skipHistory (store w)).
  assert (Hp1 : projectId st1 = Some pid).
  { unfold projectId, st1 in *. now rewrite set_scenes_project. }
  assert (Hs1 : scenes st1 = calculateTimestamps l) by apply set_scenes_any.
  destruct (calculated_nonempty l Hl) as [s [rest Hcalc]].
  assert (Hw1 : w1 = {| store := st1;
                        localStorage := Storage_save (scenes_key pid) (scenes st1)
                                          (localStorage w) |}).
  { unfold w1, set. cbn [upd_scenes scenes_update]. unfold _autoSave.
    cbn [store localStorage]. fold st1. rewrite Hp1, Hs1, Hcalc. reflexivity. }
  assert (Hkeep : forall st' ls, scenes (store (_autoSave {| store := st'; localStorage := ls |}))
                                 = scenes st').
  { intros st' ls. unfold _autoSave. cbn [store].
    destruct (projectId st'); [destruct (scenes st') eqn:E|]; cbn [store];
      try rewrite E; reflexivity. }
  assert (Hset : forall given saved st,
            scenes (store_of (State.setScenes given saved st))
            = calculateTimestamps match saved with
                                  | Some (x :: xs) => x :: xs
                                  | _ => given
                                  end).
  { intros given saved st. reflexivity. }
  rewrite Hw1. cbn [store localStorage]. split; [|split; [|split]].
  - unfold Storage_load, Storage_save. now rewrite String.eqb_refl.
  - unfold setScenes. rewrite Hkeep. cbn [store localStorage negb]. rewrite Hp1, Hset.
    unfold Storage_load, Storage_save. rewrite String.eqb_refl, Hs1, Hcalc.
    rewrite <- Hcalc. apply StoreProofs.fresh_calculated.
  - unfold setScenes. rewrite Hkeep. cbn [negb]. now rewrite Hset.
  - unfold clearSavedScenes. cbn [store localStorage]. rewrite Hp1.
    unfold setScenes. rewrite Hkeep. cbn [store localStorage negb]. rewrite Hp1, Hset.
    unfold Storage_load, Storage_remove. now rewrite String.eqb_refl.
Qed.

Definition take_one (i : Z) (d : Q) (ts : string) : Scene :=
  {| scene_id := i; scene_type := "hook"; duration := d; timestamp := ts;
     prompt := Some "a street at night"%string; visual_fx := Some "static"%string;
     text_content := None |}.

(** A project just selected, nothing saved yet. *)
Definition just_selected : Session :=
  {| store := {| currentProject := Some (mkProject "proj_1" 10); scenes := [];
                 selectedScene := None; history := []; historyIndex := -1 |};
     localStorage := fun _ => None |}.

Lemma setScenes_prefers_saved_witness :
  scenes (store (setScenes [take_one 1 5 "0:00"; take_one 2 5 "0:05"] false
                   (set (scenes_update [take_one 1 4 "0:00"] false) false just_selected)))
  = scenes (store (set (scenes_update [take_one 1 4 "0:00"] false) false just_selected)).
Proof.
  apply (proj1 (proj2 (setScenes_prefers_saved just_selected [take_one 1 4 "0:00"]
                         [take_one 1 5 "0:00"; take_one 2 5 "0:05"] false "proj_1"
                         eq_refl ltac:(discriminate)))).
Defined.

End PersistenceProofs.
